(** * pattern-break: numeric coverage extraction, grouping and gap detection

    A shallow embedding of the core of [pattern-break.py] (version 0.4.12):
    [parse_coverage_list], [group_items] with its two group builders,
    [detect_breaks_in_group], [build_missing_segment],
    [guess_prefix_suffix] and [find_closest_prefix_suffix] (the functions
    of gap detection also with a counter of the turns of their loops),
    together with
    the parts of the Python runtime they rely on ([str], [int],
    [str.zfill], [str.find], slicing, [sorted], [set]), and of its text
    reports: [reconstruct], [build_segment_text], [global_stats_summary],
    [format_inline], [format_summary], [format_csv] and [csv_escape].

    Conventions.
    - Python integers are [Z].
    - Names are [string]s whose characters stand for the code points
      below 256; among them the digits of [\d] and of [int] are the
      characters '0'..'9'. The bound that recent versions of Python put on
      the length of a numeral given to [int] (4300 digits) is beyond the
      length of a file name and is not modelled.
    - A regular expression is what the program computes with it: the
      search of [--pattern] is a function from names to booleans, the
      matches of [--range-regex] a function from names to the list that
      [re.findall] returns. A string that is not a regular expression,
      on which [re.search] or [re.findall] raises [re.error] at the
      first item, is not a value of these types: the statements are
      about configurations whose patterns are regular expressions.
    - A raised exception is a value [Err e] of the type [res];
      the only loop of the program that is not bounded by the size of its
      input, the [while] of [build_missing_segment], takes a fuel argument
      and answers [Err OutOfFuel] when the fuel is exhausted.
    - Sizes in bytes are exact rationals; the rounding of a float to two
      decimals, [f"{x:.2f}"], is a parameter of the report functions.
      Sizes are those of files: the range of a float, beyond which the
      division of the total size and its product with the number of
      missing values would raise [OverflowError], is not modelled. *)

From Stdlib Require Import ZArith QArith List String Ascii Bool Lia Arith.
From Stdlib Require Import Numbers.DecimalString Numbers.DecimalPos.
From Stdlib Require Import Permutation Sorted.
Import ListNotations.

Local Open Scope string_scope.
Local Open Scope list_scope.
Local Open Scope Z_scope.

(** ** Exceptions *)

Inductive error : Type :=
| IndexError
| ValueError
| OutOfFuel.

Inductive res (A : Type) : Type :=
| Ok (a : A)
| Err (e : error).

Arguments Ok {A} a.
Arguments Err {A} e.

Definition bind {A B : Type} (m : res A) (k : A -> res B) : res B :=
  match m with
  | Ok a => k a
  | Err e => Err e
  end.

Notation "x <- m ;; k" := (bind m (fun x => k))
  (at level 61, m at next level, right associativity).

Fixpoint mapM {A B : Type} (f : A -> res B) (l : list A) : res (list B) :=
  match l with
  | [] => Ok []
  | a :: l' => b <- f a ;; bs <- mapM f l' ;; Ok (b :: bs)
  end.

(** ** The Python runtime *)

Module Py.

(** [if x:] on an optional integer: [None] and [0] are false. *)
Definition truthy (o : option Z) : bool :=
  match o with
  | None => false
  | Some z => negb (z =? 0)
  end.

Definition is_digit (c : ascii) : bool :=
  let n := nat_of_ascii c in
  (Nat.leb 48 n && Nat.leb n 57)%bool.

Definition digit_val (c : ascii) : Z := Z.of_nat (nat_of_ascii c) - 48.

(** [str(z)] *)
Definition str (z : Z) : string := NilZero.string_of_int (Z.to_int z).

(** [len(s)] *)
Definition len (s : string) : Z := Z.of_nat (String.length s).

Fixpoint zeros (n : nat) : string :=
  match n with
  | O => ""
  | S n' => String "0" (zeros n')
  end.

(** [s.zfill(width)]: zeros are inserted after a leading sign. *)
Definition zfill (s : string) (width : Z) : string :=
  if width <=? len s then s
  else
    let fill := zeros (Z.to_nat (width - len s)) in
    match s with
    | String c rest =>
        if (Ascii.eqb c "+" || Ascii.eqb c "-")%bool
        then String c (fill ++ rest)%string
        else (fill ++ s)%string
    | EmptyString => fill
    end.

(** [s[:n]] and [s[n:]] for [0 <= n]. *)
Fixpoint take (n : nat) (s : string) : string :=
  match n, s with
  | S n', String c s' => String c (take n' s')
  | _, _ => ""
  end.

Fixpoint drop (n : nat) (s : string) : string :=
  match n, s with
  | S n', String _ s' => drop n' s'
  | _, _ => s
  end.

(** [s.find(sub)]: the lowest index where [sub] occurs, [None] for -1. *)
Fixpoint find (sub s : string) : option nat :=
  if String.prefix sub s then Some O
  else match s with
       | EmptyString => None
       | String _ s' => option_map S (find sub s')
       end.

(** [sub in s] *)
Definition contains (sub s : string) : bool :=
  match find sub s with Some _ => true | None => false end.

(** Decimal value of a string of digits, most significant first. *)
Fixpoint digits_val (acc : Z) (s : string) : Z :=
  match s with
  | EmptyString => acc
  | String c s' => digits_val (10 * acc + digit_val c) s'
  end.

(** The white space that [int] strips: the space, the characters 9 to 13
    (tab, line feed, vertical tab, form feed, carriage return) and, among
    the characters above 127, the next line (133) and the no-break space
    (160). The separators 28 to 31, for which [str.isspace] holds, are
    not stripped: [int] raises on them. *)
Definition is_space (c : ascii) : bool :=
  let n := nat_of_ascii c in
  (Nat.eqb n 32 || (Nat.leb 9 n && Nat.leb n 13)
   || Nat.eqb n 133 || Nat.eqb n 160)%bool.

Fixpoint lstrip (s : string) : string :=
  match s with
  | String c s' => if is_space c then lstrip s' else s
  | EmptyString => s
  end.

(** Removes trailing white space: [s.rstrip()]. *)
Fixpoint rstrip (s : string) : string :=
  match s with
  | String c s' =>
      match rstrip s' with
      | EmptyString => if is_space c then "" else String c ""
      | r => String c r
      end
  | EmptyString => s
  end.

(** The digits of an integer literal: single underscores are allowed
    between digits. [prev_digit] tells whether the previous character was
    a digit. *)
Fixpoint literal_digits (prev_digit : bool) (acc : Z) (s : string)
  : option Z :=
  match s with
  | EmptyString => if prev_digit then Some acc else None
  | String c s' =>
      if is_digit c then literal_digits true (10 * acc + digit_val c) s'
      else if (Ascii.eqb c "_" && prev_digit)%bool
           then literal_digits false acc s'
           else None
  end.

(** [int(s)] in base 10; [ValueError] when [s] is not an integer literal. *)
Definition int (s : string) : res Z :=
  let body := rstrip (lstrip s) in
  let parse (neg : bool) (d : string) :=
    match literal_digits false 0 d with
    | Some v => Ok (if neg then - v else v)
    | None => Err ValueError
    end in
  match body with
  | String c rest =>
      if Ascii.eqb c "-" then parse true rest
      else if Ascii.eqb c "+" then parse false rest
      else parse false body
  | EmptyString => Err ValueError
  end.

(** [re.findall(r"(\d+)", s)]: the maximal runs of digits, left to right.
    [cur] is the run being read. *)
Fixpoint digit_runs_from (cur : option string) (s : string) : list string :=
  match s with
  | EmptyString =>
      match cur with Some r => [r] | None => [] end
  | String c s' =>
      if is_digit c then
        digit_runs_from
          (Some (match cur with Some r => (r ++ String c "")%string | None => String c "" end))
          s'
      else
        match cur with
        | Some r => r :: digit_runs_from None s'
        | None => digit_runs_from None s'
        end
  end.

Definition findall_digits (s : string) : list string := digit_runs_from None s.

(** An element of the list that [re.findall(pattern, s)] returns: the
    text of the match (or of its only group) when the pattern has at most
    one group, the tuple of the groups when it has two or more. *)
Inductive found : Type :=
| Text (s : string)
| Groups (gs : list string).

(** A pattern is represented by what [re.findall] answers for it. *)
Definition pattern : Type := string -> list found.

(** The scanner for digits, a hyphen, digits. The leftmost match starts
    at the first digit of a run, takes the whole run, the hyphen and the
    whole next run; when the run is not followed by a hyphen and a digit
    no position inside it matches either. *)
Inductive scan_state : Type :=
| Idle
| InFirst (r1 : string)
| AfterDash (r1 : string)
| InSecond (r1 r2 : string).

Fixpoint scan_ranges (st : scan_state) (s : string) : list (string * string) :=
  match s with
  | EmptyString =>
      match st with
      | InSecond r1 r2 => [(r1, r2)]
      | _ => []
      end
  | String c s' =>
      if is_digit c then
        match st with
        | Idle => scan_ranges (InFirst (String c "")) s'
        | InFirst r1 => scan_ranges (InFirst (r1 ++ String c "")%string) s'
        | AfterDash r1 => scan_ranges (InSecond r1 (String c "")) s'
        | InSecond r1 r2 => scan_ranges (InSecond r1 (r2 ++ String c "")%string) s'
        end
      else
        match st with
        | Idle => scan_ranges Idle s'
        | InFirst r1 =>
            if Ascii.eqb c "-" then scan_ranges (AfterDash r1) s'
            else scan_ranges Idle s'
        | AfterDash _ => scan_ranges Idle s'
        | InSecond r1 r2 => (r1, r2) :: scan_ranges Idle s'
        end
  end.

(** [re.findall(r"(\d+)-(\d+)", s)], the default of [--range-regex]. *)
Definition default_range_regex : pattern :=
  fun s => map (fun m => Groups [fst m; snd m]) (scan_ranges Idle s).

(** [re.findall(r"\d+-\d+", s)]: the same matches, no group. *)
Definition ungrouped_range_regex : pattern :=
  fun s => map (fun m => Text (fst m ++ "-" ++ snd m)%string) (scan_ranges Idle s).

(** [re.sub(r"\d+$", "", s)] on the reversed string: [$] matches at the
    end of the string and before a newline that ends it. *)
Fixpoint drop_digits_rev (r : string) : string :=
  match r with
  | String c r' => if is_digit c then drop_digits_rev r' else r
  | EmptyString => r
  end.

Fixpoint rev_string (acc s : string) : string :=
  match s with
  | EmptyString => acc
  | String c s' => rev_string (String c acc) s'
  end.

Definition newline : ascii := ascii_of_nat 10.

Definition sub_trailing_digits (s : string) : string :=
  match rev_string "" s with
  | String c r =>
      if is_digit c then rev_string "" (drop_digits_rev r)
      else if Ascii.eqb c newline
           then rev_string "" (String c (drop_digits_rev r))
           else s
  | EmptyString => s
  end.

(** [range(lo, hi)] *)
Definition range (lo hi : Z) : list Z :=
  map (fun i => lo + Z.of_nat i) (seq 0 (Z.to_nat (hi - lo))).

(** [max(l)], a [ValueError] on the empty list. *)
Definition max (l : list Z) : res Z :=
  match l with
  | [] => Err ValueError
  | x :: l' => Ok (fold_left Z.max l' x)
  end.

(** [l[0]] *)
Definition first {A : Type} (l : list A) : res A :=
  match l with
  | [] => Err IndexError
  | x :: _ => Ok x
  end.

(** Tuples [(int, str)] compared with [<]. *)
Definition key : Type := (Z * string)%type.

Definition key_lt (a b : key) : bool :=
  (fst a <? fst b) || ((fst a =? fst b) && String.ltb (snd a) (snd b)).

(** [list.sort(key=...)]: the keys are computed first, the sort is
    stable and compares keys with [<] only. *)
Fixpoint insert_keyed {A : Type} (x : key * A) (l : list (key * A))
  : list (key * A) :=
  match l with
  | [] => [x]
  | y :: l' =>
      if key_lt (fst y) (fst x) then y :: insert_keyed x l'
      else x :: l
  end.

Fixpoint sort_keyed {A : Type} (l : list (key * A)) : list (key * A) :=
  match l with
  | [] => []
  | x :: l' => insert_keyed x (sort_keyed l')
  end.

Definition sort_by_key {A : Type} (f : A -> res key) (l : list A)
  : res (list A) :=
  ks <- mapM (fun a => k <- f a ;; Ok (k, a)) l ;;
  Ok (map snd (sort_keyed ks)).

End Py.

(** A Python [set] of integers, kept as its ascending list of elements,
    so that [sorted(s)] is the list itself. *)
Module IntSet.

Definition t : Type := list Z.

Definition empty : t := [].

Fixpoint add (v : Z) (s : t) : t :=
  match s with
  | [] => [v]
  | x :: s' =>
      if v <? x then v :: s
      else if v =? x then s
      else x :: add v s'
  end.

Definition sorted (s : t) : list Z := s.

End IntSet.

(** ** Data model *)

(** The dictionaries built by [collect_files] and [collect_dirs]. *)
Record item : Type := mk_item {
  path : string;
  name : string;
  size : Z;
  is_dir : bool
}.

Inductive policy : Type :=
| First
| Largest
| All
| MultiBlockAdvanced.

Inductive artifact : Type :=
| Files
| Dirs.

(** [{"item": it, "coverage": c}] *)
Record pick : Type := mk_pick {
  pick_item : item;
  coverage : list Z
}.

Record group : Type := mk_group {
  group_id : string;
  directory : option string;
  label : string;
  artifact_type : artifact;
  picks : list pick
}.

(** The namespace of [argparse], for the options read by the core. *)
Record args : Type := mk_args {
  arg_pattern : option (string -> bool);
  arg_filter : option string;
  group_threshold : option Z;
  cross_dir_grouping : bool;
  block_policy : policy;
  multi_range : bool;
  range_regex : Py.pattern;
  start_num : option Z;
  end_num : option Z;
  mod_boundary : option Z;
  increment : Z;
  explain : bool
}.

(** ** Coverage parsing *)

Section Coverage.

Variable multi_range_on : bool.
Variable rx : Py.pattern.

(** The body of [for m in rngs]. *)
Definition add_match (cov : IntSet.t) (m : Py.found) : res IntSet.t :=
  match m with
  | Py.Groups (g0 :: g1 :: _) =>
      st <- Py.int g0 ;;
      ed <- Py.int g1 ;;
      let lo := Z.min st ed in
      let hi := Z.max st ed in
      Ok (fold_left (fun c v => IntSet.add v c) (Py.range lo (hi + 1)) cov)
  | _ => Ok cov
  end.

Fixpoint add_matches (cov : IntSet.t) (rngs : list Py.found) : res IntSet.t :=
  match rngs with
  | [] => Ok cov
  | m :: rest => cov' <- add_match cov m ;; add_matches cov' rest
  end.

Definition coverage_for_block (full_name : string) (val : Z) : res (list Z) :=
  let cov := IntSet.add val IntSet.empty in
  cov <- (if multi_range_on
          then add_matches cov (rx full_name)
          else Ok cov) ;;
  Ok (IntSet.sorted cov).

(** [return [c] if c else []] *)
Definition singleton_if (c : list Z) : list (list Z) :=
  match c with
  | [] => []
  | _ => [c]
  end.

(** The loop of the branch [block_policy == "all"]. *)
Fixpoint all_loop (nm : string) (blocks_i : list Z) (result : list (list Z))
  : res (list (list Z)) :=
  match blocks_i with
  | [] => Ok result
  | bval :: rest =>
      c <- coverage_for_block nm bval ;;
      all_loop nm rest (match c with [] => result | _ => result ++ [c] end)
  end.

(** The loop of the last branch, [multi-block-advanced]. *)
Fixpoint advanced_loop (nm : string) (blocks_i : list Z) (result : list (list Z))
  : res (list (list Z)) :=
  match blocks_i with
  | [] => Ok result
  | bval :: rest =>
      c <- coverage_for_block nm bval ;;
      advanced_loop nm rest (match c with [] => result | _ => result ++ [c] end)
  end.

Definition parse_coverage_list (it : item) (bp : policy) : res (list (list Z)) :=
  let nm := name it in
  let blocks := Py.findall_digits nm in
  match blocks with
  | [] => Ok []
  | _ =>
      blocks_i <- mapM Py.int blocks ;;
      match bp with
      | First =>
          v <- Py.first blocks_i ;;
          c <- coverage_for_block nm v ;;
          Ok (singleton_if c)
      | Largest =>
          v <- Py.max blocks_i ;;
          c <- coverage_for_block nm v ;;
          Ok (singleton_if c)
      | All => all_loop nm blocks_i []
      | MultiBlockAdvanced => advanced_loop nm blocks_i []
      end
  end.

End Coverage.

(** ** Grouping *)

(** The result of [collect_files] or [collect_dirs]: a dictionary from a
    directory to its items, in insertion order. *)
Definition collection : Type := list (string * list item).

Definition item_passes_filter (it : item) (pat : option (string -> bool))
  (subf : option string) : bool :=
  let nm := name it in
  if match pat with
     | Some search => negb (search nm)
     | None => false
     end
  then false
  else if match subf with
          | Some sub => negb (String.eqb sub "") && negb (Py.contains sub nm)
          | None => false
          end
       then false
       else true.

Definition no_numeric : string := "<no-numeric>".

(** The part of the two label functions that follows [val = coverage[0]]. *)
Definition label_of (nm : string) (val : Z) : string :=
  let zval := Py.zfill (Py.str val) (Py.len (Py.str val)) in
  let found :=
    match Py.find zval nm with
    | Some idx => Some idx
    | None => Py.find (Py.str val) nm
    end in
  match found with
  | None => no_numeric
  | Some idx =>
      let prefix := Py.sub_trailing_digits (Py.take idx nm) in
      if String.eqb prefix "" then no_numeric else prefix
  end.

Fixpoint compute_group_label_for_picks (ps : list pick) : string :=
  match ps with
  | [] => no_numeric
  | p :: rest =>
      match coverage p with
      | val :: _ => label_of (name (pick_item p)) val
      | [] => compute_group_label_for_picks rest
      end
  end.

(** The tuples [(dkey, it, cov)] of cross-directory grouping. *)
Definition flat_pick : Type := (string * item * list Z)%type.

Fixpoint compute_group_label_for_flat (citems : list flat_pick) : string :=
  match citems with
  | [] => no_numeric
  | (_, it, cov) :: rest =>
      match cov with
      | val :: _ => label_of (name it) val
      | [] => compute_group_label_for_flat rest
      end
  end.

Section Subgroups.

Variable dkey : string.
Variable artifact_kind : artifact.

Definition dir_group (idx : Z) (citems : list pick) : group :=
  mk_group (dkey ++ "__group" ++ Py.str idx)%string (Some dkey)
           (compute_group_label_for_picks citems) artifact_kind citems.

(** The loop of [build_subgroups_in_dir]; its state is
    [(groups, lastv, citems, idx)]. *)
Fixpoint subgroups_loop (threshold : Z) (ps : list pick)
  (groups : list group) (lastv : option Z) (citems : list pick) (idx : Z)
  : res (list group * list pick * Z) :=
  match ps with
  | [] => Ok (groups, citems, idx)
  | p :: rest =>
      mv <- Py.first (coverage p) ;;
      match lastv with
      | None => subgroups_loop threshold rest groups (Some mv) [p] idx
      | Some lv =>
          if mv - lv >? threshold
          then subgroups_loop threshold rest
                 (groups ++ [dir_group idx citems]) (Some mv) [p] (idx + 1)
          else subgroups_loop threshold rest groups (Some mv) (citems ++ [p]) idx
      end
  end.

Definition build_subgroups_in_dir (ps : list pick) (threshold : option Z)
  : res (list group) :=
  match (if Py.truthy threshold then threshold else None) with
  | None => Ok [dir_group 0 ps]
  | Some t =>
      st <- subgroups_loop t ps [] None [] 0 ;;
      let '(groups, citems, idx) := st in
      match citems with
      | [] => Ok groups
      | _ => Ok (groups ++ [dir_group idx citems])
      end
  end.

End Subgroups.

Definition pick_of_flat (x : flat_pick) : pick :=
  let '(_, it, cov) := x in mk_pick it cov.

Definition flat_group (artifact_kind : artifact) (idx : Z)
  (citems : list flat_pick) : group :=
  mk_group ("crossdir_" ++ Py.str idx)%string None
           (compute_group_label_for_flat citems) artifact_kind
           (map pick_of_flat citems).

Fixpoint flat_loop (artifact_kind : artifact) (threshold : option Z)
  (flat : list flat_pick) (groups : list group) (lastv : option Z)
  (citems : list flat_pick) (idx : Z)
  : res (list group * list flat_pick * Z) :=
  match flat with
  | [] => Ok (groups, citems, idx)
  | (dkey, it, cov) :: rest =>
      mv <- Py.first cov ;;
      match lastv with
      | None =>
          flat_loop artifact_kind threshold rest groups (Some mv)
                    [(dkey, it, cov)] idx
      | Some lv =>
          if Py.truthy threshold
             && match threshold with
                | Some t => mv - lv >? t
                | None => false
                end
          then flat_loop artifact_kind threshold rest
                 (groups ++ [flat_group artifact_kind idx citems])
                 (Some mv) [(dkey, it, cov)] (idx + 1)
          else flat_loop artifact_kind threshold rest groups (Some mv)
                 (citems ++ [(dkey, it, cov)]) idx
      end
  end.

Definition flat_key (x : flat_pick) : res Py.key :=
  let '(_, it, cov) := x in
  v <- Py.first cov ;; Ok (v, name it).

Definition build_groups_from_flat (flat : list flat_pick)
  (threshold : option Z) (artifact_kind : artifact) : res (list group) :=
  flat <- Py.sort_by_key flat_key flat ;;
  st <- flat_loop artifact_kind threshold flat [] None [] 0 ;;
  let '(groups, citems, idx) := st in
  match citems with
  | [] => Ok groups
  | _ => Ok (groups ++ [flat_group artifact_kind idx citems])
  end.

Definition pick_key (p : pick) : res Py.key :=
  v <- Py.first (coverage p) ;; Ok (v, name (pick_item p)).

Section GroupItems.

Variable a : args.
Variable artifact_kind : artifact.

(** The coverage sets of the items of one directory that pass the filter,
    in order: the two inner loops of [group_items]. *)
Fixpoint coverages_of_items (items : list item) : res (list (item * list Z)) :=
  match items with
  | [] => Ok []
  | it :: rest =>
      if item_passes_filter it (arg_pattern a) (arg_filter a) then
        cov_list <- parse_coverage_list (multi_range a) (range_regex a)
                      it (block_policy a) ;;
        more <- coverages_of_items rest ;;
        Ok (map (fun c => (it, c)) cov_list ++ more)
      else coverages_of_items rest
  end.

Fixpoint flatten_collection (coll : collection) : res (list flat_pick) :=
  match coll with
  | [] => Ok []
  | (dkey, items) :: rest =>
      here <- coverages_of_items items ;;
      more <- flatten_collection rest ;;
      Ok (map (fun ic => (dkey, fst ic, snd ic)) here ++ more)
  end.

Fixpoint group_per_directory (coll : collection) : res (list group) :=
  match coll with
  | [] => Ok []
  | (dkey, items) :: rest =>
      here <- coverages_of_items items ;;
      let ps := map (fun ic => mk_pick (fst ic) (snd ic)) here in
      match ps with
      | [] => group_per_directory rest
      | _ =>
          sorted <- Py.sort_by_key pick_key ps ;;
          gs <- build_subgroups_in_dir dkey artifact_kind sorted
                  (group_threshold a) ;;
          more <- group_per_directory rest ;;
          Ok (gs ++ more)
      end
  end.

Definition group_items (coll : collection) : res (list group) :=
  if cross_dir_grouping a then
    flat <- flatten_collection coll ;;
    build_groups_from_flat flat (group_threshold a) artifact_kind
  else group_per_directory coll.

End GroupItems.

(** ** Missing detection *)

Inductive boundary : Type :=
| Leading
| Internal
| Trailing.

Definition boundary_name (b : boundary) : string :=
  match b with
  | Leading => "leading"
  | Internal => "internal"
  | Trailing => "trailing"
  end.

Record missing_item : Type := mk_missing {
  val : Z;
  padded : string;
  prefix : string;
  suffix : string;
  reason : string
}.

Record segment : Type := mk_segment {
  start_val : Z;
  end_val : Z;
  count : Z;
  boundary_type : boundary;
  missing_items : list missing_item
}.

(** An entry of [real_cov_items]. *)
Record real_cov : Type := mk_real {
  rc_val : Z;
  rc_prefix : string;
  rc_suffix : string;
  rc_is_dir : bool;
  rc_size : Z
}.

(** [approx_missing_bytes] is the exact quotient; Python rounds it to a
    float. *)
Record stats : Type := mk_stats {
  num_missing : Z;
  num_real : Z;
  num_segments : Z;
  approx_missing_bytes : Q
}.

Record group_result : Type := mk_result {
  group_info : group;
  segments : list segment;
  result_stats : stats
}.

Definition guess_prefix_suffix (it : item) (example_val : Z) : string * string :=
  let nm := name it in
  let zstr := Py.zfill (Py.str example_val) (Py.len (Py.str example_val)) in
  match Py.find zstr nm with
  | None =>
      match Py.find (Py.str example_val) nm with
      | None => ("???_", ".xxx")
      | Some idx2 =>
          (Py.take idx2 nm,
           Py.drop (idx2 + String.length (Py.str example_val)) nm)
      end
  | Some idx =>
      (Py.take idx nm, Py.drop (idx + String.length zstr) nm)
  end.

Section Segment.

Variable btype : boundary.
Variable explain_on : bool.
Variable modulus : option Z.
Variable inc : Z.

Definition missing_at (pad_len v : Z) : missing_item :=
  let pstr := Py.zfill (Py.str v) pad_len in
  let reason :=
    if explain_on
       && match btype with Leading | Trailing => true | Internal => false end
       && Py.truthy modulus
    then (boundary_name btype ++ " (possible boundary)")%string
    else boundary_name btype in
  mk_missing v pstr "" "" reason.

(** [while v <= ed]: one unit of fuel for each turn of the loop. *)
Fixpoint missing_loop (fuel : nat) (pad_len v ed : Z)
  (items : list missing_item) : res (list missing_item) :=
  if v <=? ed then
    match fuel with
    | O => Err OutOfFuel
    | S fuel' =>
        missing_loop fuel' pad_len (v + inc) ed (items ++ [missing_at pad_len v])
    end
  else Ok items.

Definition build_missing_segment (fuel : nat) (st ed : Z) : res segment :=
  if ed <? st then Ok (mk_segment st ed 0 btype [])
  else
    let pad_len := Py.len (Py.str ed) in
    items <- missing_loop fuel pad_len st ed [] ;;
    Ok (mk_segment st ed (Z.of_nat (List.length items)) btype items).

End Segment.

(** The state of the scan is [(best, best_diff)]; [None] stands for the
    initial [best = None], [best_diff = inf]. *)
Fixpoint closest_loop (v : Z) (rcs : list real_cov)
  (best : option (real_cov * Z)) : option (real_cov * Z) :=
  match rcs with
  | [] => best
  | rc :: rest =>
      let diff := Z.abs (rc_val rc - v) in
      match best with
      | None => closest_loop v rest (Some (rc, diff))
      | Some (_, best_diff) =>
          if diff <? best_diff then closest_loop v rest (Some (rc, diff))
          else closest_loop v rest best
      end
  end.

Definition find_closest_prefix_suffix (v : Z) (rcs : list real_cov)
  : string * string :=
  match closest_loop v rcs None with
  | Some (best, _) => (rc_prefix best, rc_suffix best)
  | None => ("???_", ".xxx")
  end.

Definition empty_result (g : group) : group_result :=
  mk_result g [] (mk_stats 0 0 0 0%Q).

(** [if seg["count"] > 0: segments.append(seg)] *)
Definition append_if_counted (segs : list segment) (seg : segment)
  : list segment :=
  if count seg >? 0 then segs ++ [seg] else segs.

(** [mi["prefix"] = near["prefix"]; mi["suffix"] = near["suffix"]] *)
Definition fill_prefix (rcs : list real_cov) (mi : missing_item) : missing_item :=
  let near := find_closest_prefix_suffix (val mi) rcs in
  mk_missing (val mi) (padded mi) (fst near) (snd near) (reason mi).

Definition fill_segment (rcs : list real_cov) (seg : segment) : segment :=
  mk_segment (start_val seg) (end_val seg) (count seg) (boundary_type seg)
             (map (fill_prefix rcs) (missing_items seg)).

(** The first loop of [detect_breaks_in_group]; its state is
    [(all_ints, real_cov_items, total_size, real_count)]. *)
Fixpoint scan_picks (kind : artifact) (ps : list pick)
  (all_ints : IntSet.t) (rcs : list real_cov) (total_size real_count : Z)
  : res (IntSet.t * list real_cov * Z * Z) :=
  match ps with
  | [] => Ok (all_ints, rcs, total_size, real_count)
  | p :: rest =>
      let it := pick_item p in
      let cov := coverage p in
      let total_size' :=
        match kind with Files => total_size + size it | Dirs => total_size end in
      let real_count' :=
        match kind with Files => real_count + 1 | Dirs => real_count end in
      main_val <- Py.first cov ;;
      let ps_x := guess_prefix_suffix it main_val in
      scan_picks kind rest
        (fold_left (fun s v => IntSet.add v s) cov all_ints)
        (rcs ++ map (fun v => mk_real v (fst ps_x) (snd ps_x) (is_dir it) (size it)) cov)
        total_size' real_count'
  end.

Section Detect.

Variable start_opt end_opt modulus : option Z.
Variable inc : Z.
Variable explain_on : bool.
Variable fuel : nat.

Definition sequence_start (actual_min : Z) : Z :=
  match start_opt with
  | Some s => s
  | None =>
      match (if Py.truthy modulus then modulus else None) with
      | Some m => (actual_min / m) * m
      | None => actual_min
      end
  end.

Definition sequence_end (actual_max : Z) : Z :=
  match end_opt with
  | Some e => e
  | None =>
      match (if Py.truthy modulus then modulus else None) with
      | Some m => ((actual_max / m) + 1) * m - 1
      | None => actual_max
      end
  end.

Definition leading_part (seq_start actual_min : Z) (segs : list segment)
  : res (list segment) :=
  if seq_start <? actual_min then
    seg <- build_missing_segment Leading explain_on modulus inc fuel
             seq_start (actual_min - inc) ;;
    Ok (append_if_counted segs seg)
  else Ok segs.

(** [for i in range(len(sorted_ints) - 1)] *)
Fixpoint internal_loop (sorted_ints : list Z) (indices : list nat)
  (segs : list segment) : res (list segment) :=
  match indices with
  | [] => Ok segs
  | i :: rest =>
      let cval := nth i sorted_ints 0 in
      let nval := nth (S i) sorted_ints 0 in
      if nval - cval >? inc then
        seg <- build_missing_segment Internal explain_on modulus inc fuel
                 (cval + inc) (nval - 1) ;;
        internal_loop sorted_ints rest (append_if_counted segs seg)
      else internal_loop sorted_ints rest segs
  end.

Definition trailing_part (seq_end actual_max : Z) (segs : list segment)
  : res (list segment) :=
  if seq_end >? actual_max then
    seg <- build_missing_segment Trailing explain_on modulus inc fuel
             (actual_max + inc) seq_end ;;
    Ok (append_if_counted segs seg)
  else Ok segs.

Definition detect_breaks_in_group (g : group) : res group_result :=
  match picks g with
  | [] => Ok (empty_result g)
  | _ =>
      st <- scan_picks (artifact_type g) (picks g) IntSet.empty [] 0 0 ;;
      let '(all_ints, real_cov_items, total_size, real_count) := st in
      let sorted_ints := IntSet.sorted all_ints in
      match sorted_ints with
      | [] => Ok (empty_result g)
      | actual_min :: _ =>
          let actual_max := last sorted_ints 0 in
          let seq_start := sequence_start actual_min in
          let seq_end := sequence_end actual_max in
          segs <- leading_part seq_start actual_min [] ;;
          segs <- internal_loop sorted_ints
                    (seq 0 (List.length sorted_ints - 1)) segs ;;
          segs <- trailing_part seq_end actual_max segs ;;
          let total_missing := fold_left Z.add (map count segs) 0 in
          let approx_bytes :=
            match artifact_type g with
            | Files =>
                if real_count >? 0
                then (inject_Z total_size / inject_Z real_count
                      * inject_Z total_missing)%Q
                else 0%Q
            | Dirs => 0%Q
            end in
          Ok (mk_result g
                (map (fill_segment real_cov_items) segs)
                (mk_stats total_missing
                   (match artifact_type g with
                    | Files => real_count
                    | Dirs => Z.of_nat (List.length sorted_ints)
                    end)
                   (Z.of_nat (List.length segs))
                   approx_bytes))
      end
  end.

End Detect.

(** ** The turns of the loops of gap detection *)

(** The functions of gap detection once more, each with a counter of the
    turns that its [for] and [while] statements take. Calls of the
    runtime ([sorted], [set.add], [str.find], [sum] over a generator
    expression, ...) are not counted. *)

Fixpoint closest_loop_turns (v : Z) (rcs : list real_cov)
  (best : option (real_cov * Z)) (turns : nat)
  : option (real_cov * Z) * nat :=
  match rcs with
  | [] => (best, turns)
  | rc :: rest =>
      let diff := Z.abs (rc_val rc - v) in
      match best with
      | None => closest_loop_turns v rest (Some (rc, diff)) (S turns)
      | Some (_, best_diff) =>
          if diff <? best_diff
          then closest_loop_turns v rest (Some (rc, diff)) (S turns)
          else closest_loop_turns v rest best (S turns)
      end
  end.

Definition find_closest_prefix_suffix_turns (v : Z) (rcs : list real_cov)
  (turns : nat) : string * string * nat :=
  let '(best, turns) := closest_loop_turns v rcs None turns in
  (match best with
   | Some (b, _) => (rc_prefix b, rc_suffix b)
   | None => ("???_", ".xxx")
   end, turns).

(** [for mi in seg["missing_items"]] *)
Fixpoint fill_items_turns (rcs : list real_cov) (mis : list missing_item)
  (turns : nat) : list missing_item * nat :=
  match mis with
  | [] => ([], turns)
  | mi :: rest =>
      let '(near, turns) :=
        find_closest_prefix_suffix_turns (val mi) rcs (S turns) in
      let '(rest', turns) := fill_items_turns rcs rest turns in
      (mk_missing (val mi) (padded mi) (fst near) (snd near) (reason mi)
         :: rest', turns)
  end.

(** [for seg in segments] *)
Fixpoint fill_segments_turns (rcs : list real_cov) (segs : list segment)
  (turns : nat) : list segment * nat :=
  match segs with
  | [] => ([], turns)
  | seg :: rest =>
      let '(items, turns) :=
        fill_items_turns rcs (missing_items seg) (S turns) in
      let '(rest', turns) := fill_segments_turns rcs rest turns in
      (mk_segment (start_val seg) (end_val seg) (count seg)
                  (boundary_type seg) items :: rest', turns)
  end.

(** [for p in picks], with its inner [for v in coverage]. *)
Fixpoint scan_picks_turns (kind : artifact) (ps : list pick)
  (all_ints : IntSet.t) (rcs : list real_cov) (total_size real_count : Z)
  (turns : nat) : res (IntSet.t * list real_cov * Z * Z * nat) :=
  match ps with
  | [] => Ok (all_ints, rcs, total_size, real_count, turns)
  | p :: rest =>
      let it := pick_item p in
      let cov := coverage p in
      let total_size' :=
        match kind with Files => total_size + size it | Dirs => total_size end in
      let real_count' :=
        match kind with Files => real_count + 1 | Dirs => real_count end in
      main_val <- Py.first cov ;;
      let ps_x := guess_prefix_suffix it main_val in
      scan_picks_turns kind rest
        (fold_left (fun s v => IntSet.add v s) cov all_ints)
        (rcs ++ map (fun v => mk_real v (fst ps_x) (snd ps_x) (is_dir it) (size it)) cov)
        total_size' real_count'
        (S turns + List.length cov)
  end.

Section SegmentTurns.

Variable btype : boundary.
Variable explain_on : bool.
Variable modulus : option Z.
Variable inc : Z.

(** [while v <= ed] *)
Fixpoint missing_loop_turns (fuel : nat) (pad_len v ed : Z)
  (items : list missing_item) (turns : nat)
  : res (list missing_item * nat) :=
  if v <=? ed then
    match fuel with
    | O => Err OutOfFuel
    | S fuel' =>
        missing_loop_turns fuel' pad_len (v + inc) ed
          (items ++ [missing_at btype explain_on modulus pad_len v]) (S turns)
    end
  else Ok (items, turns).

Definition build_missing_segment_turns (fuel : nat) (st ed : Z) (turns : nat)
  : res (segment * nat) :=
  if ed <? st then Ok (mk_segment st ed 0 btype [], turns)
  else
    let pad_len := Py.len (Py.str ed) in
    r <- missing_loop_turns fuel pad_len st ed [] turns ;;
    let '(items, turns) := r in
    Ok (mk_segment st ed (Z.of_nat (List.length items)) btype items, turns).

End SegmentTurns.

Section DetectTurns.

Variable start_opt end_opt modulus : option Z.
Variable inc : Z.
Variable explain_on : bool.
Variable fuel : nat.

Definition leading_part_turns (seq_start actual_min : Z)
  (segs : list segment) (turns : nat) : res (list segment * nat) :=
  if seq_start <? actual_min then
    r <- build_missing_segment_turns Leading explain_on modulus inc fuel
           seq_start (actual_min - inc) turns ;;
    let '(seg, turns) := r in
    Ok (append_if_counted segs seg, turns)
  else Ok (segs, turns).

(** [for i in range(len(sorted_ints) - 1)] *)
Fixpoint internal_loop_turns (sorted_ints : list Z) (indices : list nat)
  (segs : list segment) (turns : nat) : res (list segment * nat) :=
  match indices with
  | [] => Ok (segs, turns)
  | i :: rest =>
      let cval := nth i sorted_ints 0 in
      let nval := nth (S i) sorted_ints 0 in
      if nval - cval >? inc then
        r <- build_missing_segment_turns Internal explain_on modulus inc fuel
               (cval + inc) (nval - 1) (S turns) ;;
        let '(seg, turns) := r in
        internal_loop_turns sorted_ints rest (append_if_counted segs seg) turns
      else internal_loop_turns sorted_ints rest segs (S turns)
  end.

Definition trailing_part_turns (seq_end actual_max : Z)
  (segs : list segment) (turns : nat) : res (list segment * nat) :=
  if seq_end >? actual_max then
    r <- build_missing_segment_turns Trailing explain_on modulus inc fuel
           (actual_max + inc) seq_end turns ;;
    let '(seg, turns) := r in
    Ok (append_if_counted segs seg, turns)
  else Ok (segs, turns).

Definition detect_breaks_in_group_turns (g : group)
  : res (group_result * nat) :=
  match picks g with
  | [] => Ok (empty_result g, O)
  | _ =>
      st <- scan_picks_turns (artifact_type g) (picks g) IntSet.empty [] 0 0 O ;;
      let '(all_ints, real_cov_items, total_size, real_count, turns) := st in
      let sorted_ints := IntSet.sorted all_ints in
      match sorted_ints with
      | [] => Ok (empty_result g, turns)
      | actual_min :: _ =>
          let actual_max := last sorted_ints 0 in
          let seq_start := sequence_start start_opt modulus actual_min in
          let seq_end := sequence_end end_opt modulus actual_max in
          r <- leading_part_turns seq_start actual_min [] turns ;;
          let '(segs, turns) := r in
          r <- internal_loop_turns sorted_ints
                 (seq 0 (List.length sorted_ints - 1)) segs turns ;;
          let '(segs, turns) := r in
          r <- trailing_part_turns seq_end actual_max segs turns ;;
          let '(segs, turns) := r in
          let total_missing := fold_left Z.add (map count segs) 0 in
          let approx_bytes :=
            match artifact_type g with
            | Files =>
                if real_count >? 0
                then (inject_Z total_size / inject_Z real_count
                      * inject_Z total_missing)%Q
                else 0%Q
            | Dirs => 0%Q
            end in
          let '(filled, turns) :=
            fill_segments_turns real_cov_items segs turns in
          Ok (mk_result g filled
                (mk_stats total_missing
                   (match artifact_type g with
                    | Files => real_count
                    | Dirs => Z.of_nat (List.length sorted_ints)
                    end)
                   (Z.of_nat (List.length segs))
                   approx_bytes),
              turns)
      end
  end.

End DetectTurns.

(** ** The run *)

Inductive check_mode : Type :=
| CheckFiles
| CheckDirs
| CheckBoth.

(** [reconstruct(mi, "filename")] *)
Definition reconstruct_filename (mi : missing_item) : string :=
  (prefix mi ++ padded mi ++ suffix mi)%string.

Section Main.

Variable a : args.
Variable fuel : nat.

Definition detect_all (gs : list group) : res (list group_result) :=
  mapM (detect_breaks_in_group (start_num a) (end_num a) (mod_boundary a)
          (increment a) (explain a) fuel) gs.

(** The first step of [main]: [cf] and [cd] are what [collect_files] and
    [collect_dirs] return. *)
Definition gather (check : check_mode) (cf cd : collection)
  : res (list group_result) :=
  file_groups <-
    match check with
    | CheckFiles | CheckBoth =>
        gf <- group_items a Files cf ;; detect_all gf
    | CheckDirs => Ok []
    end ;;
  dir_groups <-
    match check with
    | CheckDirs | CheckBoth =>
        gd <- group_items a Dirs cd ;; detect_all gd
    | CheckFiles => Ok []
    end ;;
  Ok (file_groups ++ dir_groups).

End Main.

(** ** The report *)

(** The part of the Python runtime used by the text of the report. *)
Module PyText.

Definition quote : ascii := ascii_of_nat 34.

Definition carriage_return : ascii := ascii_of_nat 13.

(** [s.replace(QUOTE, QUOTE QUOTE)] *)
Fixpoint double_quotes (s : string) : string :=
  match s with
  | String c s' =>
      if Ascii.eqb c quote
      then String quote (String quote (double_quotes s'))
      else String c (double_quotes s')
  | EmptyString => s
  end.

(** [c in s], for a one-character string [c] *)
Fixpoint has_char (c : ascii) (s : string) : bool :=
  match s with
  | String d s' => (Ascii.eqb c d || has_char c s')%bool
  | EmptyString => false
  end.

(** [sep.join(l)] *)
Fixpoint join (sep : string) (l : list string) : string :=
  match l with
  | [] => ""
  | x :: l' =>
      match l' with
      | [] => x
      | _ :: _ => (x ++ sep ++ join sep l')%string
      end
  end.

(** [s.split("; ")]: [acc] holds the current part, reversed. *)
Fixpoint split_semicolon (acc s : string) : list string :=
  match s with
  | EmptyString => [Py.rev_string "" acc]
  | String c rest =>
      if Ascii.eqb c ";" then
        match rest with
        | String d rest' =>
            if Ascii.eqb d " "
            then Py.rev_string "" acc :: split_semicolon "" rest'
            else split_semicolon (String c acc) rest
        | EmptyString => split_semicolon (String c acc) rest
        end
      else split_semicolon (String c acc) rest
  end.

(** [l[-1]] *)
Definition last {A : Type} (l : list A) : res A :=
  match rev l with
  | [] => Err IndexError
  | x :: _ => Ok x
  end.

(** [s[-3:]] *)
Definition last3 (s : string) : string :=
  Py.drop (String.length s - 3) s.

(** [str(o)] for a string or [None] *)
Definition str_opt (o : option string) : string :=
  match o with
  | Some s => s
  | None => "None"
  end.

End PyText.

(** The options of [argparse] read by the formatting functions, beside
    [explain]. *)
Record report_args : Type := mk_report {
  show : string;
  range_mode : string;
  range_fmt : string;
  show_stats : bool;
  show_empty : bool;
  verbose : bool
}.

(** The strings ["files"] and ["dirs"] that [main] passes to
    [group_items]. *)
Definition artifact_name (k : artifact) : string :=
  match k with
  | Files => "files"
  | Dirs => "dirs"
  end.

Definition reconstruct (mi : missing_item) (show_mode : string) : string :=
  if String.eqb show_mode "filename"
  then (prefix mi ++ padded mi ++ suffix mi)%string
  else if String.eqb show_mode "padded" then padded mi
  else if String.eqb show_mode "number" then Py.str (val mi)
  else if String.eqb show_mode "significant" then PyText.last3 (padded mi)
  else (prefix mi ++ padded mi ++ suffix mi)%string.

Definition csv_escape (s : string) : string :=
  let s := PyText.double_quotes s in
  if (PyText.has_char "," s || PyText.has_char PyText.quote s
      || PyText.has_char Py.newline s
      || PyText.has_char PyText.carriage_return s)%bool
  then String PyText.quote (s ++ String PyText.quote "")
  else s.

(** [f" ({mi['reason']})" if explain else ""] *)
Definition reason_str (explain_on : bool) (mi : missing_item) : string :=
  if explain_on then (" (" ++ reason mi ++ ")")%string else "".

Definition build_segment_text (sg : segment) (show_mode range_md : string)
  (kind : artifact) (explain_on : bool) : res string :=
  let c := count sg in
  if c =? 0 then Ok ""
  else
    let mis := missing_items sg in
    if String.eqb range_md "all" then
      Ok (PyText.join "; "
            (map (fun mi => (reconstruct mi show_mode
                             ++ reason_str explain_on mi)%string) mis))
    else if c =? 1 then
      mi <- Py.first mis ;;
      Ok (reconstruct mi show_mode ++ " (" ++ Py.str c ++ ")"
          ++ reason_str explain_on mi)%string
    else
      fmi <- Py.first mis ;;
      lmi <- PyText.last mis ;;
      Ok (reconstruct fmi show_mode ++ ".." ++ reconstruct lmi show_mode
          ++ " (" ++ Py.str c ++ ")" ++ reason_str explain_on fmi)%string.

Section Report.

(** [f"{x:.2f}"], the rounding of a float to two decimals. *)
Variable fmt_2f : Q -> string.

Variable a : args.
Variable o : report_args.

(** [if not segs and not args.show_empty: continue] *)
Definition hidden (br : group_result) : bool :=
  match segments br with
  | [] => negb (show_empty o)
  | _ :: _ => false
  end.

(** [x / (1024 * 1024)] *)
Definition megabytes (x : Q) : Q := (x / inject_Z (1024 * 1024))%Q.

(** The loop of [global_stats_summary]; its state is [(group_count,
    total_missing, total_real, total_segments, total_bytes)]. *)
Fixpoint totals_loop (bres : list group_result)
  (st : Z * Z * Z * Z * Q) : Z * Z * Z * Z * Q :=
  match bres with
  | [] => st
  | br :: rest =>
      if hidden br then totals_loop rest st
      else
        let '(group_count, total_missing, total_real, total_segments,
              total_bytes) := st in
        let s := result_stats br in
        totals_loop rest
          (group_count + 1, total_missing + num_missing s,
           total_real + num_real s, total_segments + num_segments s,
           (total_bytes + approx_missing_bytes s)%Q)
  end.

Definition global_stats_summary (bres : list group_result) : string :=
  let '(group_count, total_missing, total_real, total_segments, total_bytes) :=
    totals_loop bres (0, 0, 0, 0, 0%Q) in
  ("STATS => groups:" ++ Py.str group_count
   ++ ", segments:" ++ Py.str total_segments
   ++ ", found:" ++ Py.str total_real
   ++ ", missing:" ++ Py.str total_missing
   ++ ", ~" ++ fmt_2f (megabytes total_bytes) ++ "MB missing")%string.

(** The loop over the segments of a group in [format_inline] and
    [format_summary]; [i] is the index of [enumerate]. *)
Fixpoint segment_lines (kind : artifact) (i : nat) (segs : list segment)
  (lines : list string) : res (list string) :=
  match segs with
  | [] => Ok lines
  | s :: rest =>
      if count s =? 0 then segment_lines kind (S i) rest lines
      else
        let lines :=
          if (Nat.ltb 0 i && String.eqb (range_fmt o) "spacing")%bool
          then lines ++ [""] else lines in
        segtxt <- build_segment_text s (show o) (range_mode o) kind
                    (explain a) ;;
        segment_lines kind (S i) rest
          (lines ++ map (fun linepart => ("  " ++ linepart)%string)
                        (PyText.split_semicolon "" segtxt))
  end.

Definition group_line (gcount : Z) (grp : group) : string :=
  ("Grp #" ++ Py.str gcount ++ ": " ++ label grp
   ++ " (dir:" ++ PyText.str_opt (directory grp) ++ ")")%string.

Definition debug_line (st : stats) : string :=
  ("  [dbg] found=" ++ Py.str (num_real st)
   ++ " missing=" ++ Py.str (num_missing st)
   ++ " ~" ++ fmt_2f (megabytes (approx_missing_bytes st))
   ++ "MB missing")%string.

(** The loop of [format_inline]; its state is [(lines, gcount)]. *)
Fixpoint inline_loop (bres : list group_result) (lines : list string)
  (gcount : Z) : res (list string) :=
  match bres with
  | [] => Ok lines
  | br :: rest =>
      let segs := segments br in
      let grp := group_info br in
      if hidden br then inline_loop rest lines gcount
      else
        let lines := lines ++ [group_line gcount grp] in
        let gcount := gcount + 1 in
        match segs with
        | [] => inline_loop rest (lines ++ ["  No missing segments."]) gcount
        | _ :: _ =>
            lines <- segment_lines (artifact_type grp) 0 segs lines ;;
            inline_loop rest
              (if verbose o then lines ++ [debug_line (result_stats br)]
               else lines)
              gcount
        end
  end.

(** [if args.stats: lines.append(""); lines.append(...)] *)
Definition stats_lines (bres : list group_result) (lines : list string)
  : list string :=
  if show_stats o then lines ++ [""; global_stats_summary bres] else lines.

Definition inline_lines (bres : list group_result) : res (list string) :=
  lines <- inline_loop bres [] 1 ;;
  Ok (stats_lines bres lines).

Definition format_inline (bres : list group_result) : res string :=
  lines <- inline_lines bres ;;
  Ok (PyText.join (String Py.newline "") lines).

(** The loop of [format_summary]. *)
Fixpoint summary_loop (bres : list group_result) (lines : list string)
  (gcount : Z) : res (list string) :=
  match bres with
  | [] => Ok lines
  | br :: rest =>
      let segs := segments br in
      let grp := group_info br in
      if hidden br then summary_loop rest lines gcount
      else
        let lines := lines ++ [(group_line gcount grp ++ " {")%string] in
        let gcount := gcount + 1 in
        match segs with
        | [] =>
            summary_loop rest (lines ++ ["  No missing segments."; "}"]) gcount
        | _ :: _ =>
            lines <- segment_lines (artifact_type grp) 0 segs lines ;;
            let lines := lines ++ ["}"] in
            summary_loop rest
              (if verbose o then lines ++ [debug_line (result_stats br)]
               else lines)
              gcount
        end
  end.

Definition summary_lines (bres : list group_result) : res (list string) :=
  lines <- summary_loop bres [] 1 ;;
  Ok (stats_lines bres lines).

Definition format_summary (bres : list group_result) : res string :=
  lines <- summary_lines bres ;;
  Ok (PyText.join (String Py.newline "") lines).

(** [",".join(csv_escape(x) for x in row)] *)
Definition csv_row (row : list string) : string :=
  PyText.join "," (map csv_escape row).

(** [mi["reason"] if args.explain else ""] *)
Definition csv_reason (mi : missing_item) : string :=
  if explain a then reason mi else "".

(** The loop over the segments of a group in [format_csv]. *)
Fixpoint csv_segments (group_id dir_ atype : string) (segs : list segment)
  (lines : list string) : res (list string) :=
  match segs with
  | [] => Ok lines
  | s :: rest =>
      if count s =? 0 then csv_segments group_id dir_ atype rest lines
      else if String.eqb (range_mode o) "all" then
        csv_segments group_id dir_ atype rest
          (lines ++ map (fun mi =>
                           csv_row [group_id; dir_; atype; Py.str (val mi);
                                    reconstruct mi (show o); csv_reason mi])
                        (missing_items s))
      else
        let c := count s in
        let mis := missing_items s in
        if c =? 1 then
          mi <- Py.first mis ;;
          csv_segments group_id dir_ atype rest
            (lines ++ [csv_row [group_id; dir_; atype; Py.str (val mi);
                                reconstruct mi (show o); csv_reason mi]])
        else
          fmi <- Py.first mis ;;
          lmi <- PyText.last mis ;;
          let rng_label :=
            (reconstruct fmi (show o) ++ ".." ++ reconstruct lmi (show o)
             ++ " (" ++ Py.str c ++ " " ++ atype ++ ")")%string in
          csv_segments group_id dir_ atype rest
            (lines ++ [csv_row [group_id; dir_; atype;
                                (Py.str (val fmi) ++ ".."
                                 ++ Py.str (val lmi))%string;
                                rng_label; csv_reason fmi]])
  end.

Definition csv_header : list string :=
  ["group_id"; "directory"; "artifact_type"; "missing_val"; "missing_label";
   "reason"].

(** The loop of [format_csv]; its state is [(lines, gcount)]. *)
Fixpoint csv_loop (bres : list group_result) (lines : list string)
  (gcount : Z) : res (list string) :=
  match bres with
  | [] => Ok lines
  | br :: rest =>
      let segs := segments br in
      let grp := group_info br in
      if hidden br then csv_loop rest lines gcount
      else
        let group_id := ("group_" ++ Py.str gcount)%string in
        let gcount := gcount + 1 in
        let dir_ := PyText.str_opt (directory grp) in
        let atype := artifact_name (artifact_type grp) in
        match segs with
        | [] => csv_loop rest lines gcount
        | _ :: _ =>
            lines <- csv_segments group_id dir_ atype segs lines ;;
            csv_loop rest lines gcount
        end
  end.

Definition csv_lines (bres : list group_result) : res (list string) :=
  lines <- csv_loop bres [PyText.join "," csv_header] 1 ;;
  Ok (if show_stats o
      then lines ++ [("# " ++ global_stats_summary bres)%string]
      else lines).

Definition format_csv (bres : list group_result) : res string :=
  lines <- csv_lines bres ;;
  Ok (PyText.join (String Py.newline "") lines).

End Report.

(** * Vocabulary of the statements *)

Fixpoint all_digits (s : string) : bool :=
  match s with
  | EmptyString => true
  | String c s' => Py.is_digit c && all_digits s'
  end.

(** A non-empty string of digits: what [\d+] matches. *)
Definition is_numeral (s : string) : bool :=
  match s with
  | EmptyString => false
  | _ => all_digits s
  end.

(** The integers of the digit runs of a name. *)
Definition block_values (nm : string) : list Z :=
  map (Py.digits_val 0) (Py.findall_digits nm).

(** The scanner of the default range pattern captures numerals only. *)
Definition scan_state_ok (st : Py.scan_state) : Prop :=
  match st with
  | Py.Idle => True
  | Py.InFirst r1 | Py.AfterDash r1 => is_numeral r1 = true
  | Py.InSecond r1 r2 => is_numeral r1 = true /\ is_numeral r2 = true
  end.

Inductive ascending : list Z -> Prop :=
| asc_nil : ascending []
| asc_one x : ascending [x]
| asc_cons x y l : x < y -> ascending (y :: l) -> ascending (x :: y :: l).

#[local] Hint Constructors ascending : core.

(** The captured text is an integer literal for [int]. *)
Definition parses (g : string) : Prop := exists z, Py.int g = Ok z.

(** Every tuple that the pattern finds in [nm] starts with two integers. *)
Definition numeric_matches (rx : Py.pattern) (nm : string) : Prop :=
  forall g0 g1 rest,
    In (Py.Groups (g0 :: g1 :: rest)) (rx nm) -> parses g0 /\ parses g1.

(** The match [m] captures two integers whose ordered pair encloses [v]. *)
Definition contributes (m : Py.found) (v : Z) : Prop :=
  exists g0 g1 rest a b,
    m = Py.Groups (g0 :: g1 :: rest) /\
    Py.int g0 = Ok a /\ Py.int g1 = Ok b /\
    Z.min a b <= v <= Z.max a b.

(** The item of the range scenario. *)
Definition archive_item : item :=
  mk_item "/data/archive_100-103.zip" "archive_100-103.zip" 4096 false.

(** The pattern captures at least two numeric groups in every match. *)
Definition captures_two_numeric_groups (rx : Py.pattern) : Prop :=
  forall nm m, In m (rx nm) ->
    exists g0 g1 rest, m = Py.Groups (g0 :: g1 :: rest) /\ parses g0 /\ parses g1.

(** The options of a run with defaults everywhere but the range pattern. *)
Definition args_with_pattern (rx : Py.pattern) : args :=
  mk_args None None None false MultiBlockAdvanced true rx None None None 1 false.

(** ** Vocabulary of gap detection *)

(** The number of the values [st], [st + inc], ... that do not exceed
    [ed], and these values. *)
Definition run_length (inc st ed : Z) : nat := Z.to_nat ((ed - st) / inc + 1).

Definition run_values (inc st ed : Z) : list Z :=
  map (fun i => st + inc * Z.of_nat i) (seq 0 (run_length inc st ed)).

(** The segment of the missing values of the run from [st] to [ed]. *)
Definition pure_segment (b : boundary) (ex : bool) (m : option Z) (inc st ed : Z)
  : segment :=
  mk_segment st ed (Z.of_nat (run_length inc st ed)) b
    (map (missing_at b ex m (Py.len (Py.str ed))) (run_values inc st ed)).

(** A missing run of the specification: its kind and its two bounds. *)
Definition run : Type := (boundary * Z * Z)%type.

Definition run_of (s : segment) : run :=
  (boundary_type s, start_val s, end_val s).

Definition nonempty_run (r : run) : bool := snd (fst r) <=? snd r.

(** The adjacent pairs [(cur, next)] of a list of observed values. *)
Fixpoint adjacent_pairs (V : list Z) : list (Z * Z) :=
  match V with
  | cur :: (next :: _) as rest => (cur, next) :: adjacent_pairs rest
  | _ => []
  end.

(** The internal runs: [cur + inc .. next - 1] for the adjacent pairs
    with [next - cur > inc]. *)
Definition internal_runs (inc : Z) (V : list Z) : list run :=
  flat_map (fun cn => if snd cn - fst cn >? inc
                      then [(Internal, fst cn + inc, snd cn - 1)]
                      else [])
           (adjacent_pairs V).

(** The runs that the specification expects for the observed values [V]
    and the expected bounds [st] and [en]; a run whose end is below its
    start is discarded. *)
Definition expected_runs (inc st en : Z) (V : list Z) : list run :=
  match V with
  | [] => []
  | actual_min :: _ =>
      let actual_max := last V 0 in
      filter nonempty_run
        ((if st <? actual_min then [(Leading, st, actual_min - inc)] else [])
         ++ internal_runs inc V
         ++ (if en >? actual_max then [(Trailing, actual_max + inc, en)] else []))
  end.

(** The expected start: the explicit start, else the observed minimum,
    rounded down to a multiple of the modulus when there is one. *)
Definition expected_start (s m : option Z) (actual_min st : Z) : Prop :=
  match s, m with
  | Some x, _ => st = x
  | None, Some k => (k | st) /\ st <= actual_min < st + k
  | None, None => st = actual_min
  end.

(** The expected end: the explicit end, else the observed maximum, rounded
    up to one less than the next multiple of the modulus. *)
Definition expected_end (e m : option Z) (actual_max en : Z) : Prop :=
  match e, m with
  | Some x, _ => en = x
  | None, Some k => (k | en + 1) /\ actual_max < en + 1 <= actual_max + k
  | None, None => en = actual_max
  end.

(** [V] is the set of the values observed in the picks [ps]. *)
Definition observed (ps : list pick) (V : list Z) : Prop :=
  ascending V /\
  forall v, In v V <-> exists p, In p ps /\ In v (coverage p).

(** The coverage set of every pick is non-empty, as the extractor
    guarantees. *)
Definition covered (ps : list pick) : Prop :=
  Forall (fun p => coverage p <> []) ps.

(** The real coverage values of a group with their prefix and suffix, in
    the order in which they are seen. *)
Definition real_cov_of_pick (p : pick) : list real_cov :=
  match coverage p with
  | [] => []
  | main_val :: _ =>
      let ps_x := guess_prefix_suffix (pick_item p) main_val in
      map (fun v => mk_real v (fst ps_x) (snd ps_x)
                      (is_dir (pick_item p)) (size (pick_item p)))
          (coverage p)
  end.

Definition real_cov_of_picks (ps : list pick) : list real_cov :=
  flat_map real_cov_of_pick ps.

(** The segments of a group before the empty ones are dropped. *)
Definition candidate_segments (ex : bool) (m : option Z)
  (inc seq_start seq_end : Z) (V : list Z) : list segment :=
  match V with
  | [] => []
  | actual_min :: _ =>
      let actual_max := last V 0 in
      (if seq_start <? actual_min
       then [pure_segment Leading ex m inc seq_start (actual_min - inc)]
       else [])
      ++ flat_map (fun cn => if snd cn - fst cn >? inc
                             then [pure_segment Internal ex m inc
                                     (fst cn + inc) (snd cn - 1)]
                             else [])
                  (adjacent_pairs V)
      ++ (if seq_end >? actual_max
          then [pure_segment Trailing ex m inc (actual_max + inc) seq_end]
          else [])
  end.

Definition counted (s : segment) : bool := count s >? 0.

(** The segments of the result of detection, before the prefixes and
    suffixes are filled in. *)
Definition group_segments (s e m : option Z) (inc : Z) (ex : bool) (V : list Z)
  : list segment :=
  match V with
  | [] => []
  | actual_min :: _ =>
      filter counted
        (candidate_segments ex m inc
           (sequence_start s m actual_min) (sequence_end e m (last V 0)) V)
  end.

(** The turns of the [while] loop that a list of segments costs. *)
Definition enough_fuel (fuel : nat) (segs : list segment) : Prop :=
  Forall (fun sg => (Z.to_nat (count sg) <= fuel)%nat) segs.

(** The group of the boundary scenario: the observed values 105 and 110. *)
Definition boundary_group : group :=
  mk_group "/scans__group0" (Some "/scans") "scan_" Files
    [mk_pick (mk_item "/scans/scan_105.tif" "scan_105.tif" 2048 false) [105];
     mk_pick (mk_item "/scans/scan_110.tif" "scan_110.tif" 2048 false) [110]].

(** A contiguous group: the values 1 to 10. *)
Definition contiguous_group : group :=
  mk_group "/frames__group0" (Some "/frames") "f" Files
    (map (fun v => mk_pick (mk_item "" ("f" ++ Py.str v)%string 1 false) [v])
         (Py.range 1 11)).

(** [rc], at the index [i] of [rcs], is a real coverage value nearest to
    [v], and the first such one. *)
Definition nearest_first (v : Z) (rcs : list real_cov) (i : nat) (rc : real_cov)
  : Prop :=
  nth_error rcs i = Some rc /\
  (forall rc', In rc' rcs -> Z.abs (rc_val rc - v) <= Z.abs (rc_val rc' - v)) /\
  (forall j rc', (j < i)%nat -> nth_error rcs j = Some rc' ->
     Z.abs (rc_val rc - v) < Z.abs (rc_val rc' - v)).

(** The directory of the reconstruction scenario. *)
Definition image_files : collection :=
  [("/imgs",
    [mk_item "/imgs/img_001.png" "img_001.png" 100 false;
     mk_item "/imgs/img_002.png" "img_002.png" 100 false;
     mk_item "/imgs/img_005.png" "img_005.png" 100 false])].

(** The options of the reconstruction scenario: the policy [first], the
    increment 1, defaults elsewhere. *)
Definition first_policy_args : args :=
  mk_args None None None false First false Py.default_range_regex
          None None None 1 false.

(** ** Vocabulary of grouping *)

(** The representative value of a coverage set, its least element. *)
Definition rep (cov : list Z) : Z := hd 0 cov.

Definition pick_rep (p : pick) : Z := rep (coverage p).

Definition flat_rep (x : flat_pick) : Z := rep (snd x).

(** The order (representative value, name) of the picks of a group. *)
Definition key_le (k1 k2 : Py.key) : Prop :=
  fst k1 < fst k2 \/ (fst k1 = fst k2 /\ String.leb (snd k1) (snd k2) = true).

Definition pick_le (p q : pick) : Prop :=
  key_le (pick_rep p, name (pick_item p)) (pick_rep q, name (pick_item q)).

Definition flat_le (x y : flat_pick) : Prop :=
  key_le (flat_rep x, name (snd (fst x))) (flat_rep y, name (snd (fst y))).

(** The pairs of successive elements of a list. *)
Fixpoint neighbours {A : Type} (l : list A) : list (A * A) :=
  match l with
  | x :: (y :: _) as rest => (x, y) :: neighbours rest
  | _ => []
  end.

(** The consecutive runs of a list, cut between two successive elements
    [x], [y] for which [cut x y] holds. *)
Fixpoint split_where {A : Type} (cut : A -> A -> bool) (l : list A)
  : list (list A) :=
  match l with
  | [] => []
  | x :: rest =>
      match rest with
      | [] => [[x]]
      | y :: _ =>
          if cut x y
          then [x] :: split_where cut rest
          else match split_where cut rest with
               | run :: runs => (x :: run) :: runs
               | [] => [[x]]
               end
      end
  end.

(** The runs cut where the representative value grows by more than [t]. *)
Definition split_at_gaps {A : Type} (value : A -> Z) (t : Z) (l : list A)
  : list (list A) :=
  split_where (fun x y => value y - value x >? t) l.

(** The coverage set of every flat pick is non-empty. *)
Definition flat_covered (flat : list flat_pick) : Prop :=
  Forall (fun x => snd x <> []) flat.

(** The options of the threshold scenario. *)
Definition threshold_args (t : option Z) : args :=
  mk_args None None t false First false Py.default_range_regex
          None None None 1 false.

(** A directory whose representative values are 1, 2, 50, 51. *)
Definition takes_files : collection :=
  [("/takes",
    [mk_item "/takes/take_50.wav" "take_50.wav" 10 false;
     mk_item "/takes/take_1.wav" "take_1.wav" 10 false;
     mk_item "/takes/take_51.wav" "take_51.wav" 10 false;
     mk_item "/takes/take_2.wav" "take_2.wav" 10 false])].

(** The picks of a directory, before they are sorted. *)
Definition picks_of_items (a : args) (items : list item) : res (list pick) :=
  l <- coverages_of_items a items ;;
  Ok (map (fun ic => mk_pick (fst ic) (snd ic)) l).

(** The directory has at least one pick. *)
Definition has_picks (a : args) (d : string * list item) : bool :=
  match picks_of_items a (snd d) with
  | Ok (_ :: _) => true
  | _ => false
  end.

(** [g] is the one group of the directory [d]: all its picks, sorted. *)
Definition group_of_directory (a : args) (g : group) (d : string * list item)
  : Prop :=
  directory g = Some (fst d) /\
  exists ps, picks_of_items a (snd d) = Ok ps /\
             Permutation ps (picks g) /\ Sorted pick_le (picks g).

(** Where cross-directory grouping cuts: the threshold must be set and
    not zero. *)
Definition flat_cut (threshold : option Z) (x y : flat_pick) : bool :=
  Py.truthy threshold
  && match threshold with
     | Some t => flat_rep y - flat_rep x >? t
     | None => false
     end.

(** The range pattern cannot make extraction raise. *)
Definition extraction_safe (a : args) : Prop :=
  multi_range a = false \/ forall nm, numeric_matches (range_regex a) nm.

(** ** Vocabulary of the run *)

(** The configurations that the specification calls invalid. *)
Definition invalid_configuration (a : args) : Prop :=
  increment a <= 0 \/
  (exists k, mod_boundary a = Some k /\ k <= 0) \/
  (exists s e, start_num a = Some s /\ end_num a = Some e /\ s > e).

(** The call raises no exception: it returns, or the fuel of the
    generation loop is exhausted. *)
Definition no_exception {A : Type} (x : res A) : Prop :=
  match x with
  | Ok _ => True
  | Err OutOfFuel => True
  | Err _ => False
  end.

(** The groups that the run hands to gap detection, files first. *)
Definition groups_of_run (a : args) (check : check_mode) (cf cd : collection)
  : res (list group) :=
  gf <- match check with
        | CheckFiles | CheckBoth => group_items a Files cf
        | CheckDirs => Ok []
        end ;;
  gd <- match check with
        | CheckDirs | CheckBoth => group_items a Dirs cd
        | CheckFiles => Ok []
        end ;;
  Ok (gf ++ gd).

(** The missing values reported by a list of results. *)
Definition missing_total (rs : list group_result) : Z :=
  fold_left Z.add (map (fun r => num_missing (result_stats r)) rs) 0.

Definition with_increment (inc : Z) : args :=
  mk_args None None None false First false Py.default_range_regex
          None None None inc false.

Definition with_modulus (k : Z) : args :=
  mk_args None None None false First false Py.default_range_regex
          None None (Some k) 1 false.

Definition with_bounds (s e : Z) : args :=
  mk_args None None None false First false Py.default_range_regex
          (Some s) (Some e) None 1 false.

Definition one_file : collection :=
  [("/d", [mk_item "/d/f7.txt" "f7.txt" 1 false])].

Definition scan_files : collection :=
  [("/scans",
    [mk_item "/scans/scan_105.tif" "scan_105.tif" 2048 false;
     mk_item "/scans/scan_110.tif" "scan_110.tif" 2048 false])].

Definition two_files : collection :=
  [("/d", [mk_item "/d/f1.txt" "f1.txt" 1 false;
           mk_item "/d/f3.txt" "f3.txt" 1 false])].

(** ** Vocabulary of the cost *)

(** The missing items of a list of segments. *)
Definition items_of (segs : list segment) : nat :=
  List.length (flat_map missing_items segs).

(** The coverage values of the picks, with repetitions, and the distinct
    ones. *)
Definition coverage_values (ps : list pick) : list Z :=
  List.concat (map coverage ps).

Definition distinct_values (ps : list pick) : list Z :=
  fold_left (fun s v => IntSet.add v s) (coverage_values ps) IntSet.empty.

(** The turns of the loops of gap detection for a group of P picks with
    R coverage values, V of them distinct, and a result of S segments
    with M missing items: P + R for the scan of the picks, V - 1 for the
    adjacent pairs, M for the generation of the items, S + M + M * R for
    the reconstruction of the prefixes and suffixes. *)
Definition detect_turns (g : group) (r : group_result) : nat :=
  match picks g with
  | [] => 0
  | _ :: _ =>
      (List.length (picks g) + List.length (coverage_values (picks g))
       + (List.length (distinct_values (picks g)) - 1)
       + items_of (segments r)
       + (List.length (segments r) + items_of (segments r)
          + items_of (segments r) * List.length (coverage_values (picks g))))%nat
  end.

(** A result with the turns that it took. *)
Definition with_turns (g : group) (x : res group_result)
  : res (group_result * nat) :=
  match x with
  | Ok r => Ok (r, detect_turns g r)
  | Err e => Err e
  end.

(** A group of [n] files "0", "00", "000", ...: the same value 0 under
    [n] names. *)
Definition zero_pick (k : nat) : pick :=
  mk_pick (mk_item "" (Py.zeros (S k)) 1 false) [0].

Definition zero_group (n : nat) : group :=
  mk_group "/z__group0" (Some "/z") no_numeric Files (map zero_pick (seq 0 n)).

(** The segment is the segment of a run. *)
Definition is_pure (m : option Z) (inc : Z) (ex : bool) (sg : segment) : Prop :=
  exists b st ed, sg = pure_segment b ex m inc st ed.

(** ** Vocabulary of the further properties *)

(** The name has a digit. *)
Fixpoint has_digit (s : string) : bool :=
  match s with
  | EmptyString => false
  | String c s' => Py.is_digit c || has_digit s'
  end.

(** The missing values of a result, segment after segment. *)
Definition missing_values (r : group_result) : list Z :=
  flat_map (fun sg => map val (missing_items sg)) (segments r).

(** The count of the segment is the number of its items, and is not 0. *)
Definition sound_count (sg : segment) : Prop :=
  count sg = Z.of_nat (List.length (missing_items sg)) /\ 0 < count sg.

(** The identifiers of the groups of a directory and of the pool. *)
Definition dir_id (dkey : string) (k : nat) : string :=
  (dkey ++ "__group" ++ Py.str (Z.of_nat k))%string.

Definition pool_id (k : nat) : string :=
  ("crossdir_" ++ Py.str (Z.of_nat k))%string.

(** The identifiers of the groups are those of [idf], from 0 on. *)
Definition numbered (idf : nat -> string) (groups : list group) : Prop :=
  map group_id groups = map idf (seq 0 (List.length groups)).

(** [sub] occurs in [s] at index [j]: [s[j:].startswith(sub)]. *)
Definition occurs_at (sub s : string) (j : nat) : bool :=
  String.prefix sub (Py.drop j s).

(** The last character of [s] is a decimal digit. *)
Definition ends_with_digit (s : string) : bool :=
  match Py.rev_string "" s with
  | String c _ => Py.is_digit c
  | EmptyString => false
  end.

(** ** Vocabulary of the report *)

(** A reader of one CSV record: fields are separated by commas; a field
    that opens with a quote runs to its closing quote, and two quotes
    inside it stand for one. *)
Inductive csv_state : Type :=
| FieldStart
| InBare
| InQuoted
| AfterQuote.

(** [f] written before the first field of [fields]. *)
Definition prepend (f : string) (fields : list string) : list string :=
  match fields with
  | g :: rest => (f ++ g)%string :: rest
  | [] => [f]
  end.

Fixpoint csv_read (st : csv_state) (s : string) : list string :=
  match s with
  | EmptyString => [""]
  | String c s' =>
      match st with
      | FieldStart =>
          if Ascii.eqb c PyText.quote then csv_read InQuoted s'
          else if Ascii.eqb c "," then "" :: csv_read FieldStart s'
          else prepend (String c "") (csv_read InBare s')
      | InBare =>
          if Ascii.eqb c "," then "" :: csv_read FieldStart s'
          else prepend (String c "") (csv_read InBare s')
      | InQuoted =>
          if Ascii.eqb c PyText.quote then csv_read AfterQuote s'
          else prepend (String c "") (csv_read InQuoted s')
      | AfterQuote =>
          if Ascii.eqb c PyText.quote
          then prepend (String c "") (csv_read InQuoted s')
          else if Ascii.eqb c "," then "" :: csv_read FieldStart s'
          else prepend (String c "") (csv_read InBare s')
      end
  end.

(** The group has at least one segment. *)
Definition has_segments (br : group_result) : bool :=
  match segments br with
  | [] => false
  | _ :: _ => true
  end.

(** Every segment of every result counts its missing items. *)
Definition sound_results (bres : list group_result) : Prop :=
  Forall (fun br => Forall sound_count (segments br)) bres.

(** The segments of the results that have at least one. *)
Definition all_segments (bres : list group_result) : list segment :=
  flat_map segments bres.

(** What follows a field: the end of the record or a comma. *)
Definition field_end (t : string) : Prop :=
  t = "" \/ exists r, t = String "," r.

(** The rows that a list of segments adds to the CSV report. *)
Definition segment_rows (o : report_args) (segs : list segment) : nat :=
  if String.eqb (range_mode o) "all"
  then List.length (flat_map missing_items segs)
  else List.length segs.

(** The statistics of a result agree with its segments. *)
Definition consistent_result (r : group_result) : Prop :=
  num_segments (result_stats r) = Z.of_nat (List.length (segments r)) /\
  num_missing (result_stats r)
  = Z.of_nat (List.length (flat_map missing_items (segments r))) /\
  Forall sound_count (segments r).

(** The format of a size below 0.005 MB, the case of the examples. *)
Definition small_2f : Q -> string := fun _ => "0.00".

(** The options of a CSV report that lists every missing item and ends
    with the statistics. *)
Definition listing_report : report_args :=
  mk_report "filename" "all" "nospace" true false false.

(** Two results: a group without a segment and a group that misses the
    values 3 and 4. *)
Definition sample_results : list group_result :=
  [mk_result (mk_group "/a__group0" (Some "/a") "a" Files []) []
             (mk_stats 0 2 0 0%Q);
   mk_result (mk_group "/b__group0" (Some "/b") "b" Files [])
             [mk_segment 3 4 2 Internal
                [mk_missing 3 "3" "b" ".x" "internal";
                 mk_missing 4 "4" "b" ".x" "internal"]]
             (mk_stats 2 2 1 0%Q)].

(** The line is a CSV record of six fields. *)
Definition six_fields (ln : string) : Prop :=
  List.length (csv_read FieldStart ln) = 6%nat.

(** * Properties *)

(** ** The runtime on examples *)

Example str_examples :
  Py.str 105 = "105" /\ Py.str 0 = "0" /\ Py.str (-7) = "-7".
Proof. repeat split; reflexivity. Qed.

Example zfill_examples :
  Py.zfill "7" 3 = "007" /\ Py.zfill "-7" 4 = "-007" /\ Py.zfill "1234" 2 = "1234".
Proof. repeat split; reflexivity. Qed.

Example find_examples :
  Py.find "1" "img_001.png" = Some 6%nat /\ Py.find "9" "img_001.png" = None.
Proof. repeat split; reflexivity. Qed.

Example int_examples :
  Py.int "001" = Ok 1 /\ Py.int " -1_0 " = Ok (-10) /\
  Py.int "a" = Err ValueError /\ Py.int "" = Err ValueError /\
  Py.int "1__0" = Err ValueError.
Proof. repeat split; reflexivity. Qed.

Example findall_examples :
  Py.findall_digits "archive_100-103.zip" = ["100"; "103"] /\
  Py.findall_digits "abc" = [] /\
  Py.default_range_regex "1-2-3_44-5a6-" = [Py.Groups ["1"; "2"]; Py.Groups ["44"; "5"]] /\
  Py.sub_trailing_digits "img_00" = "img_" /\
  Py.range 3 6 = [3; 4; 5].
Proof. repeat split; reflexivity. Qed.

Example guess_examples :
  guess_prefix_suffix (mk_item "" "img_001.png" 0 false) 1 = ("img_00", ".png") /\
  guess_prefix_suffix (mk_item "" "img.png" 0 false) 1 = ("???_", ".xxx") /\
  label_of "img_001.png" 1 = "img_".
Proof. repeat split; reflexivity. Qed.

(** [int] strips the white space of C and, above 127, the next line and
    the no-break space; it raises on the separators 28 to 31. *)
Example int_white_space :
  Py.int (String (ascii_of_nat 9) "7 ") = Ok 7 /\
  Py.int (String (ascii_of_nat 160) (String (ascii_of_nat 133) "7")) = Ok 7 /\
  Py.int (String (ascii_of_nat 28) "7") = Err ValueError /\
  Py.int (String "7" (String (ascii_of_nat 31) "")) = Err ValueError /\
  Py.int "+ 7" = Err ValueError /\
  Py.int "1_000" = Ok 1000 /\
  Py.int "-007" = Ok (-7).
Proof. repeat split. Qed.

(** ** The runtime: results *)

Lemma bind_ok {A B : Type} (m : res A) (k : A -> res B) (b : B) :
  bind m k = Ok b -> exists a, m = Ok a /\ k a = Ok b.
Proof.
  destruct m as [a|e]; simpl; intros H; [exists a; auto | discriminate].
Qed.

Lemma mapM_ok {A B : Type} (f : A -> res B) (g : A -> B) (l : list A) :
  (forall a, In a l -> f a = Ok (g a)) -> mapM f l = Ok (map g l).
Proof.
  induction l as [|a l IH]; intros H; simpl; [reflexivity|].
  rewrite (H a (or_introl eq_refl)); simpl.
  rewrite IH; [reflexivity|]. intros b Hb. apply H. now right.
Qed.

Lemma mapM_total {A B : Type} (f : A -> res B) (l : list A) :
  (forall a, In a l -> exists b, f a = Ok b) -> exists bs, mapM f l = Ok bs.
Proof.
  induction l as [|a l IH]; intros H; simpl; [now exists []|].
  destruct (H a (or_introl eq_refl)) as [b Hb]. rewrite Hb; simpl.
  destruct IH as [bs Hbs]; [intros x Hx; apply H; now right|].
  rewrite Hbs; simpl. now exists (b :: bs).
Qed.

(** ** The runtime: numerals *)

Lemma digit_not_space c : Py.is_digit c = true -> Py.is_space c = false.
Proof.
  unfold Py.is_digit, Py.is_space. intros H.
  apply andb_true_iff in H as [H1 H2].
  apply Nat.leb_le in H1. apply Nat.leb_le in H2.
  repeat (apply orb_false_iff; split).
  - apply Nat.eqb_neq. lia.
  - apply andb_false_iff. right. apply Nat.leb_gt. lia.
  - apply Nat.eqb_neq. lia.
  - apply Nat.eqb_neq. lia.
Qed.

Lemma digit_not_char c d :
  Py.is_digit c = true -> Py.is_digit d = false -> Ascii.eqb c d = false.
Proof.
  intros Hc Hd. destruct (Ascii.eqb c d) eqn:E; [|reflexivity].
  apply Ascii.eqb_eq in E. subst. congruence.
Qed.

Lemma rstrip_digits s : all_digits s = true -> Py.rstrip s = s.
Proof.
  induction s as [|c s IH]; simpl; intros H; [reflexivity|].
  apply andb_true_iff in H as [Hc Hs]. rewrite (IH Hs).
  destruct s; [now rewrite (digit_not_space c Hc)|reflexivity].
Qed.

Lemma literal_digits_numeral s : forall pd acc,
  all_digits s = true -> (s <> "" \/ pd = true) ->
  Py.literal_digits pd acc s = Some (Py.digits_val acc s).
Proof.
  induction s as [|c s IH]; simpl; intros pd acc H Hne.
  - destruct Hne as [Hne | ->]; [congruence|reflexivity].
  - apply andb_true_iff in H as [Hc Hs]. rewrite Hc. apply IH; auto.
Qed.

Lemma int_numeral s :
  is_numeral s = true -> Py.int s = Ok (Py.digits_val 0 s).
Proof.
  destruct s as [|c s]; [discriminate|]. intros H. simpl in H.
  pose proof H as H'. apply andb_true_iff in H' as [Hc Hs].
  unfold Py.int.
  assert (Hl : Py.lstrip (String c s) = String c s)
    by (simpl; now rewrite (digit_not_space c Hc)).
  rewrite Hl, (rstrip_digits (String c s) H).
  rewrite (digit_not_char c "-" Hc eq_refl), (digit_not_char c "+" Hc eq_refl).
  rewrite literal_digits_numeral; auto. left; discriminate.
Qed.

Lemma all_digits_app s c :
  all_digits s = true -> Py.is_digit c = true ->
  is_numeral (s ++ String c "") = true.
Proof.
  intros Hs Hc.
  assert (H : all_digits (s ++ String c "") = true).
  { induction s as [|d s IH]; simpl in *; [now rewrite Hc|].
    apply andb_true_iff in Hs as [Hd Hs]. rewrite Hd. simpl. auto. }
  destruct s; simpl in *; auto.
Qed.

Lemma numeral_digits s : is_numeral s = true -> all_digits s = true.
Proof. destruct s; [discriminate|auto]. Qed.

Lemma digit_runs_numerals s : forall cur,
  match cur with Some r => is_numeral r = true | None => True end ->
  Forall (fun r => is_numeral r = true) (Py.digit_runs_from cur s).
Proof.
  induction s as [|c s IH]; simpl; intros cur Hcur.
  - destruct cur; auto.
  - destruct (Py.is_digit c) eqn:Hc.
    + apply IH. destruct cur as [r|].
      * apply all_digits_app; auto using numeral_digits.
      * simpl. now rewrite Hc.
    + destruct cur; [constructor; auto|]; apply IH; exact I.
Qed.

Lemma findall_digits_numerals nm :
  Forall (fun r => is_numeral r = true) (Py.findall_digits nm).
Proof. apply digit_runs_numerals. exact I. Qed.

Lemma blocks_parse nm :
  mapM Py.int (Py.findall_digits nm) = Ok (block_values nm).
Proof.
  apply mapM_ok. intros r Hr. apply int_numeral.
  pose proof (findall_digits_numerals nm) as H.
  rewrite Forall_forall in H. auto.
Qed.

Lemma scan_ranges_numerals s : forall st,
  scan_state_ok st ->
  Forall (fun m => is_numeral (fst m) = true /\ is_numeral (snd m) = true)
         (Py.scan_ranges st s).
Proof.
  induction s as [|c s IH]; simpl; intros st Hst.
  - destruct st; simpl in *; auto.
  - destruct (Py.is_digit c) eqn:Hc.
    + destruct st; simpl in *; apply IH; simpl; auto.
      * now rewrite Hc.
      * apply all_digits_app; auto using numeral_digits.
      * split; [auto|now rewrite Hc].
      * destruct Hst; split; auto.
        apply all_digits_app; auto using numeral_digits.
    + destruct st; simpl in *.
      * apply IH; exact I.
      * destruct (Ascii.eqb c "-"); apply IH; simpl; auto.
      * apply IH; exact I.
      * constructor; [auto|apply IH; exact I].
Qed.

(** ** The runtime: sets of integers *)

Lemma in_add v x s : In x (IntSet.add v s) <-> x = v \/ In x s.
Proof.
  induction s as [|y s IH]; simpl.
  - intuition.
  - destruct (v <? y) eqn:E1; [simpl; intuition|].
    destruct (v =? y) eqn:E2.
    + apply Z.eqb_eq in E2; subst. simpl; intuition.
    + simpl. rewrite IH. intuition.
Qed.

Lemma ascending_add v s : ascending s -> ascending (IntSet.add v s).
Proof.
  induction 1 as [|x|x y l Hxy Hl IH]; simpl.
  - auto.
  - destruct (v <? x) eqn:E1; [apply Z.ltb_lt in E1; auto|].
    destruct (v =? x) eqn:E2; [auto|].
    apply Z.ltb_ge in E1. apply Z.eqb_neq in E2.
    constructor; [lia|auto].
  - destruct (v <? x) eqn:E1; [apply Z.ltb_lt in E1; auto|].
    destruct (v =? x) eqn:E2; [auto|].
    apply Z.ltb_ge in E1. apply Z.eqb_neq in E2.
    simpl in IH. destruct (v <? y) eqn:E3.
    + apply Z.ltb_lt in E3. constructor; [lia|auto].
    + destruct (v =? y) eqn:E4; constructor; auto.
Qed.

Lemma in_add_all l : forall s x,
  In x (fold_left (fun c v => IntSet.add v c) l s) <-> In x l \/ In x s.
Proof.
  induction l as [|v l IH]; simpl; intros s x; [intuition|].
  rewrite IH, in_add. intuition.
Qed.

Lemma ascending_add_all l : forall s,
  ascending s -> ascending (fold_left (fun c v => IntSet.add v c) l s).
Proof.
  induction l as [|v l IH]; simpl; intros s H; auto using ascending_add.
Qed.

Lemma ascending_head_least x l :
  ascending (x :: l) -> forall y, In y l -> x < y.
Proof.
  revert x. induction l as [|z l IH]; intros x H y Hy; [destruct Hy|].
  inversion H; subst. destruct Hy as [->|Hy]; [assumption|].
  assert (z < y) by (apply IH; auto). lia.
Qed.

(** An ascending list is determined by its elements. *)
Lemma ascending_unique l1 : forall l2,
  ascending l1 -> ascending l2 -> (forall x, In x l1 <-> In x l2) -> l1 = l2.
Proof.
  induction l1 as [|a l1 IH]; intros l2 H1 H2 Heq.
  - destruct l2 as [|b l2]; [reflexivity|].
    destruct (proj2 (Heq b) (or_introl eq_refl)).
  - destruct l2 as [|b l2].
    + destruct (proj1 (Heq a) (or_introl eq_refl)).
    + pose proof (ascending_head_least a l1 H1) as La.
      pose proof (ascending_head_least b l2 H2) as Lb.
      assert (a = b).
      { destruct (proj1 (Heq a) (or_introl eq_refl)) as [E|E]; [auto|].
        destruct (proj2 (Heq b) (or_introl eq_refl)) as [E'|E']; [auto|].
        specialize (La _ E'). specialize (Lb _ E). lia. }
      subst b. f_equal. apply IH.
      * inversion H1; auto.
      * inversion H2; auto.
      * intros x; split; intros Hx.
        -- destruct (proj1 (Heq x) (or_intror Hx)) as [E|E]; [|auto].
           subst x. specialize (La _ Hx). lia.
        -- destruct (proj2 (Heq x) (or_intror Hx)) as [E|E]; [|auto].
           subst x. specialize (Lb _ Hx). lia.
Qed.

Lemma in_range lo hi x : In x (Py.range lo hi) <-> lo <= x < hi.
Proof.
  unfold Py.range. rewrite in_map_iff. split.
  - intros [i [<- Hi]]. apply in_seq in Hi. lia.
  - intros H. exists (Z.to_nat (x - lo)). split; [lia|].
    apply in_seq. lia.
Qed.

(** ** Coverage parsing *)

Lemma default_range_regex_numeric nm :
  numeric_matches Py.default_range_regex nm.
Proof.
  intros g0 g1 rest H. unfold Py.default_range_regex in H.
  apply in_map_iff in H as [[r1 r2] [E H]]. simpl in E.
  injection E as -> -> _.
  pose proof (scan_ranges_numerals nm Py.Idle I) as F.
  rewrite Forall_forall in F. destruct (F _ H) as [H1 H2]. simpl in *.
  split; eexists; apply int_numeral; assumption.
Qed.

Lemma add_match_spec cov m :
  (forall g0 g1 rest, m = Py.Groups (g0 :: g1 :: rest) -> parses g0 /\ parses g1) ->
  ascending cov ->
  exists cov', add_match cov m = Ok cov' /\ ascending cov' /\
    forall v, In v cov' <-> In v cov \/ contributes m v.
Proof.
  intros Hm Hcov.
  assert (Skip : (forall g0 g1 rest, m <> Py.Groups (g0 :: g1 :: rest)) ->
                 add_match cov m = Ok cov ->
                 exists cov', add_match cov m = Ok cov' /\ ascending cov' /\
                   forall v, In v cov' <-> In v cov \/ contributes m v).
  { intros Hno E. exists cov. repeat split; auto.
    intros [H|(g0 & g1 & rest & a & b & E' & _)]; [auto|].
    exfalso. eapply Hno; eauto. }
  destruct m as [s|[|g0 [|g1 rest]]]; try (apply Skip; [congruence|reflexivity]).
  destruct (Hm g0 g1 rest eq_refl) as [[a Ha] [b Hb]].
  simpl. rewrite Ha, Hb. simpl. eexists; split; [reflexivity|].
  split; [now apply ascending_add_all|].
  intros v. rewrite in_add_all, in_range. split.
  - intros [H|H]; [right|now left].
    exists g0, g1, rest, a, b. repeat split; auto; lia.
  - intros [H|(h0 & h1 & r & a' & b' & E & Ea & Eb & Hv)]; [now right|left].
    injection E as -> -> ->. rewrite Ha in Ea. rewrite Hb in Eb.
    injection Ea as ->. injection Eb as ->. lia.
Qed.

Lemma add_matches_spec rngs : forall cov,
  (forall g0 g1 rest, In (Py.Groups (g0 :: g1 :: rest)) rngs ->
     parses g0 /\ parses g1) ->
  ascending cov ->
  exists cov', add_matches cov rngs = Ok cov' /\ ascending cov' /\
    forall v, In v cov' <-> In v cov \/ exists m, In m rngs /\ contributes m v.
Proof.
  induction rngs as [|m rngs IH]; intros cov Hn Hcov; simpl.
  - exists cov. repeat split; auto. intros [H|[m [[] _]]]; auto.
  - destruct (add_match_spec cov m) as (c1 & E1 & A1 & I1); auto.
    { intros g0 g1 rest ->. apply (Hn g0 g1 rest). now left. }
    rewrite E1; simpl.
    destruct (IH c1) as (c2 & E2 & A2 & I2); auto.
    { intros g0 g1 rest H. apply (Hn g0 g1 rest). now right. }
    exists c2. repeat split; auto.
    + intros H. apply I2 in H as [H|[m' [Hin Hc]]].
      * apply I1 in H as [H|H]; [now left|right; exists m; split; auto; now left].
      * right; exists m'; split; auto; now right.
    + intros [H|[m' [[<-|Hin] Hc]]]; apply I2.
      * left; apply I1; now left.
      * left; apply I1; now right.
      * right; exists m'; auto.
Qed.

Lemma coverage_for_block_on rx nm seed :
  numeric_matches rx nm ->
  exists c, coverage_for_block true rx nm seed = Ok c /\ ascending c /\
    forall v, In v c <-> v = seed \/ exists m, In m (rx nm) /\ contributes m v.
Proof.
  intros Hn. unfold coverage_for_block.
  destruct (add_matches_spec (rx nm) (IntSet.add seed IntSet.empty)) as (c & E & A & Hin).
  - exact Hn.
  - simpl; auto.
  - rewrite E. simpl. exists c. repeat split; auto.
    + intros H. apply Hin in H as [[H|[]]|H]; auto.
    + intros [->|H]; apply Hin; [left; now left|now right].
Qed.

Lemma coverage_for_block_off rx nm seed :
  coverage_for_block false rx nm seed = Ok [seed].
Proof. reflexivity. Qed.

(** Whenever extraction of a block succeeds the seed is covered. *)
Lemma coverage_for_block_total mr rx nm seed :
  mr = false \/ numeric_matches rx nm ->
  exists c, coverage_for_block mr rx nm seed = Ok c /\ In seed c /\ ascending c.
Proof.
  intros [->|Hn].
  - exists [seed]. repeat split; simpl; auto.
  - destruct mr; [|exists [seed]; repeat split; simpl; auto].
    destruct (coverage_for_block_on rx nm seed Hn) as (c & E & A & Hin).
    exists c. repeat split; auto. apply Hin. now left.
Qed.

Lemma max_spec x l :
  let m := fold_left Z.max l x in
  In m (x :: l) /\ forall v, In v (x :: l) -> v <= m.
Proof.
  revert x. induction l as [|y l IH]; intros x; simpl.
  - split; [auto|]. intros v [->|[]]. lia.
  - destruct (IH (Z.max x y)) as [Hin Hle]. simpl in Hin, Hle. split.
    + destruct Hin as [H|H]; [|right; right; exact H].
      destruct (Z.max_spec x y) as [[_ E]|[_ E]]; rewrite E in H |- *; auto.
    + intros v [->|[->|H]].
      * specialize (Hle (Z.max v y) (or_introl eq_refl)). lia.
      * specialize (Hle (Z.max x v) (or_introl eq_refl)). lia.
      * apply Hle. now right.
Qed.

Lemma all_loop_advanced_loop mr rx nm blocks_i : forall result,
  all_loop mr rx nm blocks_i result = advanced_loop mr rx nm blocks_i result.
Proof.
  induction blocks_i as [|b l IH]; intros result; simpl; [reflexivity|].
  destruct (coverage_for_block mr rx nm b) as [c|e]; simpl; [apply IH|reflexivity].
Qed.

(** C6, as stated: the range scenario does not yield a single coverage
    set under every block policy. Under [multi-block-advanced], the
    default policy, it yields two, one for each digit run of the name. *)
Lemma range_scenario_two_sets :
  parse_coverage_list true Py.default_range_regex archive_item MultiBlockAdvanced
    = Ok [[100; 101; 102; 103]; [100; 101; 102; 103]] /\
  parse_coverage_list true Py.default_range_regex archive_item MultiBlockAdvanced
    <> Ok [[100; 101; 102; 103]].
Proof. split; [reflexivity|discriminate]. Qed.

(** C6, amended: with multi-range expansion, the coverage set of a seed
    is the ascending list of the seed and of every integer between the
    two integers captured by a match of the range pattern in the full
    name. For [archive_100-103.zip] and the default pattern, the policies
    [first] and [largest] yield the single set 100..103; the policies
    [all] and [multi-block-advanced] yield that set twice. *)
Theorem range_expansion_coverage :
  (forall rx nm seed, numeric_matches rx nm ->
     exists c, coverage_for_block true rx nm seed = Ok c /\ ascending c /\
       forall v, In v c <-> v = seed \/ exists m, In m (rx nm) /\ contributes m v) /\
  parse_coverage_list true Py.default_range_regex archive_item First
    = Ok [[100; 101; 102; 103]] /\
  parse_coverage_list true Py.default_range_regex archive_item Largest
    = Ok [[100; 101; 102; 103]] /\
  parse_coverage_list true Py.default_range_regex archive_item All
    = Ok [[100; 101; 102; 103]; [100; 101; 102; 103]] /\
  parse_coverage_list true Py.default_range_regex archive_item MultiBlockAdvanced
    = Ok [[100; 101; 102; 103]; [100; 101; 102; 103]].
Proof.
  split; [exact coverage_for_block_on|].
  repeat split; reflexivity.
Qed.

Lemma range_expansion_coverage_witness :
  numeric_matches Py.default_range_regex "part_7-9.zip" /\
  exists c, coverage_for_block true Py.default_range_regex "part_7-9.zip" 7 = Ok c /\
    ascending c /\
    forall v, In v c <-> v = 7 \/
      exists m, In m (Py.default_range_regex "part_7-9.zip") /\ contributes m v.
Proof.
  assert (H : numeric_matches Py.default_range_regex "part_7-9.zip").
  { intros g0 g1 rest Hin. vm_compute in Hin.
    destruct Hin as [Hin|[]]. injection Hin as <- <- <-.
    split; eexists; reflexivity. }
  split; [exact H|].
  exact (proj1 range_expansion_coverage Py.default_range_regex "part_7-9.zip" 7 H).
Defined.

Lemma singleton_if_in x c : In x c -> singleton_if c = [c].
Proof. destruct c; [intros []|reflexivity]. Qed.

(** C7: under the policy [largest], an item with a digit run yields one
    coverage set, that of the seed [m], the greatest of the integers of
    its digit runs; and without multi-range expansion the coverage set of
    any seed is the singleton of the seed. *)
Theorem largest_policy_seed :
  (forall mr rx it,
     Py.findall_digits (name it) <> [] ->
     mr = false \/ numeric_matches rx (name it) ->
     exists m c,
       parse_coverage_list mr rx it Largest = Ok [c] /\
       coverage_for_block mr rx (name it) m = Ok c /\
       In m (block_values (name it)) /\
       (forall v, In v (block_values (name it)) -> v <= m) /\
       In m c /\
       (mr = false -> c = [m])) /\
  (forall rx nm seed, coverage_for_block false rx nm seed = Ok [seed]).
Proof.
  split; [|exact coverage_for_block_off].
  intros mr rx it Hne Hcfg. unfold parse_coverage_list.
  rewrite blocks_parse. unfold block_values.
  destruct (Py.findall_digits (name it)) as [|b bs] eqn:Eb; [congruence|].
  cbn [map bind Py.max].
  set (x := Py.digits_val 0 b). set (l := map (Py.digits_val 0) bs).
  destruct (max_spec x l) as [Hin Hle]. cbn zeta in Hin, Hle.
  set (m := fold_left Z.max l x) in *.
  destruct (coverage_for_block_total mr rx (name it) m Hcfg) as (c & Ec & Hm & _).
  exists m, c. rewrite Ec. cbn [bind]. rewrite (singleton_if_in m c Hm).
  repeat split; auto.
  intros ->. rewrite coverage_for_block_off in Ec. congruence.
Qed.

Lemma largest_policy_seed_witness :
  exists m c,
    parse_coverage_list false Py.default_range_regex
      (mk_item "/d/a7_b12_c3" "a7_b12_c3" 0 false) Largest = Ok [c] /\
    coverage_for_block false Py.default_range_regex "a7_b12_c3" m = Ok c /\
    In m (block_values "a7_b12_c3") /\
    (forall v, In v (block_values "a7_b12_c3") -> v <= m) /\
    In m c /\
    (false = false -> c = [m]).
Proof.
  apply (proj1 largest_policy_seed false Py.default_range_regex
           (mk_item "/d/a7_b12_c3" "a7_b12_c3" 0 false)).
  - vm_compute. discriminate.
  - left. reflexivity.
Defined.

(** C8: the policies [all] and [multi-block-advanced] yield the same
    sequence of coverage sets, for every item, with or without
    multi-range expansion and for every range pattern. *)
Theorem all_same_as_multi_block_advanced :
  forall mr rx it,
    parse_coverage_list mr rx it All
    = parse_coverage_list mr rx it MultiBlockAdvanced.
Proof.
  intros mr rx it. unfold parse_coverage_list.
  destruct (Py.findall_digits (name it)); [reflexivity|].
  destruct (mapM Py.int (s :: l)) as [blocks_i|e]; simpl; [|reflexivity].
  apply all_loop_advanced_loop.
Qed.

(** C9, as stated: a range pattern without groups is not reported, at
    setup or later. The run over [archive_100-103.zip] completes; the
    matches of the pattern were skipped, so the coverage sets are the
    singletons of the two digit runs. *)
Lemma ungrouped_pattern_not_rejected :
  ~ captures_two_numeric_groups Py.ungrouped_range_regex /\
  exists r,
    gather (args_with_pattern Py.ungrouped_range_regex) 8 CheckFiles
           [("/data", [archive_item])] [] = Ok r /\
    map (fun g => map coverage (picks (group_info g))) r = [[[100]; [103]]].
Proof.
  split.
  - intros H.
    destruct (H "1-2" (Py.Text "1-2")) as (g0 & g1 & rest & E & _).
    + vm_compute. now left.
    + discriminate.
  - eexists. split; [vm_compute; reflexivity|reflexivity].
Qed.

(** C9, amended: a range pattern whose matches are not tuples of at least
    two groups is not an error: each match is skipped while the coverage
    of an item is computed, and every coverage set is the singleton of
    its seed. *)
Theorem short_matches_skipped :
  forall rx nm seed,
    (forall m, In m (rx nm) ->
       match m with Py.Groups (_ :: _ :: _) => False | _ => True end) ->
    coverage_for_block true rx nm seed = Ok [seed].
Proof.
  intros rx nm seed H. unfold coverage_for_block.
  assert (E : forall rngs cov,
             (forall m, In m rngs ->
                match m with Py.Groups (_ :: _ :: _) => False | _ => True end) ->
             add_matches cov rngs = Ok cov).
  { induction rngs as [|m rngs IH]; intros cov Hs; simpl; [reflexivity|].
    assert (Em : add_match cov m = Ok cov).
    { specialize (Hs m (or_introl eq_refl)).
      destruct m as [t|[|g0 [|g1 rest]]]; try reflexivity. destruct Hs. }
    rewrite Em. simpl. apply IH. intros m' Hm'. apply Hs. now right. }
  rewrite (E _ _ H). reflexivity.
Qed.

Lemma short_matches_skipped_witness :
  coverage_for_block true Py.ungrouped_range_regex "archive_100-103.zip" 100
  = Ok [100].
Proof.
  apply (short_matches_skipped Py.ungrouped_range_regex "archive_100-103.zip" 100).
  intros m Hm. vm_compute in Hm. destruct Hm as [<-|[]]. exact I.
Defined.

(** ** Missing segments *)

Section SegmentFacts.

Variable btype : boundary.
Variable explain_on : bool.
Variable modulus : option Z.
Variable inc : Z.
Hypothesis inc_pos : 1 <= inc.

Lemma run_length_empty st ed : ed < st -> run_length inc st ed = 0%nat.
Proof.
  intros H. unfold run_length.
  assert ((ed - st) / inc < 0) by (apply Z.div_lt_upper_bound; lia).
  lia.
Qed.

Lemma run_length_step st ed :
  st <= ed -> run_length inc st ed = S (run_length inc (st + inc) ed).
Proof.
  intros H. unfold run_length.
  replace (ed - st) with ((ed - (st + inc)) + 1 * inc) by lia.
  rewrite Z.div_add by lia.
  assert (0 <= (ed - st) / inc) by (apply Z.div_pos; lia).
  replace (ed - st) with ((ed - (st + inc)) + 1 * inc) in H0 by lia.
  rewrite Z.div_add in H0 by lia. lia.
Qed.

Lemma run_length_bound st ed :
  (run_length inc st ed <= Z.to_nat (ed - st + 1))%nat.
Proof.
  unfold run_length. destruct (Z_lt_le_dec ed st) as [H|H].
  - assert ((ed - st) / inc < 0) by (apply Z.div_lt_upper_bound; lia). lia.
  - assert ((ed - st) / inc <= ed - st).
    { apply Z.div_le_upper_bound; nia. }
    lia.
Qed.

Lemma run_values_step st ed :
  st <= ed -> run_values inc st ed = st :: run_values inc (st + inc) ed.
Proof.
  intros H. unfold run_values. rewrite (run_length_step st ed H).
  cbn [seq map]. f_equal; [lia|].
  rewrite <- seq_shift, map_map. apply map_ext. intros i. lia.
Qed.

Lemma run_values_empty st ed : ed < st -> run_values inc st ed = [].
Proof. intros H. unfold run_values. now rewrite run_length_empty. Qed.

Lemma run_values_length st ed :
  List.length (run_values inc st ed) = run_length inc st ed.
Proof. unfold run_values. now rewrite length_map, length_seq. Qed.

Lemma in_run_values st ed v :
  In v (run_values inc st ed) -> st <= v <= ed.
Proof.
  unfold run_values. rewrite in_map_iff. intros [i [<- Hi]].
  apply in_seq in Hi. unfold run_length in Hi.
  assert (Hq : Z.of_nat i <= (ed - st) / inc) by lia.
  assert (inc * ((ed - st) / inc) <= ed - st) by (apply Z.mul_div_le; lia).
  nia.
Qed.

(** With one unit of fuel for each value of the run, the loop returns
    the items of the run. *)
Lemma missing_loop_run pad ed : forall n st fuel items,
  run_length inc st ed = n -> (n <= fuel)%nat ->
  missing_loop btype explain_on modulus inc fuel pad st ed items
  = Ok (items ++ map (missing_at btype explain_on modulus pad)
                     (run_values inc st ed)).
Proof.
  induction n as [|n IH]; intros st fuel items Hn Hf.
  - assert (Hlt : ed < st).
    { destruct (Z_lt_le_dec ed st) as [H|H]; [auto|].
      rewrite (run_length_step st ed H) in Hn. discriminate. }
    rewrite (run_values_empty st ed Hlt). simpl. rewrite app_nil_r.
    destruct fuel; simpl; (destruct (st <=? ed) eqn:E; [apply Z.leb_le in E; lia|reflexivity]).
  - assert (Hle : st <= ed).
    { destruct (Z_lt_le_dec ed st) as [H|H]; [|auto].
      rewrite (run_length_empty st ed H) in Hn. discriminate. }
    destruct fuel as [|fuel]; [lia|]. simpl.
    destruct (st <=? ed) eqn:E; [|apply Z.leb_gt in E; lia].
    rewrite (run_length_step st ed Hle) in Hn.
    rewrite (IH (st + inc) fuel); [|lia|lia].
    rewrite (run_values_step st ed Hle). simpl. now rewrite <- app_assoc.
Qed.

(** With that fuel [build_missing_segment] returns the segment of the
    run, empty when [ed < st]. *)
Lemma build_missing_segment_run fuel st ed :
  (run_length inc st ed <= fuel)%nat ->
  build_missing_segment btype explain_on modulus inc fuel st ed
  = Ok (pure_segment btype explain_on modulus inc st ed).
Proof.
  intros Hf. unfold build_missing_segment, pure_segment.
  destruct (ed <? st) eqn:E.
  - apply Z.ltb_lt in E.
    now rewrite (run_values_empty st ed E), (run_length_empty st ed E).
  - rewrite (missing_loop_run _ ed (run_length inc st ed) st fuel []); auto.
    simpl. now rewrite length_map, run_values_length.
Qed.

Lemma counted_pure_segment st ed :
  counted (pure_segment btype explain_on modulus inc st ed) = (st <=? ed).
Proof.
  unfold counted, pure_segment. simpl.
  destruct (st <=? ed) eqn:E.
  - apply Z.leb_le in E. rewrite (run_length_step st ed E). apply Z.gtb_lt. lia.
  - apply Z.leb_gt in E. rewrite (run_length_empty st ed E). reflexivity.
Qed.

End SegmentFacts.

Lemma append_if_counted_filter segs seg :
  append_if_counted segs seg = segs ++ filter counted [seg].
Proof.
  unfold append_if_counted, counted. simpl.
  destruct (count seg >? 0); [reflexivity|now rewrite app_nil_r].
Qed.

(** ** Detection *)

Lemma covered_first p : coverage p <> [] ->
  exists main_val rest, coverage p = main_val :: rest.
Proof. destruct (coverage p) as [|x l]; [congruence|eauto]. Qed.

Lemma scan_picks_run kind ps : forall ints rcs total_size real_count,
  covered ps ->
  exists total_size' real_count',
    scan_picks kind ps ints rcs total_size real_count
    = Ok (fold_left (fun s v => IntSet.add v s) (List.concat (map coverage ps)) ints,
          rcs ++ real_cov_of_picks ps, total_size', real_count').
Proof.
  induction ps as [|p ps IH]; intros ints rcs ts rc Hc; simpl.
  - exists ts, rc. now rewrite app_nil_r.
  - inversion Hc as [|? ? Hp Hps]; subst.
    destruct (covered_first p Hp) as (mv & rest & E).
    unfold real_cov_of_pick. rewrite E. cbn [Py.first bind].
    rewrite <- E.
    edestruct (IH (fold_left (fun s v => IntSet.add v s) (coverage p) ints))
      as (ts' & rc' & H); [exact Hps|].
    rewrite H. exists ts', rc'. now rewrite fold_left_app, <- app_assoc.
Qed.

Lemma observed_all_ints ps V :
  observed ps V ->
  fold_left (fun s v => IntSet.add v s) (List.concat (map coverage ps)) IntSet.empty = V.
Proof.
  intros [HV Hin]. apply ascending_unique; auto.
  - apply ascending_add_all. constructor.
  - intros x. rewrite in_add_all, Hin, List.in_concat. split.
    + intros [(l & Hl & Hx)|[]]. apply in_map_iff in Hl as (p & <- & Hp). eauto.
    + intros (p & Hp & Hx). left. exists (coverage p). split; auto.
      now apply in_map.
Qed.

Lemma observed_nil ps : covered ps -> observed ps [] -> ps = [].
Proof.
  intros Hc [_ Hin]. destruct ps as [|p ps]; [reflexivity|].
  inversion Hc as [|? ? Hp _]; subst.
  destruct (covered_first p Hp) as (mv & rest & E).
  destruct (proj2 (Hin mv)). exists p. split; [now left|]. rewrite E. now left.
Qed.

Lemma adjacent_pairs_indices V :
  map (fun i => (nth i V 0, nth (S i) V 0)) (seq 0 (List.length V - 1))
  = adjacent_pairs V.
Proof.
  induction V as [|x V IH]; [reflexivity|].
  destruct V as [|y V]; [reflexivity|].
  replace (List.length (x :: y :: V) - 1)%nat with (S (List.length (y :: V) - 1))
    by (simpl; lia).
  cbn [seq map adjacent_pairs]. f_equal.
  rewrite <- seq_shift, map_map. exact IH.
Qed.

Section DetectFacts.

Variable start_opt end_opt modulus : option Z.
Variable inc : Z.
Variable explain_on : bool.
Variable fuel : nat.
Hypothesis inc_pos : 1 <= inc.

Let internal_at (V : list Z) (i : nat) : list segment :=
  if nth (S i) V 0 - nth i V 0 >? inc
  then [pure_segment Internal explain_on modulus inc
          (nth i V 0 + inc) (nth (S i) V 0 - 1)]
  else [].

Lemma internal_loop_run V : forall indices segs,
  (forall sg, In sg (flat_map (internal_at V) indices) ->
     (Z.to_nat (count sg) <= fuel)%nat) ->
  internal_loop modulus inc explain_on fuel V indices segs
  = Ok (segs ++ filter counted (flat_map (internal_at V) indices)).
Proof.
  induction indices as [|i indices IH]; intros segs Hf; simpl.
  - now rewrite app_nil_r.
  - unfold internal_at at 1. simpl in Hf. unfold internal_at at 1 in Hf.
    destruct (nth (S i) V 0 - nth i V 0 >? inc) eqn:E.
    + rewrite build_missing_segment_run; auto.
      * cbn [bind]. rewrite IH.
        -- rewrite append_if_counted_filter, <- app_assoc. simpl.
           destruct (counted _); reflexivity.
        -- intros sg Hsg. apply Hf. simpl. now right.
      * specialize (Hf _ (or_introl eq_refl)). simpl in Hf. lia.
    + apply IH. intros sg Hsg. apply Hf. exact Hsg.
Qed.

Lemma leading_part_run seq_start actual_min segs :
  (forall sg,
     In sg (if seq_start <? actual_min
            then [pure_segment Leading explain_on modulus inc
                    seq_start (actual_min - inc)]
            else []) -> (Z.to_nat (count sg) <= fuel)%nat) ->
  leading_part modulus inc explain_on fuel seq_start actual_min segs
  = Ok (segs ++ filter counted
          (if seq_start <? actual_min
           then [pure_segment Leading explain_on modulus inc
                   seq_start (actual_min - inc)]
           else [])).
Proof.
  intros Hf. unfold leading_part. destruct (seq_start <? actual_min).
  - rewrite build_missing_segment_run; auto.
    + cbn [bind]. now rewrite append_if_counted_filter.
    + specialize (Hf _ (or_introl eq_refl)). simpl in Hf. lia.
  - simpl. now rewrite app_nil_r.
Qed.

Lemma trailing_part_run seq_end actual_max segs :
  (forall sg,
     In sg (if seq_end >? actual_max
            then [pure_segment Trailing explain_on modulus inc
                    (actual_max + inc) seq_end]
            else []) -> (Z.to_nat (count sg) <= fuel)%nat) ->
  trailing_part modulus inc explain_on fuel seq_end actual_max segs
  = Ok (segs ++ filter counted
          (if seq_end >? actual_max
           then [pure_segment Trailing explain_on modulus inc
                   (actual_max + inc) seq_end]
           else [])).
Proof.
  intros Hf. unfold trailing_part. destruct (seq_end >? actual_max).
  - rewrite build_missing_segment_run; auto.
    + cbn [bind]. now rewrite append_if_counted_filter.
    + specialize (Hf _ (or_introl eq_refl)). simpl in Hf. lia.
  - simpl. now rewrite app_nil_r.
Qed.

Lemma uncounted_costs_nothing sg :
  counted sg = false -> (Z.to_nat (count sg) <= fuel)%nat.
Proof. unfold counted. intros H. rewrite Z.gtb_ltb in H. apply Z.ltb_ge in H. lia. Qed.

Lemma enough_fuel_all segs :
  enough_fuel fuel (filter counted segs) ->
  forall sg, In sg segs -> (Z.to_nat (count sg) <= fuel)%nat.
Proof.
  intros H sg Hsg. unfold enough_fuel in H. rewrite Forall_forall in H.
  destruct (counted sg) eqn:E; [|now apply uncounted_costs_nothing].
  apply H. apply filter_In. auto.
Qed.

End DetectFacts.

(** Detection returns the segments of the group as soon as the fuel
    covers the longest of them. *)
Lemma detect_run start_opt end_opt modulus inc explain_on g V :
  1 <= inc ->
  covered (picks g) -> observed (picks g) V ->
  exists st,
    num_missing st
    = fold_left Z.add
        (map count (group_segments start_opt end_opt modulus inc explain_on V)) 0 /\
    forall fuel,
      enough_fuel fuel (group_segments start_opt end_opt modulus inc explain_on V) ->
      detect_breaks_in_group start_opt end_opt modulus inc explain_on fuel g
      = Ok (mk_result g
              (map (fill_segment (real_cov_of_picks (picks g)))
                   (group_segments start_opt end_opt modulus inc explain_on V))
              st).
Proof.
  intros inc_pos Hc Ho. unfold detect_breaks_in_group.
  destruct (picks g) as [|p ps] eqn:Ep.
  - assert (V = []) as ->.
    { destruct Ho as [_ Hin]. destruct V as [|v V]; [reflexivity|].
      destruct (proj1 (Hin v) (or_introl eq_refl)) as (q & [] & _). }
    eexists. split; [|intros fuel _; reflexivity]. reflexivity.
  - destruct (scan_picks_run (artifact_type g) (p :: ps) IntSet.empty [] 0 0 Hc)
      as (ts & rc & Es).
    rewrite Es. cbn [bind]. rewrite (observed_all_ints _ V Ho).
    unfold IntSet.sorted. rewrite app_nil_l.
    destruct V as [|actual_min V'] eqn:EV.
    { apply observed_nil in Ho; [discriminate|exact Hc]. }
    rewrite <- EV in *.
    eexists. split; cycle 1.
    + intros fuel Hf. unfold group_segments in Hf |- *.
      rewrite EV in Hf |- *. rewrite <- EV in Hf |- *.
      pose proof (enough_fuel_all fuel _ Hf) as Hall.
      unfold candidate_segments in Hall |- *. rewrite EV in Hall |- *.
      rewrite <- EV in Hall |- *. cbn zeta in Hall |- *.
      rewrite leading_part_run; auto.
      2:{ intros sg Hsg. apply Hall. apply in_or_app. now left. }
      cbn [bind app].
      rewrite internal_loop_run; auto.
      2:{ intros sg Hsg. apply Hall. apply in_or_app. right.
          apply in_or_app. left.
          rewrite <- adjacent_pairs_indices, flat_map_concat_map, map_map,
            <- flat_map_concat_map. exact Hsg. }
      cbn [bind].
      rewrite trailing_part_run; auto.
      2:{ intros sg Hsg. apply Hall. apply in_or_app. right.
          apply in_or_app. now right. }
      cbn [bind].
      rewrite <- adjacent_pairs_indices.
      rewrite (flat_map_concat_map _ (map _ _)), map_map, <- flat_map_concat_map.
      rewrite !filter_app, <- !app_assoc.
      reflexivity.
    + unfold group_segments, candidate_segments. rewrite EV. rewrite <- EV.
      cbn zeta. rewrite <- adjacent_pairs_indices.
      rewrite (flat_map_concat_map _ (map _ _)), map_map, <- flat_map_concat_map.
      rewrite !filter_app. reflexivity.
Qed.



(** ** The runs of a group *)

Lemma sum_from l : forall a, fold_left Z.add l a = a + fold_left Z.add l 0.
Proof.
  induction l as [|x l IH]; intros a; simpl; [lia|].
  rewrite (IH (a + x)), (IH x). lia.
Qed.

Lemma enough_fuel_sum segs :
  (forall sg, In sg segs -> 0 <= count sg) ->
  0 <= fold_left Z.add (map count segs) 0 /\
  enough_fuel (Z.to_nat (fold_left Z.add (map count segs) 0)) segs.
Proof.
  induction segs as [|sg segs IH]; intros Hpos; simpl.
  - split; [lia|constructor].
  - destruct IH as [H0 Hf]; [intros x Hx; apply Hpos; now right|].
    pose proof (Hpos sg (or_introl eq_refl)) as Hsg.
    rewrite sum_from. split; [lia|]. constructor; [lia|].
    unfold enough_fuel in *. rewrite Forall_forall in *.
    intros x Hx. specialize (Hf x Hx). lia.
Qed.

Lemma enough_fuel_more f f' segs :
  enough_fuel f segs -> (f <= f')%nat -> enough_fuel f' segs.
Proof.
  unfold enough_fuel. rewrite !Forall_forall. intros H Hle x Hx.
  specialize (H x Hx). lia.
Qed.

Section RunFacts.

Variable modulus : option Z.
Variable inc : Z.
Variable explain_on : bool.
Hypothesis inc_pos : 1 <= inc.

Lemma candidates_pure st en V :
  Forall (is_pure modulus inc explain_on) (candidate_segments explain_on modulus inc st en V).
Proof.
  unfold candidate_segments. destruct V as [|x V]; [constructor|].
  cbn zeta. apply Forall_app; split; [|apply Forall_app; split].
  - destruct (st <? x); constructor; [red; eauto|constructor].
  - apply Forall_flat_map. apply Forall_forall. intros cn _.
    destruct (snd cn - fst cn >? inc); constructor; [red; eauto|constructor].
  - destruct (en >? last (x :: V) 0); constructor; [red; eauto|constructor].
Qed.

Lemma filter_counted_runs segs :
  Forall (is_pure modulus inc explain_on) segs ->
  map run_of (filter counted segs) = filter nonempty_run (map run_of segs).
Proof.
  induction 1 as [|sg segs (b & st & ed & ->) _ IH]; [reflexivity|].
  simpl. rewrite counted_pure_segment by assumption.
  unfold nonempty_run at 1, run_of at 2. simpl.
  destruct (st <=? ed); simpl; now rewrite IH.
Qed.

Lemma candidate_runs st en V :
  map run_of (candidate_segments explain_on modulus inc st en V)
  = match V with
    | [] => []
    | actual_min :: _ =>
        (if st <? actual_min then [(Leading, st, actual_min - inc)] else [])
        ++ internal_runs inc V
        ++ (if en >? last V 0 then [(Trailing, last V 0 + inc, en)] else [])
    end.
Proof.
  unfold candidate_segments. destruct V as [|x V]; [reflexivity|].
  cbn zeta. rewrite !map_app. f_equal; [|f_equal].
  - destruct (st <? x); reflexivity.
  - unfold internal_runs. generalize (adjacent_pairs (x :: V)).
    induction l as [|cn l IH]; simpl; [reflexivity|].
    rewrite map_app, IH. destruct (snd cn - fst cn >? inc); reflexivity.
  - destruct (en >? last (x :: V) 0); reflexivity.
Qed.

Lemma internal_runs_nonempty V :
  filter nonempty_run (internal_runs inc V) = internal_runs inc V.
Proof.
  unfold internal_runs. generalize (adjacent_pairs V).
  induction l as [|cn l IH]; [reflexivity|].
  cbn [flat_map]. rewrite filter_app. f_equal; [|exact IH].
  destruct (snd cn - fst cn >? inc) eqn:E; [|reflexivity].
  cbn [filter]. unfold nonempty_run. cbn [fst snd].
  apply Z.gtb_lt in E.
  destruct (fst cn + inc <=? snd cn - 1) eqn:E'; [reflexivity|].
  apply Z.leb_gt in E'. lia.
Qed.

Lemma group_segments_counts s e V sg :
  In sg (group_segments s e modulus inc explain_on V) -> 0 <= count sg.
Proof.
  unfold group_segments. destruct V as [|x V]; [intros []|].
  intros H. apply filter_In in H as [H _].
  pose proof (candidates_pure (sequence_start s modulus x)
                (sequence_end e modulus (last (x :: V) 0)) (x :: V)) as F.
  rewrite Forall_forall in F. destruct (F sg H) as (b & st & ed & ->).
  simpl. lia.
Qed.

End RunFacts.

Lemma run_of_fill rcs sg : run_of (fill_segment rcs sg) = run_of sg.
Proof. reflexivity. Qed.

(** The bounds computed by the code are the expected bounds. *)
Lemma sequence_start_expected s m actual_min st :
  (forall k, m = Some k -> 0 < k) ->
  expected_start s m actual_min st -> sequence_start s m actual_min = st.
Proof.
  intros Hm. unfold expected_start, sequence_start.
  destruct s as [x|]; [congruence|].
  destruct m as [k|]; [|simpl; congruence].
  specialize (Hm k eq_refl). simpl.
  destruct (k =? 0) eqn:E; [apply Z.eqb_eq in E; lia|]. simpl.
  intros [[q ->] Hb].
  rewrite (Z.div_unique actual_min k q (actual_min - q * k)); lia.
Qed.

Lemma sequence_end_expected e m actual_max en :
  (forall k, m = Some k -> 0 < k) ->
  expected_end e m actual_max en -> sequence_end e m actual_max = en.
Proof.
  intros Hm. unfold expected_end, sequence_end.
  destruct e as [x|]; [congruence|].
  destruct m as [k|]; [|simpl; congruence].
  specialize (Hm k eq_refl). simpl.
  destruct (k =? 0) eqn:E; [apply Z.eqb_eq in E; lia|]. simpl.
  intros [[q Hq] Hb].
  rewrite <- (Z.div_unique actual_max k (q - 1) (actual_max - (q - 1) * k)); lia.
Qed.

(** Detection is total for a positive increment, and the fuel it needs is
    the number of the missing values it reports. *)
Lemma detect_total s e m inc ex g V :
  1 <= inc -> covered (picks g) -> observed (picks g) V ->
  exists r,
    (forall fuel, (Z.to_nat (num_missing (result_stats r)) <= fuel)%nat ->
       detect_breaks_in_group s e m inc ex fuel g = Ok r) /\
    group_info r = g /\
    segments r = map (fill_segment (real_cov_of_picks (picks g)))
                     (group_segments s e m inc ex V) /\
    num_missing (result_stats r)
    = fold_left Z.add (map count (group_segments s e m inc ex V)) 0 /\
    0 <= num_missing (result_stats r).
Proof.
  intros Hinc Hc Ho.
  destruct (enough_fuel_sum (group_segments s e m inc ex V)) as [H0 Hf].
  { intros sg. now apply group_segments_counts. }
  destruct (detect_run s e m inc ex g V Hinc Hc Ho) as (st & Hn & E).
  exists (mk_result g
            (map (fill_segment (real_cov_of_picks (picks g)))
                 (group_segments s e m inc ex V)) st).
  split; [|split; [reflexivity|split; [reflexivity|cbn [result_stats]; split; [exact Hn|lia]]]].
  intros fuel Hfuel. cbn [result_stats] in Hfuel. rewrite Hn in Hfuel.
  apply E. eapply enough_fuel_more; eauto.
Qed.

(** For a positive increment and a positive modulus, detection returns,
    and the runs of its segments are the expected ones. *)
Lemma detect_expected_runs g s e m inc ex V st en :
  1 <= inc -> (forall k, m = Some k -> 0 < k) ->
  covered (picks g) -> observed (picks g) V ->
  expected_start s m (hd 0 V) st -> expected_end e m (last V 0) en ->
  exists r,
    (forall fuel, (Z.to_nat (num_missing (result_stats r)) <= fuel)%nat ->
       detect_breaks_in_group s e m inc ex fuel g = Ok r) /\
    map run_of (segments r) = expected_runs inc st en V.
Proof.
  intros Hinc Hm Hc Ho Hst Hen.
  destruct (detect_total s e m inc ex g V Hinc Hc Ho) as (r & Hr & _ & Hs & _).
  exists r. split; [exact Hr|]. rewrite Hs, map_map.
  rewrite (map_ext _ run_of) by (intros; apply run_of_fill).
  unfold group_segments, expected_runs. destruct V as [|x V]; [reflexivity|].
  cbn [hd] in Hst.
  rewrite (sequence_start_expected s m x st Hm Hst).
  rewrite (sequence_end_expected e m _ en Hm Hen).
  rewrite (filter_counted_runs m inc ex Hinc) by apply candidates_pure.
  now rewrite candidate_runs.
Qed.

Lemma internal_runs_kind inc V :
  Forall (fun r => fst (fst r) = Internal) (internal_runs inc V).
Proof.
  unfold internal_runs. apply Forall_flat_map. apply Forall_forall. intros cn _.
  destruct (snd cn - fst cn >? inc); repeat constructor.
Qed.

Lemma internal_runs_contiguous inc V :
  (forall cn, In cn (adjacent_pairs V) -> snd cn - fst cn <= inc) ->
  internal_runs inc V = [].
Proof.
  unfold internal_runs. generalize (adjacent_pairs V).
  induction l as [|cn l IH]; intros H; [reflexivity|].
  cbn [flat_map]. rewrite IH by (intros x Hx; apply H; now right).
  specialize (H cn (or_introl eq_refl)).
  destruct (snd cn - fst cn >? inc) eqn:E; [|reflexivity].
  apply Z.gtb_lt in E. lia.
Qed.

(** The set that detection builds is the set of the observed values. *)
Lemma observed_computed ps :
  observed ps
    (fold_left (fun s v => IntSet.add v s) (List.concat (map coverage ps))
               IntSet.empty).
Proof.
  split.
  - apply ascending_add_all. constructor.
  - intros x. rewrite in_add_all, List.in_concat. split.
    + intros [(l & Hl & Hx)|[]]. apply in_map_iff in Hl as (p & <- & Hp). eauto.
    + intros (p & Hp & Hx). left. exists (coverage p). split; auto.
      now apply in_map.
Qed.

(** C1: with a positive increment and a positive modulus (if any), for
    the observed values [V] of a group, the expected start [st] and the
    expected end [en], detection returns the leading run
    [st .. actualMin - inc] when [st < actualMin], the internal run
    [cur + inc .. next - 1] of every adjacent pair with
    [next - cur > inc], the trailing run [actualMax + inc .. en] when
    [en > actualMax], without the runs whose end is below their start.
    For the modulus 100 and the observed values 105 and 110 the runs are
    100..104, 106..109 and 111..199. *)
Theorem detect_gaps_runs :
  (forall g s e m inc ex V st en,
     1 <= inc -> (forall k, m = Some k -> 0 < k) ->
     covered (picks g) -> observed (picks g) V ->
     expected_start s m (hd 0 V) st -> expected_end e m (last V 0) en ->
     exists r,
       (forall fuel, (Z.to_nat (num_missing (result_stats r)) <= fuel)%nat ->
          detect_breaks_in_group s e m inc ex fuel g = Ok r) /\
       map run_of (segments r) = expected_runs inc st en V) /\
  (exists r,
     detect_breaks_in_group None None (Some 100) 1 false 98 boundary_group = Ok r /\
     map run_of (segments r)
     = [(Leading, 100, 104); (Internal, 106, 109); (Trailing, 111, 199)]).
Proof.
  split.
  - intros. eapply detect_expected_runs; eauto.
  - eexists. split; [vm_compute; reflexivity|reflexivity].
Qed.

Lemma detect_gaps_runs_witness :
  exists r,
    (forall fuel, (Z.to_nat (num_missing (result_stats r)) <= fuel)%nat ->
       detect_breaks_in_group None None (Some 100) 1 false fuel boundary_group = Ok r) /\
    map run_of (segments r) = expected_runs 1 100 199 [105; 110].
Proof.
  apply (proj1 detect_gaps_runs boundary_group None None (Some 100) 1 false
           [105; 110] 100 199).
  - lia.
  - intros k Hk. injection Hk as <-. lia.
  - repeat constructor; discriminate.
  - exact (observed_computed (picks boundary_group)).
  - simpl. split; [exists 1; lia|lia].
  - simpl. split; [exists 2; lia|lia].
Defined.

(** C3: without explicit bounds and without a modulus, the runs of the
    segments of a group are its internal runs, and every segment is
    internal; a group whose adjacent observed values are at most one
    increment apart has no segment, and so has a group with a single
    observed value. The contiguous values 1..10 with the increment 1 give
    no segment. *)
Theorem unbounded_group_internal_only :
  (forall g inc ex V,
     1 <= inc -> covered (picks g) -> observed (picks g) V ->
     exists r,
       (forall fuel, (Z.to_nat (num_missing (result_stats r)) <= fuel)%nat ->
          detect_breaks_in_group None None None inc ex fuel g = Ok r) /\
       map run_of (segments r) = internal_runs inc V /\
       Forall (fun sg => boundary_type sg = Internal) (segments r) /\
       ((forall cn, In cn (adjacent_pairs V) -> snd cn - fst cn <= inc) ->
        segments r = []) /\
       (forall v, V = [v] -> segments r = [])) /\
  (exists r,
     detect_breaks_in_group None None None 1 false 0 contiguous_group = Ok r /\
     segments r = []).
Proof.
  split.
  - intros g inc ex V Hinc Hc Ho.
    destruct (detect_expected_runs g None None None inc ex V (hd 0 V) (last V 0))
      as (r & Hr & Hruns); auto; try reflexivity.
    { intros k Hk. discriminate. }
    assert (Hint : map run_of (segments r) = internal_runs inc V).
    { rewrite Hruns. unfold expected_runs. destruct V as [|x V]; [reflexivity|].
      cbn [hd]. rewrite Z.ltb_irrefl.
      replace (last (x :: V) 0 >? last (x :: V) 0) with false
        by (symmetry; rewrite Z.gtb_ltb; apply Z.ltb_irrefl).
      rewrite app_nil_r. cbn [app]. now apply internal_runs_nonempty. }
    exists r. split; [exact Hr|]. split; [exact Hint|].
    assert (Hcont : (forall cn, In cn (adjacent_pairs V) -> snd cn - fst cn <= inc) ->
                    segments r = []).
    { intros H. rewrite (internal_runs_contiguous inc V H) in Hint.
      destruct (segments r); [reflexivity|discriminate]. }
    split; [|split; [exact Hcont|]].
    + pose proof (internal_runs_kind inc V) as K. rewrite <- Hint in K.
      rewrite Forall_map in K. exact K.
    + intros v ->. apply Hcont. intros cn [].
  - eexists. split; [vm_compute; reflexivity|reflexivity].
Qed.

Lemma unbounded_group_internal_only_witness :
  exists r,
    (forall fuel, (Z.to_nat (num_missing (result_stats r)) <= fuel)%nat ->
       detect_breaks_in_group None None None 1 false fuel boundary_group = Ok r) /\
    map run_of (segments r) = internal_runs 1 [105; 110] /\
    Forall (fun sg => boundary_type sg = Internal) (segments r) /\
    ((forall cn, In cn (adjacent_pairs [105; 110]) -> snd cn - fst cn <= 1) ->
     segments r = []) /\
    (forall v, [105; 110] = [v] -> segments r = []).
Proof.
  apply (proj1 unbounded_group_internal_only boundary_group 1 false [105; 110]).
  - lia.
  - repeat constructor; discriminate.
  - exact (observed_computed (picks boundary_group)).
Defined.

(** ** Reconstruction of prefix and suffix *)

Lemma closest_loop_nearest v rest : forall pre i b,
  nearest_first v pre i b ->
  exists i' b',
    closest_loop v rest (Some (b, Z.abs (rc_val b - v)))
    = Some (b', Z.abs (rc_val b' - v)) /\
    nearest_first v (pre ++ rest) i' b'.
Proof.
  induction rest as [|rc rest IH]; intros pre i b Hb.
  - exists i, b. rewrite app_nil_r. split; [reflexivity|exact Hb].
  - destruct Hb as (Hi & Hmin & Hfirst).
    assert (Hlt : (i < List.length pre)%nat)
      by (apply nth_error_Some; congruence).
    replace (pre ++ rc :: rest) with ((pre ++ [rc]) ++ rest)
      by (now rewrite <- app_assoc).
    cbn [closest_loop].
    destruct (Z.abs (rc_val rc - v) <? Z.abs (rc_val b - v)) eqn:E.
    + apply Z.ltb_lt in E. apply (IH (pre ++ [rc]) (List.length pre) rc).
      split; [|split].
      * rewrite nth_error_app2, Nat.sub_diag by lia. reflexivity.
      * intros rc' Hin. apply in_app_or in Hin as [Hin|[<-|[]]]; [|lia].
        specialize (Hmin rc' Hin). lia.
      * intros j rc' Hj Hn. rewrite nth_error_app1 in Hn by lia.
        apply nth_error_In in Hn. specialize (Hmin rc' Hn). lia.
    + apply Z.ltb_ge in E. apply (IH (pre ++ [rc]) i b).
      split; [|split].
      * rewrite nth_error_app1 by lia. exact Hi.
      * intros rc' Hin. apply in_app_or in Hin as [Hin|[<-|[]]]; auto.
      * intros j rc' Hj Hn. rewrite nth_error_app1 in Hn by lia. eauto.
Qed.

Lemma find_closest_nearest v rcs :
  rcs <> [] ->
  exists i rc,
    nearest_first v rcs i rc /\
    find_closest_prefix_suffix v rcs = (rc_prefix rc, rc_suffix rc).
Proof.
  destruct rcs as [|rc0 rcs]; [congruence|]. intros _.
  destruct (closest_loop_nearest v rcs [rc0] 0%nat rc0) as (i & b & E & Hn).
  - split; [reflexivity|split].
    + intros rc' [<-|[]]. lia.
    + intros j rc' Hj. lia.
  - exists i, b. split; [exact Hn|].
    unfold find_closest_prefix_suffix. cbn [closest_loop]. now rewrite E.
Qed.

Lemma real_cov_nonempty ps :
  covered ps -> ps <> [] -> real_cov_of_picks ps <> [].
Proof.
  destruct ps as [|p ps]; [congruence|]. intros Hc _.
  inversion Hc as [|? ? Hp _]; subst.
  destruct (covered_first p Hp) as (mv & rest & E).
  unfold real_cov_of_picks. cbn [flat_map]. unfold real_cov_of_pick.
  rewrite E. discriminate.
Qed.

(** The items of the segments of a group: zero-padded to the width of the
    end of their segment, with the prefix and the suffix of the nearest
    real coverage value. *)
Lemma missing_item_shape s e m inc ex V rcs sg mi :
  1 <= inc -> rcs <> [] ->
  In sg (map (fill_segment rcs) (group_segments s e m inc ex V)) ->
  In mi (missing_items sg) ->
  padded mi = Py.zfill (Py.str (val mi)) (Py.len (Py.str (end_val sg))) /\
  start_val sg <= val mi <= end_val sg /\
  exists i rc,
    nearest_first (val mi) rcs i rc /\
    prefix mi = rc_prefix rc /\ suffix mi = rc_suffix rc.
Proof.
  intros Hinc Hne Hsg Hmi.
  apply in_map_iff in Hsg as (sg0 & <- & Hsg0).
  assert (Hp : is_pure m inc ex sg0).
  { unfold group_segments in Hsg0. destruct V as [|x V]; [destruct Hsg0|].
    apply filter_In in Hsg0 as [Hsg0 _].
    pose proof (candidates_pure m inc ex (sequence_start s m x)
                  (sequence_end e m (last (x :: V) 0)) (x :: V)) as F.
    rewrite Forall_forall in F. auto. }
  destruct Hp as (b & st & ed & ->).
  cbn [fill_segment pure_segment missing_items end_val start_val] in Hmi |- *.
  rewrite map_map in Hmi. apply in_map_iff in Hmi as (v & <- & Hv).
  cbn [fill_prefix missing_at val padded prefix suffix].
  split; [reflexivity|]. split; [now apply (in_run_values inc Hinc)|].
  destruct (find_closest_nearest v rcs Hne) as (i & rc & Hn & E).
  exists i, rc. rewrite E. auto.
Qed.

(** C4: for every missing value of every segment that detection returns,
    the padded form is the value zero-padded to the width of the end
    value of its segment, and the prefix and suffix are those of the real
    coverage value at the least absolute distance, the first seen among
    equals. The items [img_001.png], [img_002.png], [img_005.png] with the
    policy [first] and the increment 1 give one internal segment 3..4 of
    count 2 with the names [img_003.png] and [img_004.png]. *)
Theorem missing_items_reconstruction :
  (forall g s e m inc ex V,
     1 <= inc -> covered (picks g) -> observed (picks g) V ->
     exists r,
       (forall fuel, (Z.to_nat (num_missing (result_stats r)) <= fuel)%nat ->
          detect_breaks_in_group s e m inc ex fuel g = Ok r) /\
       forall sg mi, In sg (segments r) -> In mi (missing_items sg) ->
         padded mi = Py.zfill (Py.str (val mi)) (Py.len (Py.str (end_val sg))) /\
         exists i rc,
           nearest_first (val mi) (real_cov_of_picks (picks g)) i rc /\
           prefix mi = rc_prefix rc /\ suffix mi = rc_suffix rc) /\
  (exists r,
     gather first_policy_args 2 CheckFiles image_files [] = Ok [r] /\
     map (fun sg => (run_of sg, count sg,
                     map reconstruct_filename (missing_items sg)))
         (segments r)
     = [((Internal, 3, 4), 2, ["img_003.png"; "img_004.png"])]).
Proof.
  split.
  - intros g s e m inc ex V Hinc Hc Ho.
    destruct (detect_total s e m inc ex g V Hinc Hc Ho) as (r & Hr & _ & Hs & _).
    exists r. split; [exact Hr|]. intros sg mi Hsg Hmi. rewrite Hs in Hsg.
    assert (Hne : real_cov_of_picks (picks g) <> []).
    { apply real_cov_nonempty; [exact Hc|]. intros Hnil.
      rewrite Hnil in Ho. destruct Ho as [_ Hin].
      destruct V as [|x V].
      - unfold group_segments in Hsg. destruct Hsg.
      - destruct (proj1 (Hin x) (or_introl eq_refl)) as (p & [] & _). }
    destruct (missing_item_shape s e m inc ex V _ sg mi Hinc Hne Hsg Hmi)
      as (Hpad & _ & Hnear).
    split; assumption.
  - eexists. split; [vm_compute; reflexivity|reflexivity].
Qed.

Lemma missing_items_reconstruction_witness :
  exists r,
    (forall fuel, (Z.to_nat (num_missing (result_stats r)) <= fuel)%nat ->
       detect_breaks_in_group None None None 1 true fuel boundary_group = Ok r) /\
    forall sg mi, In sg (segments r) -> In mi (missing_items sg) ->
      padded mi = Py.zfill (Py.str (val mi)) (Py.len (Py.str (end_val sg))) /\
      exists i rc,
        nearest_first (val mi) (real_cov_of_picks (picks boundary_group)) i rc /\
        prefix mi = rc_prefix rc /\ suffix mi = rc_suffix rc.
Proof.
  apply (proj1 missing_items_reconstruction boundary_group None None None 1 true
           [105; 110]).
  - lia.
  - repeat constructor; discriminate.
  - exact (observed_computed (picks boundary_group)).
Defined.

(** ** Sorting *)

Lemma key_lt_asym a b : Py.key_lt a b = true -> Py.key_lt b a = false.
Proof.
  unfold Py.key_lt. intros H.
  apply orb_true_iff in H as [H|H].
  - apply Z.ltb_lt in H. apply orb_false_iff. split.
    + apply Z.ltb_ge. lia.
    + apply andb_false_iff. left. apply Z.eqb_neq. lia.
  - apply andb_true_iff in H as [E H]. apply Z.eqb_eq in E.
    apply orb_false_iff. split; [apply Z.ltb_ge; lia|].
    apply andb_false_iff. right.
    unfold String.ltb in *. rewrite String.compare_antisym.
    destruct (String.compare (snd a) (snd b)); simpl; congruence.
Qed.

Lemma key_not_lt_le a b : Py.key_lt b a = false -> key_le a b.
Proof.
  unfold Py.key_lt, key_le. intros H.
  apply orb_false_iff in H as [H1 H2]. apply Z.ltb_ge in H1.
  destruct (Z.eq_dec (fst a) (fst b)) as [E|E]; [right|left; lia].
  split; [exact E|].
  rewrite E, Z.eqb_refl in H2. simpl in H2.
  unfold String.ltb in H2. unfold String.leb.
  rewrite String.compare_antisym.
  destruct (String.compare (snd b) (snd a)); simpl; congruence.
Qed.

Section Sorting.

Context {A : Type}.

Let not_after (x y : Py.key * A) : Prop := Py.key_lt (fst y) (fst x) = false.

Lemma insert_keyed_perm (x : Py.key * A) l :
  Permutation (x :: l) (Py.insert_keyed x l).
Proof.
  induction l as [|y l IH]; simpl; [reflexivity|].
  destruct (Py.key_lt (fst y) (fst x)); [|reflexivity].
  rewrite perm_swap. now constructor.
Qed.

Lemma sort_keyed_perm (l : list (Py.key * A)) : Permutation l (Py.sort_keyed l).
Proof.
  induction l as [|x l IH]; simpl; [reflexivity|].
  rewrite <- insert_keyed_perm. now constructor.
Qed.

Lemma insert_keyed_sorted (x : Py.key * A) l :
  Sorted not_after l -> Sorted not_after (Py.insert_keyed x l).
Proof.
  induction 1 as [|y l Hl IH Hhd]; simpl; [repeat constructor|].
  destruct (Py.key_lt (fst y) (fst x)) eqn:E.
  - constructor; [exact IH|].
    destruct l as [|z l]; simpl.
    + constructor. now apply key_lt_asym.
    + destruct (Py.key_lt (fst z) (fst x)).
      * inversion Hhd; subst. now constructor.
      * constructor. now apply key_lt_asym.
  - constructor; [now constructor|]. constructor. exact E.
Qed.

Lemma sort_keyed_sorted (l : list (Py.key * A)) : Sorted not_after (Py.sort_keyed l).
Proof.
  induction l as [|x l IH]; simpl; [constructor|].
  now apply insert_keyed_sorted.
Qed.

(** [list.sort(key=f)] when no key raises: a permutation, in the order
    of the keys. *)
Lemma sort_by_key_sorted (f : A -> res Py.key) (kf : A -> Py.key) (l : list A) :
  (forall a, In a l -> f a = Ok (kf a)) ->
  exists sorted,
    Py.sort_by_key f l = Ok sorted /\
    Permutation l sorted /\
    Sorted (fun a b => key_le (kf a) (kf b)) sorted.
Proof.
  intros Hf. unfold Py.sort_by_key.
  rewrite (mapM_ok _ (fun a => (kf a, a))).
  2:{ intros a Ha. now rewrite (Hf a Ha). }
  cbn [bind]. eexists. split; [reflexivity|]. split.
  - rewrite <- (map_id l) at 1.
    rewrite <- (map_map (fun a => (kf a, a)) snd).
    apply Permutation_map, sort_keyed_perm.
  - pose proof (sort_keyed_sorted (map (fun a => (kf a, a)) l)) as S.
    assert (C : Forall (fun x => fst x = kf (snd x))
                       (Py.sort_keyed (map (fun a => (kf a, a)) l))).
    { apply Forall_forall. intros x Hx.
      apply (Permutation_in _ (Permutation_sym (sort_keyed_perm _))) in Hx.
      apply in_map_iff in Hx as (a & <- & _). reflexivity. }
    induction S as [|x L HL IH Hhd]; [constructor|].
    inversion C as [|? ? Hx CL]; subst. cbn [map]. constructor; [auto|].
    destruct Hhd as [|y L' Hxy]; cbn [map]; constructor.
    inversion CL as [|? ? Hy _]; subst.
    apply key_not_lt_le. rewrite <- Hx, <- Hy. exact Hxy.
Qed.

End Sorting.

Lemma pick_key_covered p :
  coverage p <> [] -> pick_key p = Ok (pick_rep p, name (pick_item p)).
Proof.
  intros H. destruct (covered_first p H) as (v & l & E).
  unfold pick_key, pick_rep, rep. now rewrite E.
Qed.

Lemma sort_picks ps :
  covered ps ->
  exists sorted,
    Py.sort_by_key pick_key ps = Ok sorted /\
    Permutation ps sorted /\ Sorted pick_le sorted.
Proof.
  intros Hc.
  apply (sort_by_key_sorted pick_key (fun p => (pick_rep p, name (pick_item p)))).
  intros p Hp. apply pick_key_covered.
  unfold covered in Hc. rewrite Forall_forall in Hc. auto.
Qed.

(** ** Splitting into groups *)

Section Split.

Context {A : Type}.
Variable cut : A -> A -> bool.

Lemma split_where_step x y l :
  split_where cut (x :: y :: l)
  = if cut x y
    then [x] :: split_where cut (y :: l)
    else match split_where cut (y :: l) with
         | run :: runs => (x :: run) :: runs
         | [] => [[x]]
         end.
Proof. reflexivity. Qed.

Lemma split_where_cons x l : exists run runs, split_where cut (x :: l) = run :: runs.
Proof.
  destruct l as [|y l]; [now exists [x], []|].
  rewrite split_where_step. destruct (cut x y); [now eexists _, _|].
  destruct (split_where cut (y :: l)); now eexists _, _.
Qed.

Lemma split_where_concat l : List.concat (split_where cut l) = l.
Proof.
  induction l as [|x l IH]; [reflexivity|].
  destruct l as [|y l]; [reflexivity|].
  rewrite split_where_step. destruct (cut x y).
  - cbn [List.concat app]. now rewrite IH.
  - destruct (split_where_cons y l) as (run & runs & E).
    rewrite E in IH |- *. cbn [List.concat] in IH |- *.
    now rewrite <- app_comm_cons, IH.
Qed.

Lemma split_where_nonempty l : Forall (fun run => run <> []) (split_where cut l).
Proof.
  induction l as [|x l IH]; [constructor|].
  destruct l as [|y l]; [repeat constructor; discriminate|].
  rewrite split_where_step. destruct (cut x y).
  - constructor; [discriminate|exact IH].
  - destruct (split_where cut (y :: l)) as [|run runs].
    + repeat constructor; discriminate.
    + inversion IH; subst. constructor; [discriminate|assumption].
Qed.

Lemma split_where_never l :
  (forall x y, cut x y = false) -> l <> [] -> split_where cut l = [l].
Proof.
  intros Hnever. induction l as [|x l IH]; [congruence|]. intros _.
  destruct l as [|y l]; [reflexivity|].
  rewrite split_where_step, Hnever.
  rewrite IH by discriminate. reflexivity.
Qed.

Lemma split_where_head x l :
  exists run runs, split_where cut (x :: l) = (x :: run) :: runs.
Proof.
  destruct l as [|y l]; [now exists [], []|].
  rewrite split_where_step. destruct (cut x y); [now eexists _, _|].
  destruct (split_where cut (y :: l)); now eexists _, _.
Qed.

(** No cut falls inside a run. *)
Lemma split_where_inside l :
  Forall (fun run => forall p, In p (neighbours run) -> cut (fst p) (snd p) = false)
         (split_where cut l).
Proof.
  induction l as [|x l IH]; [constructor|].
  destruct l as [|y l]; [repeat constructor; intros p []|].
  rewrite split_where_step. destruct (cut x y) eqn:E.
  - constructor; [intros p []|exact IH].
  - destruct (split_where_head y l) as (run & runs & Er).
    rewrite Er in IH |- *. inversion IH as [|? ? Hrun Hruns]; subst.
    constructor; [|exact Hruns].
    intros p [<-|Hp]; [exact E|]. apply Hrun. exact Hp.
Qed.

(** A cut separates every run from the next one. *)
Lemma split_where_between l d :
  Forall (fun rr => cut (last (fst rr) d) (hd d (snd rr)) = true)
         (neighbours (split_where cut l)).
Proof.
  induction l as [|x l IH]; [constructor|].
  destruct l as [|y l]; [constructor|].
  rewrite split_where_step.
  destruct (split_where_head y l) as (run & runs & Er).
  rewrite Er in IH |- *. destruct (cut x y) eqn:E.
  - cbn [neighbours]. constructor; [exact E|exact IH].
  - destruct runs as [|r2 runs]; [constructor|].
    cbn [neighbours] in IH |- *. inversion IH as [|? ? H1 H2]; subst.
    constructor; [|exact H2]. cbn [fst snd] in H1 |- *. exact H1.
Qed.

End Split.

Lemma in_split_where {A : Type} (cut : A -> A -> bool) l run x :
  In run (split_where cut l) -> In x run -> In x l.
Proof.
  intros Hr Hx. rewrite <- (split_where_concat cut l).
  apply List.in_concat. eauto.
Qed.

Section SubgroupFacts.

Variable dkey : string.
Variable kind : artifact.
Variable t : Z.

Let cut (p q : pick) : bool := pick_rep q - pick_rep p >? t.

Lemma pick_first p : coverage p <> [] -> Py.first (coverage p) = Ok (pick_rep p).
Proof.
  intros H. destruct (covered_first p H) as (v & l & E).
  unfold pick_rep, rep. now rewrite E.
Qed.

Lemma subgroups_loop_split rest : forall groups c0 l idx,
  covered rest ->
  exists groups' c' idx',
    subgroups_loop dkey kind t rest groups (Some (pick_rep l)) (c0 ++ [l]) idx
    = Ok (groups', c', idx') /\
    c' <> [] /\
    map picks (groups' ++ [dir_group dkey kind idx' c'])
    = map picks groups
      ++ match split_where cut (l :: rest) with
         | run :: runs => (c0 ++ run) :: runs
         | [] => []
         end /\
    (Forall (fun g => directory g = Some dkey) groups ->
     Forall (fun g => directory g = Some dkey) groups').
Proof.
  induction rest as [|p rest IH]; intros groups c0 l idx Hc.
  - exists groups, (c0 ++ [l]), idx. cbn [subgroups_loop split_where].
    split; [reflexivity|]. split; [now destruct c0|].
    split; [|auto]. now rewrite map_app.
  - inversion Hc as [|? ? Hp Hrest]; subst.
    cbn [subgroups_loop]. rewrite (pick_first p Hp). cbn [bind].
    rewrite split_where_step.
    change (pick_rep p - pick_rep l >? t) with (cut l p).
    destruct (cut l p) eqn:E.
    + destruct (IH (groups ++ [dir_group dkey kind idx (c0 ++ [l])]) [] p (idx + 1) Hrest)
        as (groups' & c' & idx' & El & Hne & Hm & Hd).
      cbn [app] in El. exists groups', c', idx'.
      split; [exact El|]. split; [exact Hne|]. split.
      * rewrite Hm. destruct (split_where_cons cut p rest) as (run & runs & Er).
        rewrite Er. rewrite map_app, <- app_assoc. reflexivity.
      * intros Hg. apply Hd. apply Forall_app. split; [exact Hg|].
        repeat constructor.
    + destruct (IH groups (c0 ++ [l]) p idx Hrest)
        as (groups' & c' & idx' & El & Hne & Hm & Hd).
      exists groups', c', idx'.
      split; [exact El|]. split; [exact Hne|]. split; [|exact Hd].
      rewrite Hm. destruct (split_where_cons cut p rest) as (run & runs & Er).
      rewrite Er. now rewrite <- app_assoc.
Qed.

End SubgroupFacts.

(** With a threshold that is not zero, the groups of a directory are the
    runs of its picks cut at the gaps greater than the threshold. *)
Lemma build_subgroups_split dkey kind ps t :
  covered ps -> t <> 0 ->
  exists gs,
    build_subgroups_in_dir dkey kind ps (Some t) = Ok gs /\
    map picks gs = split_at_gaps pick_rep t ps /\
    Forall (fun g => directory g = Some dkey) gs.
Proof.
  intros Hc Ht. unfold build_subgroups_in_dir, Py.truthy.
  destruct (t =? 0) eqn:E; [apply Z.eqb_eq in E; congruence|]. cbn [negb].
  destruct ps as [|p rest].
  - exists []. repeat split. constructor.
  - inversion Hc as [|? ? Hp Hrest]; subst.
    cbn [subgroups_loop]. rewrite (pick_first p Hp). cbn [bind].
    destruct (subgroups_loop_split dkey kind t rest [] [] p 0 Hrest)
      as (groups' & c' & idx' & El & Hne & Hm & Hd).
    cbn [app] in El. rewrite El. cbn [bind].
    exists (groups' ++ [dir_group dkey kind idx' c']).
    split; [destruct c'; [congruence|reflexivity]|]. split.
    + rewrite Hm. unfold split_at_gaps. cbn [map app].
      destruct (split_where_cons (fun x y => pick_rep y - pick_rep x >? t) p rest)
        as (run & runs & Er).
      now rewrite Er.
    + apply Forall_app. split; [apply Hd; constructor|repeat constructor].
Qed.

(** Without a threshold, or with the threshold 0, a directory is one
    group. *)
Lemma build_subgroups_single dkey kind ps threshold :
  Py.truthy threshold = false ->
  build_subgroups_in_dir dkey kind ps threshold = Ok [dir_group dkey kind 0 ps].
Proof. intros H. unfold build_subgroups_in_dir. now rewrite H. Qed.

Section FlatFacts.

Variable kind : artifact.
Variable threshold : option Z.

Lemma flat_first (x : flat_pick) :
  snd x <> [] -> Py.first (snd x) = Ok (flat_rep x).
Proof.
  unfold flat_rep, rep. destruct (snd x); [congruence|reflexivity].
Qed.

Lemma flat_loop_split rest : forall groups c0 l idx,
  flat_covered rest ->
  exists groups' c' idx',
    flat_loop kind threshold rest groups (Some (flat_rep l)) (c0 ++ [l]) idx
    = Ok (groups', c', idx') /\
    c' <> [] /\
    map picks (groups' ++ [flat_group kind idx' c'])
    = map picks groups
      ++ match split_where (flat_cut threshold) (l :: rest) with
         | run :: runs =>
             map pick_of_flat (c0 ++ run) :: map (map pick_of_flat) runs
         | [] => []
         end /\
    (Forall (fun g => directory g = None) groups ->
     Forall (fun g => directory g = None) groups').
Proof.
  induction rest as [|p rest IH]; intros groups c0 l idx Hc.
  - exists groups, (c0 ++ [l]), idx. cbn [flat_loop split_where].
    split; [reflexivity|]. split; [now destruct c0|].
    split; [|auto]. now rewrite map_app.
  - inversion Hc as [|? ? Hp Hrest]; subst.
    destruct p as [[dk it] cov]. cbn [snd] in Hp.
    cbn [flat_loop].
    pose proof (flat_first (dk, it, cov) Hp) as Hfirst. cbn [snd] in Hfirst.
    rewrite Hfirst. cbn [bind].
    rewrite split_where_step.
    change (Py.truthy threshold
            && match threshold with
               | Some t => flat_rep (dk, it, cov) - flat_rep l >? t
               | None => false
               end)
      with (flat_cut threshold l (dk, it, cov)).
    destruct (flat_cut threshold l (dk, it, cov)) eqn:E.
    + destruct (IH (groups ++ [flat_group kind idx (c0 ++ [l])]) []
                   (dk, it, cov) (idx + 1) Hrest)
        as (groups' & c' & idx' & El & Hne & Hm & Hd).
      cbn [app] in El. exists groups', c', idx'.
      split; [exact El|]. split; [exact Hne|]. split.
      * rewrite Hm.
        destruct (split_where_cons (flat_cut threshold) (dk, it, cov) rest)
          as (run & runs & Er).
        rewrite Er. rewrite map_app, <- app_assoc. reflexivity.
      * intros Hg. apply Hd. apply Forall_app. split; [exact Hg|].
        repeat constructor.
    + destruct (IH groups (c0 ++ [l]) (dk, it, cov) idx Hrest)
        as (groups' & c' & idx' & El & Hne & Hm & Hd).
      exists groups', c', idx'.
      split; [exact El|]. split; [exact Hne|]. split; [|exact Hd].
      rewrite Hm.
      destruct (split_where_cons (flat_cut threshold) (dk, it, cov) rest)
        as (run & runs & Er).
      rewrite Er. now rewrite <- app_assoc.
Qed.

Lemma flat_key_covered (x : flat_pick) :
  snd x <> [] -> flat_key x = Ok (flat_rep x, name (snd (fst x))).
Proof.
  destruct x as [[dk it] cov]. cbn [snd fst]. intros H.
  unfold flat_key, flat_rep, rep. cbn [snd].
  destruct cov; [congruence|reflexivity].
Qed.

(** Cross-directory grouping: the pool is sorted, then cut. *)
Lemma build_groups_from_flat_split flat :
  flat_covered flat ->
  exists sorted gs,
    Py.sort_by_key flat_key flat = Ok sorted /\
    Permutation flat sorted /\ Sorted flat_le sorted /\
    build_groups_from_flat flat threshold kind = Ok gs /\
    map picks gs
    = map (map pick_of_flat) (split_where (flat_cut threshold) sorted) /\
    Forall (fun g => directory g = None) gs.
Proof.
  intros Hc.
  destruct (sort_by_key_sorted flat_key
              (fun x => (flat_rep x, name (snd (fst x)))) flat)
    as (sorted & Es & Hperm & Hsorted).
  { intros x Hx. apply flat_key_covered.
    unfold flat_covered in Hc. rewrite Forall_forall in Hc. auto. }
  assert (Hcs : flat_covered sorted).
  { unfold flat_covered in *. rewrite Forall_forall in *.
    intros x Hx. apply Hc.
    now apply (Permutation_in _ (Permutation_sym Hperm)). }
  unfold build_groups_from_flat. rewrite Es. cbn [bind].
  destruct sorted as [|p rest].
  - exists [], []. repeat split; auto.
  - inversion Hcs as [|? ? Hp Hrest]; subst.
    destruct p as [[dk it] cov]. cbn [snd] in Hp.
    cbn [flat_loop].
    pose proof (flat_first (dk, it, cov) Hp) as Hfirst. cbn [snd] in Hfirst.
    rewrite Hfirst. cbn [bind].
    destruct (flat_loop_split rest [] [] (dk, it, cov) 0 Hrest)
      as (groups' & c' & idx' & El & Hne & Hm & Hd).
    cbn [app] in El.
    exists ((dk, it, cov) :: rest), (groups' ++ [flat_group kind idx' c']).
    split; [reflexivity|]. split; [exact Hperm|]. split; [exact Hsorted|].
    split.
    { unfold flat_pick in *. rewrite El. cbn [bind].
      destruct c'; [congruence|reflexivity]. }
    split.
    + rewrite Hm. cbn [map app].
      destruct (split_where_cons (flat_cut threshold) (dk, it, cov) rest)
        as (run & runs & Er).
      unfold flat_pick in *. now rewrite !Er.
    + apply Forall_app. split; [apply Hd; constructor|repeat constructor].
Qed.

End FlatFacts.

(** ** Totality of extraction and grouping *)

Section ExtractionFacts.

Variable mr : bool.
Variable rx : Py.pattern.
Hypothesis safe : mr = false \/ forall nm, numeric_matches rx nm.

Lemma coverage_nonempty nm seed :
  exists c, coverage_for_block mr rx nm seed = Ok c /\ c <> [].
Proof.
  destruct (coverage_for_block_total mr rx nm seed) as (c & E & Hin & _).
  - destruct safe as [H|H]; [now left|right; apply H].
  - exists c. split; [exact E|]. intros ->. destruct Hin.
Qed.

Lemma all_loop_total nm blocks_i : forall result,
  Forall (fun c => c <> []) result ->
  exists covs, all_loop mr rx nm blocks_i result = Ok covs /\
               Forall (fun c => c <> []) covs.
Proof.
  induction blocks_i as [|b l IH]; intros result Hr; cbn [all_loop].
  - exists result. auto.
  - destruct (coverage_nonempty nm b) as (c & E & Hne). rewrite E. cbn [bind].
    apply IH. destruct c; [congruence|].
    apply Forall_app. split; [exact Hr|]. repeat constructor. discriminate.
Qed.

Lemma parse_coverage_list_total it bp :
  exists covs, parse_coverage_list mr rx it bp = Ok covs /\
               Forall (fun c => c <> []) covs.
Proof.
  unfold parse_coverage_list. rewrite blocks_parse. unfold block_values.
  destruct (Py.findall_digits (name it)) as [|b bs]; [exists []; auto|].
  cbn [bind map].
  assert (One : forall v,
            exists covs,
              (c <- coverage_for_block mr rx (name it) v ;; Ok (singleton_if c))
              = Ok covs /\ Forall (fun c => c <> []) covs).
  { intros v. destruct (coverage_nonempty (name it) v) as (c & E & Hne).
    rewrite E. cbn [bind]. exists [c]. split.
    - destruct c; [congruence|reflexivity].
    - repeat constructor. exact Hne. }
  destruct bp.
  - cbn [Py.first bind]. apply One.
  - cbn [Py.max bind]. apply One.
  - apply all_loop_total. constructor.
  - rewrite <- all_loop_advanced_loop. apply all_loop_total. constructor.
Qed.

End ExtractionFacts.

Section GroupingFacts.

Variable a : args.
Variable kind : artifact.
Hypothesis safe : extraction_safe a.

Lemma coverages_of_items_total items :
  exists l, coverages_of_items a items = Ok l /\
            Forall (fun ic => snd ic <> []) l.
Proof.
  induction items as [|it items (l & E & Hl)]; cbn [coverages_of_items].
  - exists []. auto.
  - destruct (item_passes_filter it (arg_pattern a) (arg_filter a)); [|eauto].
    destruct (parse_coverage_list_total (multi_range a) (range_regex a) safe
                it (block_policy a)) as (covs & Ec & Hc).
    rewrite Ec, E. cbn [bind]. eexists. split; [reflexivity|].
    apply Forall_app. split; [|exact Hl].
    rewrite Forall_map. cbn [snd]. exact Hc.
Qed.

Lemma flatten_collection_total coll :
  exists flat, flatten_collection a coll = Ok flat /\ flat_covered flat.
Proof.
  induction coll as [|[dkey items] coll (flat & E & Hf)]; cbn [flatten_collection].
  - exists []. split; [reflexivity|constructor].
  - destruct (coverages_of_items_total items) as (l & El & Hl).
    rewrite El, E. cbn [bind]. eexists. split; [reflexivity|].
    apply Forall_app. split; [|exact Hf].
    rewrite Forall_map. cbn [snd]. exact Hl.
Qed.

Lemma build_subgroups_total dkey ps threshold :
  covered ps ->
  exists gs,
    build_subgroups_in_dir dkey kind ps threshold = Ok gs /\
    Forall (fun g => covered (picks g)) gs /\
    Forall (fun g => directory g = Some dkey) gs.
Proof.
  intros Hc. destruct (Py.truthy threshold) eqn:Et.
  - destruct threshold as [t|]; [|discriminate].
    assert (Ht : t <> 0).
    { intros ->. discriminate. }
    destruct (build_subgroups_split dkey kind ps t Hc Ht) as (gs & E & Hm & Hd).
    exists gs. split; [exact E|]. split; [|exact Hd].
    apply Forall_forall. intros g Hg. apply Forall_forall. intros p Hp.
    unfold covered in Hc. rewrite Forall_forall in Hc. apply Hc.
    apply (in_split_where (fun x y => pick_rep y - pick_rep x >? t) ps (picks g)).
    + unfold split_at_gaps in Hm. rewrite <- Hm. now apply in_map.
    + exact Hp.
  - rewrite (build_subgroups_single dkey kind ps threshold Et).
    eexists. split; [reflexivity|]. split; repeat constructor. exact Hc.
Qed.

Lemma group_per_directory_total coll :
  exists gs, group_per_directory a kind coll = Ok gs /\
             Forall (fun g => covered (picks g)) gs.
Proof.
  induction coll as [|[dkey items] coll (gs & E & Hg)]; cbn [group_per_directory].
  - exists []. auto.
  - destruct (coverages_of_items_total items) as (l & El & Hl).
    rewrite El. cbn [bind].
    destruct (map (fun ic => mk_pick (fst ic) (snd ic)) l) as [|p ps] eqn:Ep;
      [eauto|].
    rewrite <- Ep.
    assert (Hc : covered (map (fun ic => mk_pick (fst ic) (snd ic)) l)).
    { unfold covered. rewrite Forall_map. exact Hl. }
    destruct (sort_picks _ Hc) as (sorted & Es & Hperm & _).
    rewrite Es. cbn [bind].
    assert (Hcs : covered sorted).
    { unfold covered in *. rewrite Forall_forall in *. intros x Hx.
      apply Hc. now apply (Permutation_in _ (Permutation_sym Hperm)). }
    destruct (build_subgroups_total dkey sorted (group_threshold a) Hcs)
      as (gs' & Eb & Hgs' & _).
    rewrite Eb, E. cbn [bind]. eexists. split; [reflexivity|].
    apply Forall_app. auto.
Qed.

Lemma flat_groups_covered (threshold : option Z) gs sorted :
  flat_covered sorted ->
  map picks gs = map (map pick_of_flat) (split_where (flat_cut threshold) sorted) ->
  Forall (fun g => covered (picks g)) gs.
Proof.
  intros Hc Hm. apply Forall_forall. intros g Hg.
  assert (Hin : In (picks g) (map picks gs)) by now apply in_map.
  rewrite Hm in Hin. apply in_map_iff in Hin as (run & Er & Hrun).
  rewrite <- Er. unfold covered. rewrite Forall_map.
  apply Forall_forall. intros x Hx.
  assert (In x sorted) by (eapply in_split_where; eauto).
  unfold flat_covered in Hc. rewrite Forall_forall in Hc.
  destruct x as [[dk it] cov]. cbn [pick_of_flat coverage].
  exact (Hc _ H).
Qed.

(** Grouping never raises when extraction cannot, and the coverage set
    of every pick of every group is non-empty. *)
Lemma group_items_total coll :
  exists gs, group_items a kind coll = Ok gs /\
             Forall (fun g => covered (picks g)) gs.
Proof.
  unfold group_items. destruct (cross_dir_grouping a).
  - destruct (flatten_collection_total coll) as (flat & E & Hf).
    rewrite E. cbn [bind].
    destruct (build_groups_from_flat_split kind (group_threshold a) flat Hf)
      as (sorted & gs & _ & Hperm & _ & Eb & Hm & _).
    exists gs. split; [exact Eb|].
    apply (flat_groups_covered (group_threshold a) gs sorted); auto.
    unfold flat_covered in *. rewrite Forall_forall in *. intros x Hx.
    apply Hf. now apply (Permutation_in _ (Permutation_sym Hperm)).
  - apply group_per_directory_total.
Qed.

End GroupingFacts.

(** ** Groups *)

(** Without a threshold every directory that has a pick is one group. *)
Lemma group_per_directory_single a kind coll :
  extraction_safe a -> Py.truthy (group_threshold a) = false ->
  exists gs,
    group_per_directory a kind coll = Ok gs /\
    Forall2 (group_of_directory a) gs (filter (has_picks a) coll).
Proof.
  intros safe Ht.
  induction coll as [|[dkey items] coll (gs & E & Hg)]; cbn [group_per_directory].
  - exists []. split; [reflexivity|constructor].
  - destruct (coverages_of_items_total a safe items) as (l & El & Hl).
    cbn [filter]. unfold has_picks at 1, picks_of_items. cbn [snd].
    rewrite El. cbn [bind].
    destruct (map (fun ic => mk_pick (fst ic) (snd ic)) l) as [|p ps] eqn:Ep;
      [eauto|].
    rewrite <- Ep.
    assert (Hc : covered (map (fun ic => mk_pick (fst ic) (snd ic)) l)).
    { unfold covered. rewrite Forall_map. exact Hl. }
    destruct (sort_picks _ Hc) as (sorted & Es & Hperm & Hsorted).
    rewrite Es. cbn [bind].
    rewrite (build_subgroups_single dkey kind sorted _ Ht), E. cbn [bind app].
    eexists. split; [reflexivity|]. constructor; [|exact Hg].
    split; [reflexivity|]. cbn [snd dir_group picks].
    exists (map (fun ic => mk_pick (fst ic) (snd ic)) l).
    unfold picks_of_items. rewrite El. auto.
Qed.

(** Without a threshold the pool of all directories is one group. *)
Lemma group_cross_directory_single a kind coll :
  extraction_safe a -> Py.truthy (group_threshold a) = false ->
  exists flat gs,
    flatten_collection a coll = Ok flat /\
    build_groups_from_flat flat (group_threshold a) kind = Ok gs /\
    (flat = [] -> gs = []) /\
    (flat <> [] ->
     exists g sorted,
       gs = [g] /\ directory g = None /\
       Permutation flat sorted /\ Sorted flat_le sorted /\
       picks g = map pick_of_flat sorted).
Proof.
  intros safe Ht.
  destruct (flatten_collection_total a safe coll) as (flat & E & Hf).
  destruct (build_groups_from_flat_split kind (group_threshold a) flat Hf)
    as (sorted & gs & _ & Hperm & Hsorted & Eb & Hm & Hd).
  exists flat, gs. split; [exact E|]. split; [exact Eb|].
  assert (Hnever : forall x y, flat_cut (group_threshold a) x y = false).
  { intros x y. unfold flat_cut. now rewrite Ht. }
  split.
  - intros ->. apply Permutation_nil in Hperm. subst sorted.
    destruct gs; [reflexivity|discriminate].
  - intros Hne.
    assert (Hs : sorted <> []).
    { intros ->. apply Permutation_sym, Permutation_nil in Hperm. congruence. }
    rewrite (split_where_never _ sorted Hnever Hs) in Hm.
    destruct gs as [|g [|g' gs]]; try discriminate.
    exists g, sorted. injection Hm as Hm.
    inversion Hd; subst. repeat split; auto.
Qed.

(** C5, as stated: a configured threshold of 0 does not split at the
    gaps that exceed it. The four picks with the representative values
    1, 2, 50, 51 stay in one group, although every gap between them is
    greater than 0. *)
Lemma zero_threshold_one_group :
  exists gs,
    group_items (threshold_args (Some 0)) Files takes_files = Ok gs /\
    map (fun g => map pick_rep (picks g)) gs = [[1; 2; 50; 51]] /\
    map (map pick_rep) (split_at_gaps pick_rep 0 (List.concat (map picks gs)))
    = [[1]; [2]; [50]; [51]].
Proof. eexists. split; [vm_compute; reflexivity|]. split; reflexivity. Qed.

(** C5, amended: the picks of a directory are sorted by (representative
    value, name); with a threshold that is not 0 they are split into a
    new group exactly where the gap between successive representative
    values exceeds the threshold; the threshold 5 and the values 1, 2,
    50, 51 give the groups {1,2} and {50,51}; without a threshold, or
    with the threshold 0, each directory that has a pick is one group,
    and in cross-directory mode the pool, when not empty, is one group. *)
Theorem per_directory_grouping :
  (forall ps, covered ps ->
     exists sorted,
       Py.sort_by_key pick_key ps = Ok sorted /\
       Permutation ps sorted /\ Sorted pick_le sorted) /\
  (forall dkey kind ps t, covered ps -> t <> 0 ->
     exists gs,
       build_subgroups_in_dir dkey kind ps (Some t) = Ok gs /\
       map picks gs = split_at_gaps pick_rep t ps /\
       Forall (fun g => directory g = Some dkey) gs) /\
  (forall t ps,
     let runs := split_at_gaps pick_rep t ps in
     List.concat runs = ps /\
     Forall (fun r => r <> []) runs /\
     Forall (fun r => forall pq, In pq (neighbours r) ->
                        pick_rep (snd pq) - pick_rep (fst pq) <= t) runs /\
     Forall (fun rr => forall d,
               pick_rep (hd d (snd rr)) - pick_rep (last (fst rr) d) > t)
            (neighbours runs)) /\
  (exists gs,
     group_items (threshold_args (Some 5)) Files takes_files = Ok gs /\
     map (fun g => map pick_rep (picks g)) gs = [[1; 2]; [50; 51]]) /\
  (forall a kind coll,
     extraction_safe a -> Py.truthy (group_threshold a) = false ->
     cross_dir_grouping a = false ->
     exists gs,
       group_items a kind coll = Ok gs /\
       Forall2 (group_of_directory a) gs (filter (has_picks a) coll)) /\
  (forall a kind coll,
     extraction_safe a -> Py.truthy (group_threshold a) = false ->
     cross_dir_grouping a = true ->
     exists flat gs,
       flatten_collection a coll = Ok flat /\
       group_items a kind coll = Ok gs /\
       (flat = [] -> gs = []) /\
       (flat <> [] ->
        exists g sorted,
          gs = [g] /\ directory g = None /\
          Permutation flat sorted /\ Sorted flat_le sorted /\
          picks g = map pick_of_flat sorted)).
Proof.
  split; [exact sort_picks|].
  split; [exact build_subgroups_split|].
  split.
  { intros t ps runs. subst runs. unfold split_at_gaps.
    split; [apply split_where_concat|]. split; [apply split_where_nonempty|].
    split.
    - eapply Forall_impl; [|apply split_where_inside].
      intros r Hr pq Hpq. specialize (Hr pq Hpq). cbn beta in Hr.
      rewrite Z.gtb_ltb in Hr. apply Z.ltb_ge in Hr. lia.
    - apply Forall_forall. intros rr Hrr d.
      pose proof (split_where_between
                    (fun x y : pick => pick_rep y - pick_rep x >? t) ps d) as F.
      rewrite Forall_forall in F. specialize (F rr Hrr). cbn beta in F.
      apply Z.gtb_lt in F. lia. }
  split; [eexists; split; [vm_compute; reflexivity|reflexivity]|].
  split.
  - intros a kind coll safe Ht Hx. unfold group_items. rewrite Hx.
    now apply group_per_directory_single.
  - intros a kind coll safe Ht Hx. unfold group_items. rewrite Hx.
    destruct (group_cross_directory_single a kind coll safe Ht)
      as (flat & gs & E & Eb & H1 & H2).
    exists flat, gs. rewrite E. cbn [bind]. auto.
Qed.

Lemma per_directory_grouping_witness :
  exists gs,
    build_subgroups_in_dir "/takes" Files
      [mk_pick (mk_item "" "take_1.wav" 10 false) [1];
       mk_pick (mk_item "" "take_9.wav" 10 false) [9]] (Some 5) = Ok gs /\
    map picks gs
    = split_at_gaps pick_rep 5
        [mk_pick (mk_item "" "take_1.wav" 10 false) [1];
         mk_pick (mk_item "" "take_9.wav" 10 false) [9]] /\
    Forall (fun g => directory g = Some "/takes") gs.
Proof.
  apply (proj1 (proj2 per_directory_grouping) "/takes" Files
           [mk_pick (mk_item "" "take_1.wav" 10 false) [1];
            mk_pick (mk_item "" "take_9.wav" 10 false) [9]] 5).
  - repeat constructor; discriminate.
  - lia.
Defined.

(** ** The run *)

Section RunTotal.

Variable a : args.
Hypothesis inc_pos : 1 <= increment a.

Lemma detect_all_total gs :
  Forall (fun g => covered (picks g)) gs ->
  exists rs,
    0 <= missing_total rs /\
    forall fuel, (Z.to_nat (missing_total rs) <= fuel)%nat ->
      detect_all a fuel gs = Ok rs.
Proof.
  induction 1 as [|g gs Hg _ (rs & H0 & IH)]; unfold detect_all.
  - exists []. split; [unfold missing_total; simpl; lia|reflexivity].
  - destruct (detect_total (start_num a) (end_num a) (mod_boundary a)
                (increment a) (explain a) g _ inc_pos Hg
                (observed_computed (picks g)))
      as (r & Hr & _ & _ & _ & Hn).
    exists (r :: rs). unfold missing_total in *. cbn [map fold_left].
    rewrite sum_from. split; [lia|].
    intros fuel Hf. cbn [mapM]. rewrite Hr by lia. cbn [bind].
    unfold detect_all in IH. rewrite IH by lia. reflexivity.
Qed.

Lemma missing_total_app rs1 rs2 :
  missing_total (rs1 ++ rs2) = missing_total rs1 + missing_total rs2.
Proof.
  unfold missing_total. rewrite map_app, fold_left_app.
  rewrite sum_from. reflexivity.
Qed.

Hypothesis safe : extraction_safe a.

(** The run returns as soon as the fuel covers the missing values that it
    reports. *)
Lemma gather_total check cf cd :
  exists rs,
    forall fuel, (Z.to_nat (missing_total rs) <= fuel)%nat ->
      gather a fuel check cf cd = Ok rs.
Proof.
  destruct (group_items_total a Files safe cf) as (gf & Ef & Hf).
  destruct (group_items_total a Dirs safe cd) as (gd & Ed & Hd).
  destruct (detect_all_total gf Hf) as (rf & Hf0 & Rf).
  destruct (detect_all_total gd Hd) as (rd & Hd0 & Rd).
  assert (Hnil : missing_total [] = 0) by reflexivity.
  unfold gather. rewrite Ef, Ed. cbn [bind].
  destruct check.
  - exists (rf ++ []). intros fuel Hfuel.
    rewrite missing_total_app, Hnil in Hfuel. rewrite Rf by lia. reflexivity.
  - exists ([] ++ rd). intros fuel Hfuel.
    rewrite missing_total_app, Hnil in Hfuel. cbn [bind].
    rewrite Rd by lia. reflexivity.
  - exists (rf ++ rd). intros fuel Hfuel.
    rewrite missing_total_app in Hfuel.
    rewrite Rf by lia. cbn [bind]. rewrite Rd by lia. reflexivity.
Qed.

End RunTotal.

(** ** Configurations that are not validated *)

Section ModulusZero.

Variable inc : Z.
Variable ex : bool.
Variable fuel : nat.

Lemma missing_at_zero b pad v :
  missing_at b ex (Some 0) pad v = missing_at b ex None pad v.
Proof. unfold missing_at. destruct ex, b; reflexivity. Qed.

Lemma missing_loop_zero b pad ed : forall n v items,
  missing_loop b ex (Some 0) inc n pad v ed items
  = missing_loop b ex None inc n pad v ed items.
Proof.
  induction n as [|n IH]; intros v items; cbn [missing_loop]; [reflexivity|].
  destruct (v <=? ed); [|reflexivity]. now rewrite missing_at_zero, IH.
Qed.

Lemma build_missing_segment_zero b st ed :
  build_missing_segment b ex (Some 0) inc fuel st ed
  = build_missing_segment b ex None inc fuel st ed.
Proof. unfold build_missing_segment. now rewrite missing_loop_zero. Qed.

Lemma internal_loop_zero V : forall indices segs,
  internal_loop (Some 0) inc ex fuel V indices segs
  = internal_loop None inc ex fuel V indices segs.
Proof.
  induction indices as [|i indices IH]; intros segs; cbn [internal_loop];
    [reflexivity|].
  destruct (nth (S i) V 0 - nth i V 0 >? inc); [|apply IH].
  rewrite build_missing_segment_zero.
  destruct (build_missing_segment Internal ex None inc fuel _ _); cbn [bind];
    [apply IH|reflexivity].
Qed.

(** A modulus of 0 has the effect of no modulus. *)
Lemma detect_modulus_zero s e g :
  detect_breaks_in_group s e (Some 0) inc ex fuel g
  = detect_breaks_in_group s e None inc ex fuel g.
Proof.
  unfold detect_breaks_in_group.
  destruct (picks g); [reflexivity|].
  destruct (scan_picks _ _ _ _ _ _) as [[[[all_ints rcs] ts] rc]|]; cbn [bind];
    [|reflexivity].
  destruct (IntSet.sorted all_ints) as [|actual_min V]; [reflexivity|].
  change (sequence_start s (Some 0) actual_min) with (sequence_start s None actual_min).
  change (sequence_end e (Some 0) (last (actual_min :: V) 0))
    with (sequence_end e None (last (actual_min :: V) 0)).
  unfold leading_part, trailing_part.
  destruct (sequence_start s None actual_min <? actual_min).
  - rewrite build_missing_segment_zero.
    destruct (build_missing_segment Leading ex None inc fuel _ _); cbn [bind];
      [|reflexivity].
    rewrite internal_loop_zero.
    destruct (internal_loop None inc ex fuel _ _ _); cbn [bind]; [|reflexivity].
    destruct (_ >? _); [|reflexivity].
    now rewrite build_missing_segment_zero.
  - cbn [bind]. rewrite internal_loop_zero.
    destruct (internal_loop None inc ex fuel _ _ _); cbn [bind]; [|reflexivity].
    destruct (_ >? _); [|reflexivity].
    now rewrite build_missing_segment_zero.
Qed.

End ModulusZero.

(** With an increment that is not positive the loop of a run that is not
    empty exhausts any fuel: it does not terminate. *)
Lemma nonpositive_increment_diverges b ex m inc st ed :
  inc <= 0 -> st <= ed ->
  forall fuel, build_missing_segment b ex m inc fuel st ed = Err OutOfFuel.
Proof.
  intros Hinc Hle fuel. unfold build_missing_segment.
  destruct (ed <? st) eqn:E; [apply Z.ltb_lt in E; lia|].
  assert (L : forall n v items, v <= ed ->
            missing_loop b ex m inc n (Py.len (Py.str ed)) v ed items
            = Err OutOfFuel).
  { induction n as [|n IH]; intros v items Hv; cbn [missing_loop];
      (destruct (v <=? ed) eqn:Ev; [|apply Z.leb_gt in Ev; lia]);
      [reflexivity|]. apply IH. lia. }
  now rewrite L.
Qed.

(** C2, as stated: the three kinds of invalid configuration are not
    detected, and results are produced for them. With the increment 0 a
    directory with one numbered file gives its (empty) result; with the
    modulus -100 and with the start 10 above the end 2 the internal gaps
    are reported. *)
Lemma invalid_configurations_processed :
  invalid_configuration (with_increment 0) /\
  invalid_configuration (with_modulus (-100)) /\
  invalid_configuration (with_bounds 10 2) /\
  (exists r, gather (with_increment 0) 0 CheckFiles one_file [] = Ok [r] /\
             segments r = []) /\
  (exists r, gather (with_modulus (-100)) 4 CheckFiles scan_files [] = Ok [r] /\
             map run_of (segments r) = [(Internal, 106, 109)]) /\
  (exists r, gather (with_bounds 10 2) 1 CheckFiles two_files [] = Ok [r] /\
             map run_of (segments r) = [(Internal, 2, 2)]).
Proof.
  split; [left; simpl; lia|].
  split; [right; left; exists (-100); simpl; split; [reflexivity|lia]|].
  split; [right; right; exists 10, 2; simpl; repeat split; lia|].
  repeat split; eexists; (split; [vm_compute; reflexivity|reflexivity]).
Qed.

Lemma no_exception_bind {A B : Type} (m : res A) (k : A -> res B) :
  no_exception m -> (forall x, m = Ok x -> no_exception (k x)) ->
  no_exception (bind m k).
Proof.
  destruct m as [x|e]; cbn [bind]; intros Hm Hk; [now apply Hk|exact Hm].
Qed.

Section NoException.

Variable start_opt end_opt modulus : option Z.
Variable inc : Z.
Variable ex : bool.

Lemma missing_loop_no_exception b pad ed : forall fuel v items,
  no_exception (missing_loop b ex modulus inc fuel pad v ed items).
Proof.
  induction fuel as [|fuel IH]; intros v items; cbn [missing_loop];
    destruct (v <=? ed); try exact I. apply IH.
Qed.

Lemma build_missing_segment_no_exception b fuel st ed :
  no_exception (build_missing_segment b ex modulus inc fuel st ed).
Proof.
  unfold build_missing_segment. destruct (ed <? st); [exact I|].
  apply no_exception_bind; [apply missing_loop_no_exception|]. intros; exact I.
Qed.

Lemma internal_loop_no_exception fuel V : forall indices segs,
  no_exception (internal_loop modulus inc ex fuel V indices segs).
Proof.
  induction indices as [|i indices IH]; intros segs; cbn [internal_loop];
    [exact I|].
  destruct (_ >? _); [|apply IH].
  apply no_exception_bind; [apply build_missing_segment_no_exception|].
  intros; apply IH.
Qed.

Lemma detect_no_exception fuel g :
  covered (picks g) ->
  no_exception (detect_breaks_in_group start_opt end_opt modulus inc ex fuel g).
Proof.
  intros Hc. unfold detect_breaks_in_group.
  destruct (picks g) as [|p ps] eqn:Ep; [exact I|].
  destruct (scan_picks_run (artifact_type g) (p :: ps) IntSet.empty [] 0 0 Hc)
    as (ts & rc & ->).
  cbn [bind]. destruct (IntSet.sorted _) as [|mn V]; [exact I|].
  apply no_exception_bind.
  { unfold leading_part. destruct (_ <? _); [|exact I].
    apply no_exception_bind; [apply build_missing_segment_no_exception|].
    intros; exact I. }
  intros segs1 _. apply no_exception_bind; [apply internal_loop_no_exception|].
  intros segs2 _. apply no_exception_bind; [|intros; exact I].
  unfold trailing_part. destruct (_ >? _); [|exact I].
  apply no_exception_bind; [apply build_missing_segment_no_exception|].
  intros; exact I.
Qed.

End NoException.

Lemma mapM_no_exception {A B : Type} (f : A -> res B) (l : list A) :
  (forall x, In x l -> no_exception (f x)) -> no_exception (mapM f l).
Proof.
  induction l as [|x l IH]; intros H; cbn [mapM]; [exact I|].
  apply no_exception_bind; [apply H; now left|]. intros y _.
  apply no_exception_bind; [apply IH; intros z Hz; apply H; now right|].
  intros; exact I.
Qed.

Lemma detect_all_no_exception a fuel gs :
  Forall (fun g => covered (picks g)) gs ->
  no_exception (detect_all a fuel gs).
Proof.
  intros H. apply mapM_no_exception. intros g Hg.
  apply detect_no_exception. rewrite Forall_forall in H. auto.
Qed.

Lemma gather_no_exception a fuel check cf cd :
  extraction_safe a -> no_exception (gather a fuel check cf cd).
Proof.
  intros safe.
  destruct (group_items_total a Files safe cf) as (gf & Ef & Hf).
  destruct (group_items_total a Dirs safe cd) as (gd & Ed & Hd).
  unfold gather. rewrite Ef, Ed. cbn [bind].
  pose proof (detect_all_no_exception a fuel gf Hf) as Nf.
  pose proof (detect_all_no_exception a fuel gd Hd) as Nd.
  destruct check; (apply no_exception_bind; [assumption || exact I|]); intros rf _;
    (apply no_exception_bind; [assumption || exact I|]); intros; exact I.
Qed.

(** With an increment that is not positive the generation loop either is
    not entered or never ends: the fuel does not matter. *)
Section NonPositive.

Variable start_opt end_opt modulus : option Z.
Variable inc : Z.
Variable ex : bool.
Hypothesis inc_nonpos : inc <= 0.

Lemma build_missing_segment_fuel b fuel st ed :
  build_missing_segment b ex modulus inc fuel st ed
  = build_missing_segment b ex modulus inc 0 st ed.
Proof.
  destruct (ed <? st) eqn:E.
  - unfold build_missing_segment. now rewrite E.
  - apply Z.ltb_ge in E.
    now rewrite !nonpositive_increment_diverges.
Qed.

Lemma internal_loop_fuel fuel V : forall indices segs,
  internal_loop modulus inc ex fuel V indices segs
  = internal_loop modulus inc ex 0 V indices segs.
Proof.
  induction indices as [|i indices IH]; intros segs; cbn [internal_loop];
    [reflexivity|].
  destruct (_ >? _); [|apply IH].
  rewrite build_missing_segment_fuel.
  destruct (build_missing_segment _ _ _ _ 0%nat _ _); cbn [bind];
    [apply IH|reflexivity].
Qed.

Lemma detect_fuel fuel g :
  detect_breaks_in_group start_opt end_opt modulus inc ex fuel g
  = detect_breaks_in_group start_opt end_opt modulus inc ex 0 g.
Proof.
  unfold detect_breaks_in_group.
  destruct (picks g); [reflexivity|].
  destruct (scan_picks _ _ _ _ _ _) as [[[[all_ints rcs] ts] rc]|]; cbn [bind];
    [|reflexivity].
  destruct (IntSet.sorted all_ints) as [|mn V]; [reflexivity|].
  unfold leading_part, trailing_part.
  rewrite !(build_missing_segment_fuel _ fuel).
  destruct (_ <? _).
  - destruct (build_missing_segment Leading _ _ _ 0%nat _ _); cbn [bind];
      [|reflexivity].
    rewrite internal_loop_fuel. reflexivity.
  - cbn [bind]. rewrite internal_loop_fuel. reflexivity.
Qed.

End NonPositive.

Lemma mapM_ext {A B : Type} (f g : A -> res B) (l : list A) :
  (forall x, f x = g x) -> mapM f l = mapM g l.
Proof.
  intros H. induction l as [|x l IH]; cbn [mapM]; [reflexivity|].
  now rewrite H, IH.
Qed.

Lemma gather_fuel a fuel check cf cd :
  increment a <= 0 ->
  gather a fuel check cf cd = gather a 0 check cf cd.
Proof.
  intros Hinc.
  assert (Hd : forall gs, detect_all a fuel gs = detect_all a 0 gs).
  { intros gs. apply mapM_ext. intros g. now apply detect_fuel. }
  unfold gather.
  destruct check, (group_items a Files cf) as [gf|], (group_items a Dirs cd) as [gd|];
    cbn [bind]; rewrite ?Hd; reflexivity.
Qed.

(** The results of a run are those of its groups, in order. *)
Lemma detect_group_info s e m inc ex fuel g r :
  detect_breaks_in_group s e m inc ex fuel g = Ok r -> group_info r = g.
Proof.
  unfold detect_breaks_in_group. destruct (picks g).
  { intros H. now injection H as <-. }
  destruct (scan_picks _ _ _ _ _ _) as [[[[all_ints rcs] ts] rc]|]; cbn [bind];
    [|discriminate].
  destruct (IntSet.sorted all_ints) as [|mn V].
  { intros H. now injection H as <-. }
  intros H. apply bind_ok in H as (s1 & _ & H). apply bind_ok in H as (s2 & _ & H).
  apply bind_ok in H as (s3 & _ & H). now injection H as <-.
Qed.

Lemma detect_all_group_info a fuel : forall gs rs,
  detect_all a fuel gs = Ok rs -> map group_info rs = gs.
Proof.
  unfold detect_all. induction gs as [|g gs IH]; intros rs H; cbn [mapM] in H.
  - now injection H as <-.
  - apply bind_ok in H as (r & Er & H). apply bind_ok in H as (rs' & Ers & H).
    injection H as <-. cbn [map]. f_equal; [|now apply IH].
    eapply detect_group_info; eauto.
Qed.

Lemma gather_groups a fuel check cf cd rs :
  gather a fuel check cf cd = Ok rs ->
  groups_of_run a check cf cd = Ok (map group_info rs).
Proof.
  unfold gather, groups_of_run. intros H.
  apply bind_ok in H as (rf & Ef & H). apply bind_ok in H as (rd & Ed & H).
  injection H as <-. rewrite map_app.
  destruct check.
  - apply bind_ok in Ef as (gf & -> & Ef). injection Ed as <-.
    apply detect_all_group_info in Ef. cbn [bind map]. now rewrite Ef.
  - injection Ef as <-. apply bind_ok in Ed as (gd & -> & Ed).
    apply detect_all_group_info in Ed. cbn [bind map app]. now rewrite Ed.
  - apply bind_ok in Ef as (gf & -> & Ef). apply bind_ok in Ed as (gd & -> & Ed).
    apply detect_all_group_info in Ef. apply detect_all_group_info in Ed.
    cbn [bind]. now rewrite Ef, Ed.
Qed.

(** C2, amended: no configuration is rejected. For every increment,
    modulus and bounds the run raises no exception: it returns, or it
    is still in the generation loop (the patterns are regular
    expressions, and the range pattern captures integers when
    multi-range expansion is on); with an increment
    of at least 1 - whatever the modulus, also 0 or less, and the
    bounds, also a start above the end - it terminates with one result
    for each group; a modulus of 0 has the effect of no modulus; with an
    increment of 0 or less the outcome does not depend on the fuel: the
    results are produced without a turn of the generation loop, or the
    run never terminates. *)
Theorem unvalidated_configurations_processed :
  (forall a fuel check cf cd,
     extraction_safe a -> no_exception (gather a fuel check cf cd)) /\
  (forall a check cf cd,
     1 <= increment a -> extraction_safe a ->
     exists rs,
       groups_of_run a check cf cd = Ok (map group_info rs) /\
       forall fuel, (Z.to_nat (missing_total rs) <= fuel)%nat ->
         gather a fuel check cf cd = Ok rs) /\
  (forall s e inc ex fuel g,
     detect_breaks_in_group s e (Some 0) inc ex fuel g
     = detect_breaks_in_group s e None inc ex fuel g) /\
  (forall a fuel check cf cd,
     increment a <= 0 ->
     gather a fuel check cf cd = gather a 0 check cf cd).
Proof.
  split; [|split; [|split]].
  - intros a fuel check cf cd safe. now apply gather_no_exception.
  - intros a check cf cd Hinc safe.
    destruct (gather_total a Hinc safe check cf cd) as (rs & H).
    exists rs. split; [|exact H].
    apply (gather_groups a (Z.to_nat (missing_total rs))). apply H. lia.
  - intros. apply detect_modulus_zero.
  - intros. now apply gather_fuel.
Qed.

Lemma unvalidated_configurations_processed_witness :
  exists rs,
    groups_of_run (with_bounds 10 2) CheckFiles two_files []
    = Ok (map group_info rs) /\
    forall fuel, (Z.to_nat (missing_total rs) <= fuel)%nat ->
      gather (with_bounds 10 2) fuel CheckFiles two_files [] = Ok rs.
Proof.
  apply (proj1 (proj2 unvalidated_configurations_processed) (with_bounds 10 2)
           CheckFiles two_files []).
  - simpl. lia.
  - left. reflexivity.
Defined.

(** ** The cost of reconstruction *)

Lemma group_segments_pure s e m inc ex V :
  Forall (is_pure m inc ex) (group_segments s e m inc ex V).
Proof.
  unfold group_segments. destruct V as [|x V]; [constructor|].
  apply Forall_forall. intros sg Hsg. apply filter_In in Hsg as [Hsg _].
  pose proof (candidates_pure m inc ex (sequence_start s m x)
                (sequence_end e m (last (x :: V) 0)) (x :: V)) as F.
  rewrite Forall_forall in F. auto.
Qed.

Lemma zero_group_observed n : (1 <= n)%nat -> observed (picks (zero_group n)) [0].
Proof.
  intros Hn. split; [constructor|]. intros v. cbn [picks zero_group]. split.
  - intros [<-|[]]. exists (zero_pick 0). split; [|now left].
    apply in_map. apply in_seq. lia.
  - intros (p & Hp & Hv). apply in_map_iff in Hp as (k & <- & _). exact Hv.
Qed.

Lemma zero_group_covered n : covered (picks (zero_group n)).
Proof.
  unfold covered. cbn [picks zero_group]. rewrite Forall_map.
  apply Forall_forall. intros k _. discriminate.
Qed.


(** ** The runtime: printing and reading integers *)

Lemma digits_val_of_uint_acc d : forall acc : positive,
  Py.digits_val (Z.pos acc) (NilEmpty.string_of_uint d)
  = Z.pos (Pos.of_uint_acc d acc).
Proof.
  induction d; intros acc; cbn [NilEmpty.string_of_uint Pos.of_uint_acc Py.digits_val];
    [reflexivity|..]; rewrite <- IHd; f_equal;
    rewrite ?Pos2Z.inj_add, ?Pos2Z.inj_mul;
    match goal with |- context [Py.digit_val ?c] =>
      let k := eval vm_compute in (Py.digit_val c) in
      change (Py.digit_val c) with k
    end; lia.
Qed.

Lemma digits_val_of_uint d :
  Py.digits_val 0 (NilEmpty.string_of_uint d) = Z.of_N (Pos.of_uint d).
Proof.
  induction d; cbn [NilEmpty.string_of_uint Pos.of_uint Py.digits_val];
    [reflexivity|exact IHd|..];
    (cbn [Z.of_N]; rewrite <- digits_val_of_uint_acc; reflexivity).
Qed.

Lemma all_digits_of_uint d : all_digits (NilEmpty.string_of_uint d) = true.
Proof. induction d; simpl; auto. Qed.

Lemma of_uint_nonempty d : d <> Decimal.Nil -> NilEmpty.string_of_uint d <> "".
Proof. destruct d; simpl; congruence. Qed.

(** [str] of a positive number is its numeral. *)
Lemma str_pos p :
  Py.str (Z.pos p) = NilEmpty.string_of_uint (Pos.to_uint p) /\
  is_numeral (NilEmpty.string_of_uint (Pos.to_uint p)) = true /\
  Py.digits_val 0 (NilEmpty.string_of_uint (Pos.to_uint p)) = Z.pos p.
Proof.
  pose proof (DecimalPos.Unsigned.to_uint_nonnil p) as Hn.
  split; [|split].
  - unfold Py.str. cbn [Z.to_int NilZero.string_of_int].
    unfold NilZero.string_of_uint. destruct (Pos.to_uint p); congruence.
  - pose proof (all_digits_of_uint (Pos.to_uint p)) as Ha.
    pose proof (of_uint_nonempty _ Hn) as He.
    destruct (NilEmpty.string_of_uint (Pos.to_uint p)); [congruence|exact Ha].
  - rewrite digits_val_of_uint, DecimalPos.Unsigned.of_to. reflexivity.
Qed.

Lemma not_space_rstrip s :
  (forall c, In c (list_ascii_of_string s) -> Py.is_space c = false) ->
  Py.rstrip s = s.
Proof.
  induction s as [|c s IH]; intros H; [reflexivity|].
  cbn [Py.rstrip]. rewrite IH by (intros d Hd; apply H; now right).
  destruct s; [|reflexivity].
  rewrite (H c); [reflexivity|now left].
Qed.

Lemma digits_not_space s c :
  all_digits s = true -> In c (list_ascii_of_string s) -> Py.is_space c = false.
Proof.
  induction s as [|d s IH]; simpl; [intros _ []|].
  intros H [<-|Hc]; apply andb_true_iff in H as [Hd Hs];
    [now apply digit_not_space|auto].
Qed.

(** Reading a numeral with an optional minus sign. *)
Lemma int_signed_numeral (neg : bool) s :
  is_numeral s = true ->
  Py.int (if neg then String "-" s else s)
  = Ok (if neg then - Py.digits_val 0 s else Py.digits_val 0 s).
Proof.
  intros H. destruct neg; [|now apply int_numeral].
  pose proof (numeral_digits s H) as Ha.
  unfold Py.int. cbn [Py.lstrip]. change (Py.is_space "-") with false. cbv iota.
  rewrite not_space_rstrip.
  - cbn [Ascii.eqb]. change (Ascii.eqb "-" "-") with true. cbv iota.
    rewrite literal_digits_numeral; auto.
    left. destruct s; [discriminate|congruence].
  - intros c [<-|Hc]; [reflexivity|]. eapply digits_not_space; eauto.
Qed.

(** [int(str(z))] is [z]. *)
Lemma int_str z : Py.int (Py.str z) = Ok z.
Proof.
  destruct z as [|p|p].
  - reflexivity.
  - destruct (str_pos p) as (E & Hn & Hv). rewrite E.
    rewrite (int_signed_numeral false _ Hn). now rewrite Hv.
  - destruct (str_pos p) as (E & Hn & Hv).
    assert (En : Py.str (Z.neg p)
                 = String "-" (NilEmpty.string_of_uint (Pos.to_uint p))).
    { unfold Py.str. cbn [Z.to_int NilZero.string_of_int].
      unfold NilZero.string_of_uint.
      pose proof (DecimalPos.Unsigned.to_uint_nonnil p).
      destruct (Pos.to_uint p); congruence. }
    rewrite En, (int_signed_numeral true _ Hn), Hv. reflexivity.
Qed.

Lemma str_inj a b : Py.str a = Py.str b -> a = b.
Proof.
  intros H. pose proof (int_str a) as Ha. rewrite H, int_str in Ha. congruence.
Qed.

Lemma zeros_length n : String.length (Py.zeros n) = n.
Proof. induction n; simpl; auto. Qed.

Lemma string_app_length (s t : string) :
  String.length (s ++ t)%string = (String.length s + String.length t)%nat.
Proof. induction s; simpl; auto. Qed.

(** [zfill] pads to the width and never truncates. *)
Lemma zfill_length s w : Py.len (Py.zfill s w) = Z.max (Py.len s) w.
Proof.
  unfold Py.zfill. destruct (w <=? Py.len s) eqn:E.
  - apply Z.leb_le in E. lia.
  - apply Z.leb_gt in E. unfold Py.len in *.
    destruct s as [|c rest].
    + rewrite zeros_length. simpl in *. lia.
    + destruct (Ascii.eqb c "+" || Ascii.eqb c "-")%bool;
        cbn [String.length]; rewrite ?string_app_length, zeros_length;
        cbn [String.length] in *; lia.
Qed.

Lemma zfill_same s : Py.zfill s (Py.len s) = s.
Proof. unfold Py.zfill. now rewrite Z.leb_refl. Qed.

Lemma zeros_numeral n s :
  is_numeral s = true ->
  is_numeral (Py.zeros n ++ s) = true /\
  Py.digits_val 0 (Py.zeros n ++ s) = Py.digits_val 0 s.
Proof.
  intros H. induction n as [|n [IH1 IH2]]; [auto|].
  cbn [Py.zeros String.append]. split.
  - cbn [is_numeral all_digits]. change (Py.is_digit "0") with true.
    now apply numeral_digits.
  - cbn [Py.digits_val]. exact IH2.
Qed.

Lemma numeral_unsigned c s :
  is_numeral (String c s) = true ->
  (Ascii.eqb c "+" || Ascii.eqb c "-")%bool = false.
Proof.
  cbn [is_numeral all_digits]. intros H. apply andb_true_iff in H as [Hc _].
  now rewrite (digit_not_char c "+" Hc eq_refl), (digit_not_char c "-" Hc eq_refl).
Qed.

(** The zero-padded form of an integer reads back as the integer. *)
Lemma int_zfill_str z w : Py.int (Py.zfill (Py.str z) w) = Ok z.
Proof.
  unfold Py.zfill. destruct (w <=? Py.len (Py.str z)); [apply int_str|].
  set (n := Z.to_nat (w - Py.len (Py.str z))).
  assert (Pos_case : forall s v,
            is_numeral s = true -> Py.digits_val 0 s = v ->
            Py.int (match s with
                    | String c rest =>
                        if (Ascii.eqb c "+" || Ascii.eqb c "-")%bool
                        then String c (Py.zeros n ++ rest)
                        else (Py.zeros n ++ s)%string
                    | EmptyString => Py.zeros n
                    end) = Ok v).
  { intros s v Hs Hv. destruct s as [|c rest]; [discriminate|].
    rewrite (numeral_unsigned c rest Hs).
    destruct (zeros_numeral n _ Hs) as [H1 H2].
    rewrite (int_signed_numeral false _ H1), H2. now rewrite Hv. }
  destruct z as [|p|p].
  - apply (Pos_case "0" 0); reflexivity.
  - destruct (str_pos p) as (E & Hn & Hv). rewrite E. now apply Pos_case.
  - destruct (str_pos p) as (E & Hn & Hv).
    assert (En : Py.str (Z.neg p)
                 = String "-" (NilEmpty.string_of_uint (Pos.to_uint p))).
    { unfold Py.str. cbn [Z.to_int NilZero.string_of_int].
      unfold NilZero.string_of_uint.
      pose proof (DecimalPos.Unsigned.to_uint_nonnil p).
      destruct (Pos.to_uint p); congruence. }
    rewrite En. change (Ascii.eqb "-" "+" || Ascii.eqb "-" "-")%bool with true.
    cbv iota.
    destruct (zeros_numeral n _ Hn) as [H1 H2].
    rewrite (int_signed_numeral true _ H1), H2, Hv. reflexivity.
Qed.

(** ** Extraction: the shape of the result *)

Lemma digit_runs_some r s : Py.digit_runs_from (Some r) s <> [].
Proof.
  revert r. induction s as [|c s IH]; intros r; cbn [Py.digit_runs_from].
  - discriminate.
  - destruct (Py.is_digit c); [apply IH|discriminate].
Qed.

Lemma findall_digits_nil nm :
  Py.findall_digits nm = [] <-> has_digit nm = false.
Proof.
  unfold Py.findall_digits.
  induction nm as [|c s IH]; cbn [Py.digit_runs_from has_digit]; [tauto|].
  destruct (Py.is_digit c); cbn [orb]; [|exact IH].
  split; [intros H; now apply digit_runs_some in H|discriminate].
Qed.

Section ShapeFacts.

Variable mr : bool.
Variable rx : Py.pattern.
Hypothesis safe : mr = false \/ forall nm, numeric_matches rx nm.

Lemma coverage_block_shape nm seed :
  exists c, coverage_for_block mr rx nm seed = Ok c /\
            In seed c /\ ascending c /\ c <> [].
Proof.
  destruct (coverage_for_block_total mr rx nm seed) as (c & E & Hin & Ha).
  - destruct safe as [H|H]; [now left|right; apply H].
  - exists c. repeat split; auto. intros ->. destruct Hin.
Qed.

Lemma all_loop_shape nm blocks_i : forall result,
  exists covs,
    all_loop mr rx nm blocks_i result = Ok (result ++ covs) /\
    Forall2 (fun v c => In v c /\ ascending c /\ c <> []) blocks_i covs.
Proof.
  induction blocks_i as [|b l IH]; intros result; cbn [all_loop].
  - exists []. rewrite app_nil_r. split; [reflexivity|constructor].
  - destruct (coverage_block_shape nm b) as (c & E & Hin & Ha & Hne).
    rewrite E. cbn [bind].
    destruct (IH (result ++ [c])) as (covs & El & Hf).
    exists (c :: covs). split.
    + destruct c; [congruence|]. rewrite El, <- app_assoc. reflexivity.
    + constructor; auto.
Qed.

End ShapeFacts.

(** X1: an item whose name has no digit yields no coverage set, under
    every policy and every configuration; an item whose name has a digit
    yields at least one, when the range pattern cannot raise. *)
Theorem coverage_iff_digit :
  (forall mr rx it bp,
     has_digit (name it) = false -> parse_coverage_list mr rx it bp = Ok []) /\
  (forall mr rx it bp,
     has_digit (name it) = true ->
     mr = false \/ (forall nm, numeric_matches rx nm) ->
     exists c covs, parse_coverage_list mr rx it bp = Ok (c :: covs)).
Proof.
  split.
  - intros mr rx it bp H. apply findall_digits_nil in H.
    unfold parse_coverage_list. now rewrite H.
  - intros mr rx it bp H safe.
    assert (Hne : Py.findall_digits (name it) <> []).
    { intros E. apply findall_digits_nil in E. congruence. }
    unfold parse_coverage_list. rewrite blocks_parse. unfold block_values.
    destruct (Py.findall_digits (name it)) as [|b bs]; [congruence|].
    cbn [bind map].
    assert (One : forall v,
              exists c covs,
                (c <- coverage_for_block mr rx (name it) v ;; Ok (singleton_if c))
                = Ok (c :: covs)).
    { intros v. destruct (coverage_block_shape mr rx safe (name it) v)
        as (c & E & _ & _ & Hc).
      rewrite E. cbn [bind]. exists c, []. destruct c; [congruence|reflexivity]. }
    destruct bp.
    + cbn [Py.first bind]. apply One.
    + cbn [Py.max bind]. apply One.
    + destruct (all_loop_shape mr rx safe (name it)
                  (Py.digits_val 0 b :: map (Py.digits_val 0) bs) [])
        as (covs & E & Hf).
      rewrite E. inversion Hf; subst. now eexists _, _.
    + rewrite <- all_loop_advanced_loop.
      destruct (all_loop_shape mr rx safe (name it)
                  (Py.digits_val 0 b :: map (Py.digits_val 0) bs) [])
        as (covs & E & Hf).
      rewrite E. inversion Hf; subst. now eexists _, _.
Qed.

Lemma coverage_iff_digit_witness :
  exists c covs,
    parse_coverage_list true Py.default_range_regex
      (mk_item "" "take_7-9.wav" 1 false) All = Ok (c :: covs).
Proof.
  apply (proj2 coverage_iff_digit true Py.default_range_regex
           (mk_item "" "take_7-9.wav" 1 false) All).
  - reflexivity.
  - right. exact default_range_regex_numeric.
Defined.

(** X2: under the policies [all] and [multi-block-advanced] there is one
    coverage set for each digit run of the name, in the order of the runs,
    and it contains the integer of its run; under [first] there is one
    set, which contains the integer of the first run. Every coverage set
    is ascending, without duplicates, and not empty. *)
Theorem coverage_sets_follow_runs :
  forall mr rx it bp,
    mr = false \/ (forall nm, numeric_matches rx nm) ->
    exists covs,
      parse_coverage_list mr rx it bp = Ok covs /\
      Forall (fun c => ascending c /\ c <> []) covs /\
      match bp with
      | First =>
          forall v rest, block_values (name it) = v :: rest ->
            exists c, covs = [c] /\ In v c
      | Largest => (List.length covs <= 1)%nat
      | All | MultiBlockAdvanced =>
          Forall2 (fun v c => In v c) (block_values (name it)) covs
      end.
Proof.
  intros mr rx it bp safe.
  unfold parse_coverage_list. rewrite blocks_parse. unfold block_values.
  destruct (Py.findall_digits (name it)) as [|b bs].
  - exists []. split; [reflexivity|]. split; [constructor|].
    destruct bp; cbn [map]; try constructor; try discriminate.
    simpl. lia.
  - cbn [bind map].
    set (x := Py.digits_val 0 b). set (l := map (Py.digits_val 0) bs).
    assert (All_case :
              exists covs,
                all_loop mr rx (name it) (x :: l) [] = Ok covs /\
                Forall (fun c => ascending c /\ c <> []) covs /\
                Forall2 (fun v c => In v c) (x :: l) covs).
    { destruct (all_loop_shape mr rx safe (name it) (x :: l) []) as (covs & E & Hf).
      exists covs. split; [exact E|]. split.
      - clear E. induction Hf as [|v c vs cs (_ & Ha & Hn) _ IH]; constructor; auto.
      - clear E. induction Hf as [|v c vs cs (Hi & _) _ IH]; constructor; auto. }
    destruct bp.
    + cbn [Py.first bind].
      destruct (coverage_block_shape mr rx safe (name it) x)
        as (c & E & Hin & Ha & Hne).
      rewrite E. cbn [bind]. exists [c].
      split; [destruct c; [congruence|reflexivity]|].
      split; [repeat constructor; auto|].
      intros v rest Hv. injection Hv as <- _. exists c. auto.
    + cbn [Py.max bind].
      destruct (coverage_block_shape mr rx safe (name it) (fold_left Z.max l x))
        as (c & E & Hin & Ha & Hne).
      rewrite E. cbn [bind]. exists [c].
      split; [destruct c; [congruence|reflexivity]|].
      split; [repeat constructor; auto|]. simpl. lia.
    + exact All_case.
    + rewrite <- all_loop_advanced_loop. exact All_case.
Qed.

Lemma coverage_sets_follow_runs_witness :
  exists covs,
    parse_coverage_list true Py.default_range_regex
      (mk_item "" "take_7-9.wav" 1 false) All = Ok covs /\
    Forall (fun c => ascending c /\ c <> []) covs /\
    Forall2 (fun v c => In v c) (block_values "take_7-9.wav") covs.
Proof.
  apply (coverage_sets_follow_runs true Py.default_range_regex
           (mk_item "" "take_7-9.wav" 1 false) All).
  right. exact default_range_regex_numeric.
Defined.

(** ** Segments and missing values *)

Lemma ascending_cons x l :
  ascending l -> (forall y, In y l -> x < y) -> ascending (x :: l).
Proof.
  intros Hl Hx. destruct l as [|y l]; [constructor|].
  constructor; [apply Hx; now left|exact Hl].
Qed.

Lemma ascending_tail x l : ascending (x :: l) -> ascending l.
Proof. intros H. inversion H; subst; [constructor|assumption]. Qed.

Lemma ascending_app l1 : forall l2,
  ascending l1 -> ascending l2 ->
  (forall x y, In x l1 -> In y l2 -> x < y) -> ascending (l1 ++ l2).
Proof.
  induction l1 as [|a l1 IH]; intros l2 H1 H2 H; [exact H2|].
  cbn [app]. apply ascending_cons.
  - apply IH; [now apply ascending_tail in H1|exact H2|].
    intros x y Hx Hy. apply H; [now right|exact Hy].
  - intros y Hy. apply in_app_or in Hy as [Hy|Hy].
    + now apply (ascending_head_least a l1 H1).
    + apply H; [now left|exact Hy].
Qed.

Lemma ascending_last x l d :
  ascending (x :: l) -> forall y, In y (x :: l) -> x <= y <= last (x :: l) d.
Proof.
  revert x. induction l as [|z l IH]; intros x H y Hy.
  - destruct Hy as [<-|[]]. simpl. lia.
  - inversion H; subst.
    assert (Hz : z <= last (z :: l) d) by (apply (IH z); [assumption|now left]).
    change (last (x :: z :: l) d) with (last (z :: l) d).
    destruct Hy as [<-|Hy]; [lia|].
    specialize (IH z H4 y Hy). lia.
Qed.

Section ValueFacts.

Variable inc : Z.
Hypothesis inc_pos : 1 <= inc.

Lemma run_values_ascending ed : forall n st,
  run_length inc st ed = n -> ascending (run_values inc st ed).
Proof.
  induction n as [|n IH]; intros st Hn.
  - unfold run_values. rewrite Hn. constructor.
  - assert (Hle : st <= ed).
    { destruct (Z_lt_le_dec ed st) as [H|H]; [|auto].
      rewrite (run_length_empty inc inc_pos st ed H) in Hn. discriminate. }
    rewrite (run_values_step inc inc_pos st ed Hle).
    rewrite (run_length_step inc inc_pos st ed Hle) in Hn.
    apply ascending_cons; [apply IH; lia|].
    intros y Hy. apply (in_run_values inc inc_pos) in Hy. lia.
Qed.

(** The values of the internal runs lie strictly between the observed
    values, in ascending order. *)
Lemma internal_values_between V' : forall x,
  ascending (x :: V') ->
  let values :=
    flat_map (fun cn => if snd cn - fst cn >? inc
                        then run_values inc (fst cn + inc) (snd cn - 1)
                        else [])
             (adjacent_pairs (x :: V')) in
  ascending values /\
  forall v, In v values ->
    x < v < last (x :: V') 0 /\ ~ In v (x :: V').
Proof.
  induction V' as [|y V IH]; intros x Hasc; cbn zeta.
  - split; [constructor|intros v []].
  - cbn [adjacent_pairs flat_map fst snd].
    inversion Hasc as [| |? ? ? Hxy Hy]; subst.
    destruct (IH y Hy) as [IHa IHv]. cbn zeta in IHa, IHv.
    change (last (x :: y :: V) 0) with (last (y :: V) 0).
    pose proof (ascending_last y V 0 Hy) as Hlast.
    assert (Hrun : forall v,
              In v (if y - x >? inc
                    then run_values inc (x + inc) (y - 1) else []) ->
              x < v < y).
    { intros v Hv. destruct (y - x >? inc); [|destruct Hv].
      apply (in_run_values inc inc_pos) in Hv. lia. }
    split.
    + apply ascending_app; [|exact IHa|].
      * destruct (y - x >? inc); [|constructor].
        exact (run_values_ascending (y - 1) _ (x + inc) eq_refl).
      * intros a b Ha Hb. apply Hrun in Ha. apply IHv in Hb. lia.
    + intros v Hv. apply in_app_or in Hv as [Hv|Hv].
      * apply Hrun in Hv.
        pose proof (Hlast y (or_introl eq_refl)).
        split; [lia|]. intros [E|Hin]; [lia|].
        specialize (Hlast v Hin). lia.
      * destruct (IHv v Hv) as [Hb Hn].
        split; [lia|]. intros [E|Hin]; [lia|auto].
Qed.

End ValueFacts.

Lemma pure_segment_values rcs b ex m inc st ed :
  map val (missing_items (fill_segment rcs (pure_segment b ex m inc st ed)))
  = run_values inc st ed.
Proof.
  cbn [fill_segment pure_segment missing_items].
  rewrite !map_map. cbn [fill_prefix missing_at val]. apply map_id.
Qed.

(** The missing values of the segments of a group: the values of the
    leading run, of the internal runs, of the trailing run. *)
Lemma group_missing_values s e m inc ex rcs x V :
  1 <= inc ->
  flat_map (fun sg => map val (missing_items sg))
           (map (fill_segment rcs) (group_segments s e m inc ex (x :: V)))
  = (if sequence_start s m x <? x
     then run_values inc (sequence_start s m x) (x - inc) else [])
    ++ flat_map (fun cn => if snd cn - fst cn >? inc
                           then run_values inc (fst cn + inc) (snd cn - 1)
                           else [])
                (adjacent_pairs (x :: V))
    ++ (if sequence_end e m (last (x :: V) 0) >? last (x :: V) 0
        then run_values inc (last (x :: V) 0 + inc)
                        (sequence_end e m (last (x :: V) 0))
        else []).
Proof.
  intros Hinc.
  assert (Drop : forall segs,
            Forall (is_pure m inc ex) segs ->
            flat_map (fun sg => map val (missing_items sg))
                     (map (fill_segment rcs) (filter counted segs))
            = flat_map (fun sg => run_values inc (start_val sg) (end_val sg)) segs).
  { induction 1 as [|sg segs (b & st & ed & ->) _ IH]; [reflexivity|].
    cbn [filter flat_map]. rewrite (counted_pure_segment b ex m inc Hinc st ed).
    destruct (st <=? ed) eqn:E.
    - cbn [map flat_map]. rewrite pure_segment_values, IH. reflexivity.
    - apply Z.leb_gt in E. rewrite IH. cbn [pure_segment start_val end_val].
      now rewrite (run_values_empty inc Hinc st ed E). }
  unfold group_segments. rewrite Drop by apply candidates_pure.
  unfold candidate_segments. cbn zeta. rewrite !flat_map_app. f_equal; [|f_equal].
  - destruct (_ <? _); [cbn; now rewrite app_nil_r|reflexivity].
  - generalize (adjacent_pairs (x :: V)).
    induction l as [|cn l IH]; [reflexivity|].
    cbn [flat_map]. rewrite flat_map_app, IH. f_equal.
    destruct (_ >? _); [cbn; now rewrite app_nil_r|reflexivity].
  - destruct (_ >? _); [cbn; now rewrite app_nil_r|reflexivity].
Qed.

Lemma in_run_values_unit st ed v :
  In v (run_values 1 st ed) <-> st <= v <= ed.
Proof.
  split; [apply in_run_values; lia|].
  intros H. unfold run_values, run_length. rewrite Z.div_1_r.
  apply in_map_iff. exists (Z.to_nat (v - st)). split; [lia|].
  apply in_seq. lia.
Qed.

(** With the increment 1 the internal runs hold every value between the
    least and the greatest observed value that is not observed. *)
Lemma internal_values_unit V' : forall x v,
  ascending (x :: V') ->
  x < v < last (x :: V') 0 -> ~ In v (x :: V') ->
  In v (flat_map (fun cn => if snd cn - fst cn >? 1
                            then run_values 1 (fst cn + 1) (snd cn - 1)
                            else [])
                 (adjacent_pairs (x :: V'))).
Proof.
  induction V' as [|y V IH]; intros x v Hasc Hv Hn.
  - simpl in Hv. lia.
  - cbn [adjacent_pairs flat_map fst snd].
    inversion Hasc as [| |? ? ? Hxy Hy]; subst.
    change (last (x :: y :: V) 0) with (last (y :: V) 0) in Hv.
    apply in_or_app. destruct (Z_lt_le_dec v y) as [Hlt|Hge].
    + left. replace (y - x >? 1) with true by (symmetry; apply Z.gtb_lt; lia).
      apply in_run_values_unit. lia.
    + right. apply IH; [exact Hy| |].
      * assert (v <> y) by (intros ->; apply Hn; right; now left). lia.
      * intros Hin. apply Hn. now right.
Qed.

Section MissingFacts.

Variable s e m : option Z.
Variable inc : Z.
Variable ex : bool.
Hypothesis inc_pos : 1 <= inc.

(** The missing values of a group are ascending, are not observed, and
    lie between the lesser of the start and the least observed value and
    the greater of the end and the greatest observed value. *)
Lemma group_missing_values_spec rcs x V :
  ascending (x :: V) ->
  let mv := flat_map (fun sg => map val (missing_items sg))
              (map (fill_segment rcs) (group_segments s e m inc ex (x :: V))) in
  ascending mv /\
  forall v, In v mv ->
    ~ In v (x :: V) /\
    Z.min (sequence_start s m x) x <= v
    <= Z.max (sequence_end e m (last (x :: V) 0)) (last (x :: V) 0).
Proof.
  intros Hasc. cbn zeta. rewrite (group_missing_values s e m inc ex rcs x V inc_pos).
  set (st := sequence_start s m x).
  set (en := sequence_end e m (last (x :: V) 0)).
  set (mx := last (x :: V) 0).
  destruct (internal_values_between inc inc_pos V x Hasc) as [Ia Iv].
  cbn zeta in Ia, Iv. fold mx in Iv.
  pose proof (ascending_last x V 0 Hasc) as Hlast. fold mx in Hlast.
  pose proof (Hlast x (or_introl eq_refl)) as Hx.
  assert (Lv : forall v,
            In v (if st <? x then run_values inc st (x - inc) else []) ->
            st <= v < x).
  { intros v Hv. destruct (st <? x); [|destruct Hv].
    apply (in_run_values inc inc_pos) in Hv. lia. }
  assert (Tv : forall v,
            In v (if en >? mx then run_values inc (mx + inc) en else []) ->
            mx < v <= en).
  { intros v Hv. destruct (en >? mx); [|destruct Hv].
    apply (in_run_values inc inc_pos) in Hv. lia. }
  split.
  - apply ascending_app; [| |].
    + destruct (st <? x); [|constructor].
      exact (run_values_ascending inc inc_pos _ _ st eq_refl).
    + apply ascending_app; [exact Ia| |].
      * destruct (en >? mx); [|constructor].
        exact (run_values_ascending inc inc_pos _ _ (mx + inc) eq_refl).
      * intros a b Ha Hb. apply Iv in Ha. apply Tv in Hb. lia.
    + intros a b Ha Hb. apply Lv in Ha.
      apply in_app_or in Hb as [Hb|Hb]; [apply Iv in Hb|apply Tv in Hb]; lia.
  - intros v Hv. apply in_app_or in Hv as [Hv|Hv].
    + apply Lv in Hv. split; [|lia].
      intros Hin. specialize (Hlast v Hin). lia.
    + apply in_app_or in Hv as [Hv|Hv].
      * destruct (Iv v Hv) as [Hb Hn]. split; [exact Hn|lia].
      * apply Tv in Hv. split; [|lia].
        intros Hin. specialize (Hlast v Hin). lia.
Qed.

End MissingFacts.

(** With the increment 1 every unobserved value of that interval is
    missing. *)
Lemma group_missing_values_unit s e m ex rcs x V v :
  ascending (x :: V) ->
  ~ In v (x :: V) ->
  Z.min (sequence_start s m x) x <= v
  <= Z.max (sequence_end e m (last (x :: V) 0)) (last (x :: V) 0) ->
  In v (flat_map (fun sg => map val (missing_items sg))
          (map (fill_segment rcs) (group_segments s e m 1 ex (x :: V)))).
Proof.
  intros Hasc Hn Hv.
  rewrite (group_missing_values s e m 1 ex rcs x V) by lia.
  set (st := sequence_start s m x) in *.
  set (en := sequence_end e m (last (x :: V) 0)) in *.
  set (mx := last (x :: V) 0) in *.
  pose proof (ascending_last x V 0 Hasc) as Hlast. fold mx in Hlast.
  assert (v <> x) by (intros ->; apply Hn; now left).
  assert (v <> mx).
  { intros ->. apply Hn. unfold mx. clear. revert x.
    induction V as [|y V IH]; intros x; [now left|].
    right. apply IH. }
  apply in_or_app. destruct (Z_lt_le_dec v x) as [Hlt|Hge].
  - left. replace (st <? x) with true by (symmetry; apply Z.ltb_lt; lia).
    apply in_run_values_unit. lia.
  - right. apply in_or_app. destruct (Z_lt_le_dec mx v) as [Hgt|Hle].
    + right. replace (en >? mx) with true by (symmetry; apply Z.gtb_lt; lia).
      apply in_run_values_unit. lia.
    + left. apply internal_values_unit; [exact Hasc| |exact Hn].
      fold mx. lia.
Qed.

(** X3: every segment that detection returns has its start at or below
    its end, counts [(end - start) / increment + 1] missing items, at
    least one, and its items are the values [start], [start + increment],
    ... up to [end], in that order. *)
Theorem segments_well_formed :
  forall g s e m inc ex V,
    1 <= inc -> covered (picks g) -> observed (picks g) V ->
    exists r,
      (forall fuel, (Z.to_nat (num_missing (result_stats r)) <= fuel)%nat ->
         detect_breaks_in_group s e m inc ex fuel g = Ok r) /\
      Forall (fun sg =>
                start_val sg <= end_val sg /\
                count sg = (end_val sg - start_val sg) / inc + 1 /\
                1 <= count sg /\
                count sg = Z.of_nat (List.length (missing_items sg)) /\
                map val (missing_items sg)
                = run_values inc (start_val sg) (end_val sg))
             (segments r).
Proof.
  intros g s e m inc ex V Hinc Hc Ho.
  destruct (detect_total s e m inc ex g V Hinc Hc Ho) as (r & Hr & _ & Hs & _).
  exists r. split; [exact Hr|]. rewrite Hs, Forall_map.
  apply Forall_forall. intros sg Hsg.
  assert (Hp : is_pure m inc ex sg).
  { pose proof (group_segments_pure s e m inc ex V) as F.
    rewrite Forall_forall in F. auto. }
  assert (Hk : counted sg = true).
  { unfold group_segments in Hsg. destruct V; [destruct Hsg|].
    apply filter_In in Hsg. tauto. }
  destruct Hp as (b & st & ed & ->).
  rewrite (counted_pure_segment b ex m inc Hinc st ed) in Hk.
  apply Z.leb_le in Hk.
  rewrite pure_segment_values.
  cbn [fill_segment pure_segment start_val end_val count missing_items].
  rewrite !length_map. unfold run_values at 1. rewrite length_map, length_seq.
  assert (0 <= (ed - st) / inc) by (apply Z.div_pos; lia).
  unfold run_length. repeat split; try lia.
Qed.

Lemma segments_well_formed_witness :
  exists r,
    (forall fuel, (Z.to_nat (num_missing (result_stats r)) <= fuel)%nat ->
       detect_breaks_in_group None None (Some 100) 2 false fuel boundary_group
       = Ok r) /\
    Forall (fun sg =>
              start_val sg <= end_val sg /\
              count sg = (end_val sg - start_val sg) / 2 + 1 /\
              1 <= count sg /\
              count sg = Z.of_nat (List.length (missing_items sg)) /\
              map val (missing_items sg)
              = run_values 2 (start_val sg) (end_val sg))
           (segments r).
Proof.
  apply (segments_well_formed boundary_group None None (Some 100) 2 false [105; 110]).
  - lia.
  - repeat constructor; discriminate.
  - exact (observed_computed (picks boundary_group)).
Defined.

(** X4: the missing values that detection reports, read segment after
    segment, are strictly ascending - so the segments are in ascending
    order and do not overlap, and no value is reported twice - and none
    of them is an observed value. *)
Theorem missing_values_ascending_unobserved :
  forall g s e m inc ex V,
    1 <= inc -> covered (picks g) -> observed (picks g) V ->
    exists r,
      (forall fuel, (Z.to_nat (num_missing (result_stats r)) <= fuel)%nat ->
         detect_breaks_in_group s e m inc ex fuel g = Ok r) /\
      ascending (missing_values r) /\
      forall v, In v (missing_values r) -> ~ In v V.
Proof.
  intros g s e m inc ex V Hinc Hc Ho.
  destruct (detect_total s e m inc ex g V Hinc Hc Ho) as (r & Hr & _ & Hs & _).
  exists r. split; [exact Hr|]. unfold missing_values. rewrite Hs.
  destruct V as [|x V]; [split; [constructor|intros v []]|].
  destruct (group_missing_values_spec s e m inc ex Hinc
              (real_cov_of_picks (picks g)) x V (proj1 Ho)) as [Ha Hv].
  split; [exact Ha|]. intros v Hin. now apply Hv.
Qed.

Lemma missing_values_ascending_unobserved_witness :
  exists r,
    (forall fuel, (Z.to_nat (num_missing (result_stats r)) <= fuel)%nat ->
       detect_breaks_in_group (Some 90) None (Some 100) 3 false fuel boundary_group
       = Ok r) /\
    ascending (missing_values r) /\
    forall v, In v (missing_values r) -> ~ In v [105; 110].
Proof.
  apply (missing_values_ascending_unobserved boundary_group (Some 90) None
           (Some 100) 3 false [105; 110]).
  - lia.
  - repeat constructor; discriminate.
  - exact (observed_computed (picks boundary_group)).
Defined.

(** X5: with the increment 1 the missing values are exactly the
    unobserved integers between the lesser of the sequence start and the
    least observed value and the greater of the sequence end and the
    greatest observed value. *)
Theorem unit_increment_exact :
  forall g s e m ex x V,
    covered (picks g) -> observed (picks g) (x :: V) ->
    exists r,
      (forall fuel, (Z.to_nat (num_missing (result_stats r)) <= fuel)%nat ->
         detect_breaks_in_group s e m 1 ex fuel g = Ok r) /\
      forall v,
        In v (missing_values r) <->
        ~ In v (x :: V) /\
        Z.min (sequence_start s m x) x <= v
        <= Z.max (sequence_end e m (last (x :: V) 0)) (last (x :: V) 0).
Proof.
  intros g s e m ex x V Hc Ho.
  destruct (detect_total s e m 1 ex g (x :: V)) as (r & Hr & _ & Hs & _);
    [lia|exact Hc|exact Ho|].
  exists r. split; [exact Hr|]. unfold missing_values. rewrite Hs.
  intros v. split.
  - intros Hin.
    destruct (group_missing_values_spec s e m 1 ex ltac:(lia)
                (real_cov_of_picks (picks g)) x V (proj1 Ho)) as [_ Hv].
    now apply Hv.
  - intros [Hn Hb]. apply group_missing_values_unit; [exact (proj1 Ho)|exact Hn|exact Hb].
Qed.

Lemma unit_increment_exact_witness :
  exists r,
    (forall fuel, (Z.to_nat (num_missing (result_stats r)) <= fuel)%nat ->
       detect_breaks_in_group (Some 120) (Some 108) None 1 false fuel boundary_group
       = Ok r) /\
    forall v,
      In v (missing_values r) <->
      ~ In v [105; 110] /\
      Z.min (sequence_start (Some 120) None 105) 105 <= v
      <= Z.max (sequence_end (Some 108) None (last [105; 110] 0)) (last [105; 110] 0).
Proof.
  apply (unit_increment_exact boundary_group (Some 120) (Some 108) None false
           105 [110]).
  - repeat constructor; discriminate.
  - exact (observed_computed (picks boundary_group)).
Defined.

(** X6: the padded form of every missing item reads back, with [int], as
    the value of the item, and its length is the greater of the length
    of the value and the length of the end value of the segment. *)
Theorem padded_reads_back :
  forall g s e m inc ex V,
    1 <= inc -> covered (picks g) -> observed (picks g) V ->
    exists r,
      (forall fuel, (Z.to_nat (num_missing (result_stats r)) <= fuel)%nat ->
         detect_breaks_in_group s e m inc ex fuel g = Ok r) /\
      forall sg mi, In sg (segments r) -> In mi (missing_items sg) ->
        Py.int (padded mi) = Ok (val mi) /\
        Py.len (padded mi)
        = Z.max (Py.len (Py.str (val mi))) (Py.len (Py.str (end_val sg))).
Proof.
  intros g s e m inc ex V Hinc Hc Ho.
  destruct (detect_total s e m inc ex g V Hinc Hc Ho) as (r & Hr & _ & Hs & _).
  exists r. split; [exact Hr|]. intros sg mi Hsg Hmi. rewrite Hs in Hsg.
  assert (Hne : real_cov_of_picks (picks g) <> []).
  { apply real_cov_nonempty; [exact Hc|]. intros Hnil.
    rewrite Hnil in Ho. destruct Ho as [_ Hin].
    destruct V as [|x V].
    - unfold group_segments in Hsg. destruct Hsg.
    - destruct (proj1 (Hin x) (or_introl eq_refl)) as (p & [] & _). }
  destruct (missing_item_shape s e m inc ex V _ sg mi Hinc Hne Hsg Hmi)
    as (Hpad & _ & _).
  rewrite Hpad. split; [apply int_zfill_str|apply zfill_length].
Qed.

Lemma padded_reads_back_witness :
  exists r,
    (forall fuel, (Z.to_nat (num_missing (result_stats r)) <= fuel)%nat ->
       detect_breaks_in_group (Some (-3)) None None 1 false fuel boundary_group
       = Ok r) /\
    forall sg mi, In sg (segments r) -> In mi (missing_items sg) ->
      Py.int (padded mi) = Ok (val mi) /\
      Py.len (padded mi)
      = Z.max (Py.len (Py.str (val mi))) (Py.len (Py.str (end_val sg))).
Proof.
  apply (padded_reads_back boundary_group (Some (-3)) None None 1 false [105; 110]).
  - lia.
  - repeat constructor; discriminate.
  - exact (observed_computed (picks boundary_group)).
Defined.

(** ** The statistics of a result *)

Lemma scan_picks_inv kind ps : forall ints rcs ts rc ints' rcs' ts' rc',
  scan_picks kind ps ints rcs ts rc = Ok (ints', rcs', ts', rc') ->
  covered ps /\
  ints' = fold_left (fun s v => IntSet.add v s) (List.concat (map coverage ps)) ints /\
  rc' = rc + match kind with
             | Files => Z.of_nat (List.length ps)
             | Dirs => 0
             end.
Proof.
  induction ps as [|p ps IH]; intros ints rcs ts rc ints' rcs' ts' rc' H.
  - cbn [scan_picks] in H. injection H as <- _ _ <-.
    split; [constructor|]. split; [reflexivity|]. destruct kind; simpl; lia.
  - cbn [scan_picks] in H. apply bind_ok in H as (mv & Ef & H).
    apply IH in H as (Hc & Hi & Hr).
    assert (Hp : coverage p <> []).
    { destruct (coverage p); [discriminate|discriminate]. }
    split; [constructor; assumption|]. split.
    + cbn [map List.concat]. now rewrite fold_left_app.
    + rewrite Hr. destruct kind; cbn [List.length]; lia.
Qed.

Lemma build_missing_segment_inv b ex m inc fuel st ed sg :
  build_missing_segment b ex m inc fuel st ed = Ok sg ->
  count sg = Z.of_nat (List.length (missing_items sg)).
Proof.
  unfold build_missing_segment. destruct (ed <? st).
  - intros H. injection H as <-. reflexivity.
  - intros H. apply bind_ok in H as (items & _ & H). injection H as <-.
    reflexivity.
Qed.

Lemma append_if_counted_sound segs sg :
  Forall sound_count segs ->
  count sg = Z.of_nat (List.length (missing_items sg)) ->
  Forall sound_count (append_if_counted segs sg).
Proof.
  intros Hs Hc. unfold append_if_counted. destruct (count sg >? 0) eqn:E; [|exact Hs].
  apply Forall_app. split; [exact Hs|]. repeat constructor; [exact Hc|].
  apply Z.gtb_lt in E. lia.
Qed.

Section StatsFacts.

Variable modulus : option Z.
Variable inc : Z.
Variable ex : bool.
Variable fuel : nat.

Lemma leading_part_sound st mn segs segs' :
  leading_part modulus inc ex fuel st mn segs = Ok segs' ->
  Forall sound_count segs -> Forall sound_count segs'.
Proof.
  unfold leading_part. destruct (st <? mn).
  - intros H Hs. apply bind_ok in H as (sg & Eb & H). injection H as <-.
    apply append_if_counted_sound; [exact Hs|].
    eapply build_missing_segment_inv; eauto.
  - intros H. injection H as <-. auto.
Qed.

Lemma trailing_part_sound en mx segs segs' :
  trailing_part modulus inc ex fuel en mx segs = Ok segs' ->
  Forall sound_count segs -> Forall sound_count segs'.
Proof.
  unfold trailing_part. destruct (en >? mx).
  - intros H Hs. apply bind_ok in H as (sg & Eb & H). injection H as <-.
    apply append_if_counted_sound; [exact Hs|].
    eapply build_missing_segment_inv; eauto.
  - intros H. injection H as <-. auto.
Qed.

Lemma internal_loop_sound V : forall indices segs segs',
  internal_loop modulus inc ex fuel V indices segs = Ok segs' ->
  Forall sound_count segs -> Forall sound_count segs'.
Proof.
  induction indices as [|i indices IH]; intros segs segs' H Hs.
  - cbn [internal_loop] in H. injection H as <-. exact Hs.
  - cbn [internal_loop] in H.
    destruct (nth (S i) V 0 - nth i V 0 >? inc); [|eauto].
    apply bind_ok in H as (sg & Eb & H).
    apply (IH _ _ H). apply append_if_counted_sound; [exact Hs|].
    eapply build_missing_segment_inv; eauto.
Qed.

End StatsFacts.

Lemma sum_counts segs :
  Forall sound_count segs ->
  fold_left Z.add (map count segs) 0
  = Z.of_nat (List.length (flat_map (fun sg => map val (missing_items sg)) segs)).
Proof.
  induction 1 as [|sg segs [Hc _] _ IH]; [reflexivity|].
  cbn [map fold_left flat_map]. rewrite sum_from, IH, length_app, length_map, Hc.
  lia.
Qed.

Lemma fill_segments_values rcs segs :
  flat_map (fun sg => map val (missing_items sg)) (map (fill_segment rcs) segs)
  = flat_map (fun sg => map val (missing_items sg)) segs.
Proof.
  induction segs as [|sg segs IH]; [reflexivity|].
  cbn [map flat_map]. rewrite IH. f_equal.
  cbn [fill_segment missing_items]. rewrite map_map. reflexivity.
Qed.

Lemma detect_consistent :
  forall s e m inc ex fuel g r,
    detect_breaks_in_group s e m inc ex fuel g = Ok r ->
    group_info r = g /\
    num_segments (result_stats r) = Z.of_nat (List.length (segments r)) /\
    num_missing (result_stats r) = Z.of_nat (List.length (missing_values r)) /\
    Forall (fun sg => count sg = Z.of_nat (List.length (missing_items sg)) /\
                      0 < count sg) (segments r) /\
    match artifact_type g with
    | Files => num_real (result_stats r) = Z.of_nat (List.length (picks g))
    | Dirs =>
        approx_missing_bytes (result_stats r) = 0%Q /\
        forall V, observed (picks g) V ->
          num_real (result_stats r) = Z.of_nat (List.length V)
    end.
Proof.
  intros s e m inc ex fuel g r H. unfold detect_breaks_in_group in H.
  destruct (picks g) as [|p ps] eqn:Ep.
  { injection H as <-. cbn. repeat split; try constructor.
    destruct (artifact_type g); [reflexivity|]. split; [reflexivity|].
    intros V [_ Hin]. destruct V as [|v V]; [reflexivity|].
    destruct (proj1 (Hin v) (or_introl eq_refl)) as (q & [] & _). }
  rewrite <- Ep in *.
  apply bind_ok in H as ([[[all_ints rcs] ts] rc] & Es & H).
  apply scan_picks_inv in Es as (Hc & Hi & Hr).
  unfold IntSet.sorted in H.
  destruct all_ints as [|actual_min rest] eqn:Ea.
  { exfalso. rewrite Ep in Hc, Hi. inversion Hc as [|? ? Hp _]; subst.
    destruct (covered_first p Hp) as (v & l & Ev).
    assert (Hin : In v (fold_left (fun s0 v0 => IntSet.add v0 s0)
                          (List.concat (map coverage (p :: ps))) IntSet.empty)).
    { apply in_add_all. left. cbn [map List.concat]. apply in_or_app. left.
      rewrite Ev. now left. }
    rewrite <- Hi in Hin. destruct Hin. }
  rewrite <- Ea in *.
  apply bind_ok in H as (segs1 & E1 & H).
  apply bind_ok in H as (segs2 & E2 & H).
  apply bind_ok in H as (segs3 & E3 & H).
  assert (Hs : Forall sound_count segs3).
  { eapply trailing_part_sound; [exact E3|].
    eapply internal_loop_sound; [exact E2|].
    eapply leading_part_sound; [exact E1|constructor]. }
  injection H as <-. cbn [group_info segments result_stats num_segments
                           num_missing num_real approx_missing_bytes].
  split; [reflexivity|]. split; [now rewrite length_map|].
  split; [unfold missing_values; cbn [segments];
          rewrite fill_segments_values; now apply sum_counts|].
  split.
  - rewrite Forall_map. eapply Forall_impl; [|exact Hs].
    intros sg [Hcount Hpos]. cbn [fill_segment count missing_items].
    rewrite length_map. auto.
  - destruct (artifact_type g).
    + rewrite Hr. lia.
    + split; [reflexivity|]. intros V Ho.
      rewrite <- (observed_all_ints _ V Ho), <- Hi. reflexivity.
Qed.

(** X7: whenever detection returns, the statistics agree with the
    segments: the number of segments, the number of missing values, the
    count of every segment (never 0); the number of real items is the
    number of picks for files and the number of distinct observed values
    for directories, for which no size is estimated. *)
Theorem result_stats_consistent :
  forall s e m inc ex fuel g r,
    detect_breaks_in_group s e m inc ex fuel g = Ok r ->
    group_info r = g /\
    num_segments (result_stats r) = Z.of_nat (List.length (segments r)) /\
    num_missing (result_stats r) = Z.of_nat (List.length (missing_values r)) /\
    Forall (fun sg => count sg = Z.of_nat (List.length (missing_items sg)) /\
                      0 < count sg) (segments r) /\
    match artifact_type g with
    | Files => num_real (result_stats r) = Z.of_nat (List.length (picks g))
    | Dirs =>
        approx_missing_bytes (result_stats r) = 0%Q /\
        forall V, observed (picks g) V ->
          num_real (result_stats r) = Z.of_nat (List.length V)
    end.
Proof. exact detect_consistent. Qed.

Lemma result_stats_consistent_witness :
  exists r,
    detect_breaks_in_group None None (Some 100) 1 false 98 boundary_group = Ok r /\
    num_segments (result_stats r) = Z.of_nat (List.length (segments r)) /\
    num_missing (result_stats r) = Z.of_nat (List.length (missing_values r)).
Proof.
  eexists. split; [vm_compute; reflexivity|].
  refine ((fun H => conj (proj1 (proj2 H)) (proj1 (proj2 (proj2 H))))
            (result_stats_consistent None None (Some 100) 1 false 98
               boundary_group _ _)).
  vm_compute. reflexivity.
Defined.

(** ** An increment that is not positive *)

(** X8: with an increment of 0 or less, detection does not return for a
    group with two distinct observed values or more: the loop that fills
    the first run never ends. *)
Theorem nonpositive_increment_never_returns :
  forall g s e m inc ex x y V,
    inc <= 0 -> covered (picks g) -> observed (picks g) (x :: y :: V) ->
    forall fuel, detect_breaks_in_group s e m inc ex fuel g = Err OutOfFuel.
Proof.
  intros g s e m inc ex x y V Hinc Hc Ho fuel.
  unfold detect_breaks_in_group.
  destruct (picks g) as [|p ps] eqn:Ep.
  { destruct Ho as [_ Hin].
    destruct (proj1 (Hin x) (or_introl eq_refl)) as (q & [] & _). }
  destruct (scan_picks_run (artifact_type g) (p :: ps) IntSet.empty [] 0 0 Hc)
    as (ts & rc & Es).
  rewrite Es. cbn [bind]. rewrite (observed_all_ints _ _ Ho).
  unfold IntSet.sorted. cbv iota.
  destruct Ho as [Hasc _]. inversion Hasc as [| |? ? ? Hxy _]; subst.
  unfold leading_part.
  destruct (sequence_start s m x <? x) eqn:El.
  - apply Z.ltb_lt in El.
    rewrite nonpositive_increment_diverges by lia. reflexivity.
  - cbn [bind].
    replace (List.length (x :: y :: V) - 1)%nat with (S (List.length V))
      by (simpl; lia).
    cbn [seq internal_loop nth].
    replace (y - x >? inc) with true by (symmetry; apply Z.gtb_lt; lia).
    rewrite nonpositive_increment_diverges by lia. reflexivity.
Qed.

Lemma nonpositive_increment_never_returns_witness :
  detect_breaks_in_group None None None 0 false 1000 boundary_group
  = Err OutOfFuel.
Proof.
  apply (nonpositive_increment_never_returns boundary_group None None None 0
           false 105 110 []).
  - lia.
  - repeat constructor; discriminate.
  - exact (observed_computed (picks boundary_group)).
Defined.

(** ** Groups: no pick is lost, identifiers are numbered *)

Lemma build_subgroups_concat dkey kind ps threshold :
  covered ps -> ps <> [] ->
  exists gs,
    build_subgroups_in_dir dkey kind ps threshold = Ok gs /\
    List.concat (map picks gs) = ps /\
    Forall (fun g => picks g <> [] /\ directory g = Some dkey) gs.
Proof.
  intros Hc Hne. destruct (Py.truthy threshold) eqn:Et.
  - destruct threshold as [t|]; [|discriminate].
    assert (Ht : t <> 0) by (intros ->; discriminate).
    destruct (build_subgroups_split dkey kind ps t Hc Ht) as (gs & E & Hm & Hd).
    exists gs. split; [exact E|]. split.
    + rewrite Hm. apply split_where_concat.
    + pose proof (split_where_nonempty
                    (fun x y : pick => pick_rep y - pick_rep x >? t) ps) as Hn.
      unfold split_at_gaps in Hm. rewrite <- Hm in Hn. rewrite Forall_map in Hn.
      apply Forall_forall. intros g Hg. rewrite Forall_forall in Hn, Hd. auto.
  - rewrite (build_subgroups_single dkey kind ps threshold Et).
    eexists. split; [reflexivity|]. cbn [map List.concat dir_group picks].
    split; [apply app_nil_r|]. repeat constructor. exact Hne.
Qed.

(** X9: grouping loses no pick and invents none. When the patterns are
    regular expressions and the range pattern cannot raise (no
    multi-range expansion, or captured groups that [int] accepts),
    [group_items] returns, the picks of all the groups together are a
    rearrangement of the picks extracted from the collection, no group
    is empty, and a group lies in a directory of the collection
    (per-directory mode) or in none (cross-directory mode). *)
Theorem grouping_keeps_picks :
  forall a kind coll,
    extraction_safe a ->
    exists gs,
      group_items a kind coll = Ok gs /\
      Forall (fun g => picks g <> []) gs /\
      if cross_dir_grouping a
      then
        Forall (fun g => directory g = None) gs /\
        exists flat,
          flatten_collection a coll = Ok flat /\
          Permutation (map pick_of_flat flat) (List.concat (map picks gs))
      else
        Forall (fun g => exists d, In d coll /\ directory g = Some (fst d)) gs /\
        exists pss,
          mapM (fun d => picks_of_items a (snd d)) coll = Ok pss /\
          Permutation (List.concat pss) (List.concat (map picks gs)).
Proof.
  intros a kind coll safe. unfold group_items.
  destruct (cross_dir_grouping a).
  - destruct (flatten_collection_total a safe coll) as (flat & E & Hf).
    rewrite E. cbn [bind].
    destruct (build_groups_from_flat_split kind (group_threshold a) flat Hf)
      as (sorted & gs & _ & Hperm & _ & Eb & Hm & Hd).
    exists gs. split; [exact Eb|]. split; [|split; [exact Hd|]].
    + pose proof (split_where_nonempty (flat_cut (group_threshold a)) sorted) as Hn.
      apply Forall_forall. intros g Hg.
      assert (Hin : In (picks g) (map picks gs)) by now apply in_map.
      rewrite Hm in Hin. apply in_map_iff in Hin as (run & Er & Hrun).
      rewrite Forall_forall in Hn. specialize (Hn run Hrun).
      rewrite <- Er. destruct run; [congruence|discriminate].
    + exists flat. split; [reflexivity|].
      rewrite Hm, <- concat_map, split_where_concat.
      now apply Permutation_map.
  - induction coll as [|[dkey items] coll (gs & E & Hne & Hd & pss & Ep & Hperm)];
      cbn [group_per_directory mapM].
    + exists []. repeat split; try constructor. exists []. split; constructor.
    + destruct (coverages_of_items_total a safe items) as (l & El & Hl).
      unfold picks_of_items at 1. cbn [snd]. rewrite El. cbn [bind].
      rewrite Ep. cbn [bind].
      assert (Hd' : Forall (fun g => exists d, In d ((dkey, items) :: coll) /\
                                     directory g = Some (fst d)) gs).
      { eapply Forall_impl; [|exact Hd].
        intros g (d & Hin & Hg). exists d. split; [now right|exact Hg]. }
      destruct (map (fun ic => mk_pick (fst ic) (snd ic)) l) as [|p ps] eqn:Epk.
      * exists gs. split; [exact E|]. split; [exact Hne|]. split; [exact Hd'|].
        eexists. split; [reflexivity|]. exact Hperm.
      * rewrite <- Epk in *.
        assert (Hc : covered (map (fun ic => mk_pick (fst ic) (snd ic)) l)).
        { unfold covered. rewrite Forall_map. exact Hl. }
        destruct (sort_picks _ Hc) as (sorted & Es & Hps & _).
        rewrite Es. cbn [bind].
        assert (Hcs : covered sorted).
        { unfold covered in *. rewrite Forall_forall in *. intros x Hx.
          apply Hc. now apply (Permutation_in _ (Permutation_sym Hps)). }
        assert (Hsn : sorted <> []).
        { intros ->. apply Permutation_sym, Permutation_nil in Hps.
          rewrite Epk in Hps. discriminate. }
        destruct (build_subgroups_concat dkey kind sorted (group_threshold a)
                    Hcs Hsn) as (gs' & Eb & Hcat & Hg').
        rewrite Eb, E. cbn [bind]. exists (gs' ++ gs).
        split; [reflexivity|]. split; [|split].
        -- apply Forall_app. split; [|exact Hne].
           eapply Forall_impl; [|exact Hg']. intros g [H _]. exact H.
        -- apply Forall_app. split; [|exact Hd'].
           eapply Forall_impl; [|exact Hg']. intros g [_ H].
           exists (dkey, items). split; [now left|exact H].
        -- eexists. split; [reflexivity|].
           cbn [List.concat]. rewrite map_app, concat_app, Hcat.
           now apply Permutation_app.
Qed.

Lemma grouping_keeps_picks_witness :
  exists gs,
    group_items (threshold_args (Some 5)) Files takes_files = Ok gs /\
    Forall (fun g => picks g <> []) gs /\
    Forall (fun g => exists d, In d takes_files /\ directory g = Some (fst d)) gs /\
    exists pss,
      mapM (fun d => picks_of_items (threshold_args (Some 5)) (snd d)) takes_files
      = Ok pss /\
      Permutation (List.concat pss) (List.concat (map picks gs)).
Proof.
  apply (grouping_keeps_picks (threshold_args (Some 5)) Files takes_files).
  left. reflexivity.
Defined.

Lemma string_app_cancel (p s t : string) : (p ++ s = p ++ t)%string -> s = t.
Proof. induction p as [|c p IH]; simpl; intros H; [exact H|]. injection H. exact IH. Qed.

Lemma dir_id_inj dkey k1 k2 : dir_id dkey k1 = dir_id dkey k2 -> k1 = k2.
Proof.
  unfold dir_id. intros H. apply string_app_cancel in H.
  apply string_app_cancel in H. apply str_inj in H. lia.
Qed.

Lemma pool_id_inj k1 k2 : pool_id k1 = pool_id k2 -> k1 = k2.
Proof.
  unfold pool_id. intros H. apply string_app_cancel in H.
  apply str_inj in H. lia.
Qed.

Lemma numbered_snoc idf groups g :
  numbered idf groups -> group_id g = idf (List.length groups) ->
  numbered idf (groups ++ [g]).
Proof.
  unfold numbered. intros Hn Hg.
  rewrite map_app, length_app, Hn. cbn [List.length map].
  rewrite Nat.add_1_r, seq_S, map_app. cbn [map Nat.add]. now rewrite Hg.
Qed.

Lemma numbered_nodup idf groups :
  (forall k1 k2, idf k1 = idf k2 -> k1 = k2) ->
  numbered idf groups -> NoDup (map group_id groups).
Proof.
  intros Hinj Hn. rewrite Hn.
  generalize (seq_NoDup (List.length groups) 0).
  generalize (seq 0 (List.length groups)) as l.
  induction l as [|k l IH]; intros Hnd; cbn [map]; [constructor|].
  inversion Hnd as [|? ? Hk Hl]; subst. constructor; [|auto].
  intros Hin. apply in_map_iff in Hin as (k' & Ek & Hin').
  apply Hinj in Ek. subst k'. contradiction.
Qed.

Lemma subgroups_loop_numbered dkey kind t rest :
  forall groups lastv citems idx groups' c' idx',
    subgroups_loop dkey kind t rest groups lastv citems idx
    = Ok (groups', c', idx') ->
    idx = Z.of_nat (List.length groups) -> numbered (dir_id dkey) groups ->
    idx' = Z.of_nat (List.length groups') /\ numbered (dir_id dkey) groups'.
Proof.
  induction rest as [|p rest IH];
    intros groups lastv citems idx groups' c' idx' H Hi Hn.
  - cbn [subgroups_loop] in H. injection H as <- _ <-. auto.
  - cbn [subgroups_loop] in H. apply bind_ok in H as (mv & _ & H).
    destruct lastv as [lv|]; [|eauto].
    destruct (mv - lv >? t); [|eauto].
    apply IH in H; [exact H| |].
    + rewrite length_app. cbn [List.length]. lia.
    + apply numbered_snoc; [exact Hn|]. cbn [dir_group group_id].
      unfold dir_id. now rewrite Hi.
Qed.

Lemma flat_loop_numbered kind threshold rest :
  forall groups lastv citems idx groups' c' idx',
    flat_loop kind threshold rest groups lastv citems idx
    = Ok (groups', c', idx') ->
    idx = Z.of_nat (List.length groups) -> numbered pool_id groups ->
    idx' = Z.of_nat (List.length groups') /\ numbered pool_id groups'.
Proof.
  induction rest as [|[[dk it] cov] rest IH];
    intros groups lastv citems idx groups' c' idx' H Hi Hn.
  - cbn [flat_loop] in H. injection H as <- _ <-. auto.
  - cbn [flat_loop] in H. apply bind_ok in H as (mv & _ & H).
    destruct lastv as [lv|]; [|eauto].
    destruct (Py.truthy threshold && _)%bool; [|eauto].
    apply IH in H; [exact H| |].
    + rewrite length_app. cbn [List.length]. lia.
    + apply numbered_snoc; [exact Hn|]. cbn [flat_group group_id].
      unfold pool_id. now rewrite Hi.
Qed.

(** X10: the groups of a directory carry the identifiers
    [<directory>__group0], [<directory>__group1], ... in order, so no
    two groups of a directory share an identifier. *)
Theorem directory_group_ids_numbered (dkey : string) (kind : artifact)
  (ps : list pick) (threshold : option Z) (gs : list group) :
  build_subgroups_in_dir dkey kind ps threshold = Ok gs ->
  map group_id gs = map (dir_id dkey) (seq 0 (List.length gs)) /\
  NoDup (map group_id gs).
Proof.
  intros H.
  assert (Hn : numbered (dir_id dkey) gs).
  { unfold build_subgroups_in_dir in H.
    destruct (if Py.truthy threshold then threshold else None) as [t|].
    - apply bind_ok in H as ([[groups c] idx] & El & H).
      apply subgroups_loop_numbered in El as [Hi Hn]; [|reflexivity|reflexivity].
      destruct c; injection H as <-; [exact Hn|].
      apply numbered_snoc; [exact Hn|]. cbn [dir_group group_id].
      unfold dir_id. now rewrite Hi.
    - injection H as <-. reflexivity. }
  split; [exact Hn|]. eapply numbered_nodup; [apply dir_id_inj|exact Hn].
Qed.

Lemma directory_group_ids_numbered_witness :
  map group_id
    [dir_group "/d" Files 0 [mk_pick (mk_item "" "f1" 0 false) [1]];
     dir_group "/d" Files 1 [mk_pick (mk_item "" "f9" 0 false) [9]]]
  = map (dir_id "/d") (seq 0 2) /\
  NoDup (map group_id
           [dir_group "/d" Files 0 [mk_pick (mk_item "" "f1" 0 false) [1]];
            dir_group "/d" Files 1 [mk_pick (mk_item "" "f9" 0 false) [9]]]).
Proof.
  apply (directory_group_ids_numbered "/d" Files
           [mk_pick (mk_item "" "f1" 0 false) [1];
            mk_pick (mk_item "" "f9" 0 false) [9]] (Some 5)).
  vm_compute. reflexivity.
Defined.

(** X11: the groups of cross-directory grouping carry the identifiers
    [crossdir_0], [crossdir_1], ... in order, so no two of them share an
    identifier. *)
Theorem pool_group_ids_numbered (flat : list flat_pick)
  (threshold : option Z) (kind : artifact) (gs : list group) :
  build_groups_from_flat flat threshold kind = Ok gs ->
  map group_id gs = map pool_id (seq 0 (List.length gs)) /\
  NoDup (map group_id gs).
Proof.
  intros H.
  assert (Hn : numbered pool_id gs).
  { unfold build_groups_from_flat in H.
    apply bind_ok in H as (sorted & _ & H).
    apply bind_ok in H as ([[groups c] idx] & El & H).
    apply flat_loop_numbered in El as [Hi Hn]; [|reflexivity|reflexivity].
    destruct c; injection H as <-; [exact Hn|].
    apply numbered_snoc; [exact Hn|]. cbn [flat_group group_id].
    unfold pool_id. now rewrite Hi. }
  split; [exact Hn|]. eapply numbered_nodup; [apply pool_id_inj|exact Hn].
Qed.

Lemma pool_group_ids_numbered_witness :
  map group_id
    [flat_group Files 0 [("/d", mk_item "" "f1" 0 false, [1])];
     flat_group Files 1 [("/e", mk_item "" "f9" 0 false, [9])]]
  = map pool_id (seq 0 2) /\
  NoDup (map group_id
           [flat_group Files 0 [("/d", mk_item "" "f1" 0 false, [1])];
            flat_group Files 1 [("/e", mk_item "" "f9" 0 false, [9])]]).
Proof.
  apply (pool_group_ids_numbered
           [("/e", mk_item "" "f9" 0 false, [9]);
            ("/d", mk_item "" "f1" 0 false, [1])] (Some 5) Files).
  vm_compute. reflexivity.
Defined.

Lemma prefix_app sub : forall s,
  String.prefix sub s = true ->
  (sub ++ Py.drop (String.length sub) s)%string = s.
Proof.
  induction sub as [|c sub IH]; intros s H; [now destruct s|].
  destruct s as [|d s]; [discriminate|]. cbn [String.prefix] in H.
  destruct (Ascii.ascii_dec c d) as [->|]; [|discriminate].
  cbn [String.length Py.drop String.append]. now rewrite IH.
Qed.

Lemma find_split sub : forall s i,
  Py.find sub s = Some i ->
  (Py.take i s ++ sub ++ Py.drop (i + String.length sub) s)%string = s /\
  String.length (Py.take i s) = i /\
  occurs_at sub s i = true /\
  forall k, (k < i)%nat -> occurs_at sub s k = false.
Proof.
  induction s as [|c s IH]; intros i H.
  - cbn [Py.find] in H. destruct (String.prefix sub "") eqn:E; [|discriminate].
    injection H as <-. repeat split; [|exact E|intros; lia].
    cbn [Py.take Nat.add String.append]. now apply prefix_app.
  - cbn [Py.find] in H. destruct (String.prefix sub (String c s)) eqn:E.
    + injection H as <-. repeat split; [|exact E|intros; lia].
      cbn [Py.take Nat.add String.append]. now apply prefix_app.
    + destruct (Py.find sub s) as [i'|]; [|discriminate]. injection H as <-.
      destruct (IH i' eq_refl) as (Hs & Hl & Ho & Hf).
      cbn [Py.take Nat.add Py.drop String.append String.length].
      rewrite Hs, Hl. repeat split; [exact Ho|].
      intros [|k] Hk; [exact E|]. unfold occurs_at. cbn [Py.drop].
      apply Hf. lia.
Qed.

Lemma find_complete sub : forall s j,
  occurs_at sub s j = true -> exists i, Py.find sub s = Some i /\ (i <= j)%nat.
Proof.
  unfold occurs_at. induction s as [|c s IH]; intros j H.
  - assert (E : Py.drop j "" = "") by now destruct j.
    rewrite E in H. cbn [Py.find]. rewrite H. exists 0%nat. split; [reflexivity|lia].
  - cbn [Py.find]. destruct (String.prefix sub (String c s)) eqn:E.
    + exists 0%nat. split; [reflexivity|lia].
    + destruct j as [|j]; [cbn [Py.drop] in H; congruence|].
      cbn [Py.drop] in H. destruct (IH j H) as (i & -> & Hi).
      exists (S i). split; [reflexivity|lia].
Qed.

Lemma guess_prefix_suffix_find it v :
  guess_prefix_suffix it v =
  match Py.find (Py.str v) (name it) with
  | Some i => (Py.take i (name it),
               Py.drop (i + String.length (Py.str v)) (name it))
  | None => ("???_", ".xxx")
  end.
Proof.
  unfold guess_prefix_suffix. rewrite zfill_same.
  now destruct (Py.find (Py.str v) (name it)).
Qed.

(** X12: when the decimal numeral of the value occurs in the name of the
    item, [guess_prefix_suffix] splits the name at its first occurrence:
    prefix, numeral and suffix concatenate to the name, and the numeral
    does not occur at any index before the end of the prefix. *)
Theorem guess_prefix_suffix_splits (it : item) (v : Z) (j : nat) :
  occurs_at (Py.str v) (name it) j = true ->
  let ps := guess_prefix_suffix it v in
  (fst ps ++ Py.str v ++ snd ps)%string = name it /\
  (String.length (fst ps) <= j)%nat /\
  forall k, (k < String.length (fst ps))%nat ->
            occurs_at (Py.str v) (name it) k = false.
Proof.
  intros H. destruct (find_complete _ _ _ H) as (i & E & Hi).
  cbn zeta. rewrite guess_prefix_suffix_find, E. cbn [fst snd].
  destruct (find_split _ _ _ E) as (Hs & Hl & _ & Hf).
  rewrite Hl. auto.
Qed.

Lemma guess_prefix_suffix_splits_witness :
  occurs_at (Py.str 1) "img_101.png" 6 = true /\
  let ps := guess_prefix_suffix (mk_item "" "img_101.png" 0 false) 1 in
  (fst ps ++ Py.str 1 ++ snd ps)%string = "img_101.png" /\
  (String.length (fst ps) <= 6)%nat /\
  forall k, (k < String.length (fst ps))%nat ->
            occurs_at (Py.str 1) "img_101.png" k = false.
Proof.
  split; [reflexivity|].
  apply (guess_prefix_suffix_splits (mk_item "" "img_101.png" 0 false) 1 6).
  reflexivity.
Defined.

(** X13: when the decimal numeral of the value occurs nowhere in the name,
    [guess_prefix_suffix] returns the placeholders [???_] and [.xxx]; the
    second search of the function, for the same numeral, never finds
    what the first one missed. *)
Theorem guess_prefix_suffix_placeholder (it : item) (v : Z) :
  (forall j, occurs_at (Py.str v) (name it) j = false) ->
  guess_prefix_suffix it v = ("???_", ".xxx").
Proof.
  intros H. rewrite guess_prefix_suffix_find.
  destruct (Py.find (Py.str v) (name it)) as [i|] eqn:E; [|reflexivity].
  destruct (find_split _ _ _ E) as (_ & _ & Ho & _).
  specialize (H i).
  congruence.
Qed.

Lemma guess_prefix_suffix_placeholder_witness :
  guess_prefix_suffix (mk_item "" "a.b" 0 false) 1 = ("???_", ".xxx").
Proof.
  apply (guess_prefix_suffix_placeholder (mk_item "" "a.b" 0 false) 1).
  intros j. do 4 (destruct j as [|j]; [reflexivity|]). reflexivity.
Defined.

Lemma rev_string_rev s : forall acc t,
  Py.rev_string t (Py.rev_string acc s) = Py.rev_string (s ++ t)%string acc.
Proof.
  induction s as [|c s IH]; intros acc t; cbn [Py.rev_string String.append];
    [reflexivity|].
  now rewrite IH.
Qed.

Lemma rev_string_involutive s : Py.rev_string "" (Py.rev_string "" s) = s.
Proof.
  rewrite rev_string_rev. cbn [Py.rev_string].
  induction s as [|c s IH]; cbn [String.append]; [reflexivity|now rewrite IH].
Qed.

Lemma rev_string_nil s : Py.rev_string "" s = "" -> s = "".
Proof.
  intros H. rewrite <- (rev_string_involutive s), H. reflexivity.
Qed.

Lemma drop_digits_rev_head r :
  match Py.drop_digits_rev r with
  | String c _ => Py.is_digit c = false
  | EmptyString => True
  end.
Proof.
  induction r as [|c r IH]; cbn [Py.drop_digits_rev]; [exact I|].
  destruct (Py.is_digit c) eqn:E; [exact IH|exact E].
Qed.

Lemma sub_trailing_digits_end s :
  ends_with_digit (Py.sub_trailing_digits s) = false.
Proof.
  unfold ends_with_digit, Py.sub_trailing_digits.
  destruct (Py.rev_string "" s) as [|c r] eqn:E; [now rewrite E|].
  destruct (Py.is_digit c) eqn:Ed.
  - rewrite rev_string_involutive.
    pose proof (drop_digits_rev_head r) as H.
    now destruct (Py.drop_digits_rev r).
  - destruct (Ascii.eqb c Py.newline) eqn:En.
    + rewrite rev_string_involutive. exact Ed.
    + now rewrite E.
Qed.

Lemma label_of_shape nm v :
  label_of nm v <> "" /\ ends_with_digit (label_of nm v) = false.
Proof.
  unfold label_of.
  destruct (match Py.find _ nm with Some idx => Some idx | None => _ end)
    as [idx|]; [|split; [discriminate|reflexivity]].
  destruct (String.eqb _ "") eqn:E; [split; [discriminate|reflexivity]|].
  split; [|apply sub_trailing_digits_end].
  intros H. rewrite H in E. discriminate.
Qed.

(** X14: the label of a group is never empty and never ends in a decimal
    digit: it is the sentinel [<no-numeric>] or the text before the
    numeral with its trailing digits removed. *)
Theorem group_label_shape :
  (forall ps : list pick,
     compute_group_label_for_picks ps <> "" /\
     ends_with_digit (compute_group_label_for_picks ps) = false) /\
  (forall citems : list flat_pick,
     compute_group_label_for_flat citems <> "" /\
     ends_with_digit (compute_group_label_for_flat citems) = false).
Proof.
  split.
  - induction ps as [|p ps IH]; cbn [compute_group_label_for_picks];
      [split; [discriminate|reflexivity]|].
    destruct (coverage p); [exact IH|apply label_of_shape].
  - induction citems as [|[[dk it] cov] citems IH];
      cbn [compute_group_label_for_flat]; [split; [discriminate|reflexivity]|].
    destruct cov; [exact IH|apply label_of_shape].
Qed.

(** ** Extraction: the filter *)

(** X15: the pairs extracted from the items of a directory are exactly
    the coverage sets of the items that pass the filter: an item that
    the pattern or the substring filter rejects contributes nothing, and
    every coverage set of an item that passes is kept. *)
Theorem extraction_respects_filter (a : args) (items : list item)
  (l : list (item * list Z)) :
  coverages_of_items a items = Ok l ->
  forall it cov,
    In (it, cov) l <->
    In it items /\
    item_passes_filter it (arg_pattern a) (arg_filter a) = true /\
    exists covs,
      parse_coverage_list (multi_range a) (range_regex a) it (block_policy a)
      = Ok covs /\ In cov covs.
Proof.
  revert l. induction items as [|x items IH]; intros l H it cov;
    cbn [coverages_of_items] in H.
  - injection H as <-. split; [intros []|intros ([] & _)].
  - destruct (item_passes_filter x (arg_pattern a) (arg_filter a)) eqn:Ep.
    + apply bind_ok in H as (covs & Ec & H).
      apply bind_ok in H as (more & Em & H). injection H as <-.
      specialize (IH more Em it cov). rewrite in_app_iff, IH, in_map_iff.
      split.
      * intros [(c & Eq & Hc) | (Hin & Hp & Hcov)].
        -- injection Eq as <- <-. split; [now left|]. split; [exact Ep|].
           exists covs. auto.
        -- split; [now right|]. auto.
      * intros ([<- | Hin] & Hp & covs' & Ec' & Hc).
        -- left. exists cov. split; [reflexivity|]. congruence.
        -- right. split; [exact Hin|]. split; [exact Hp|]. eauto.
    + specialize (IH l H it cov). rewrite IH. split.
      * intros (Hin & Hp & Hcov). split; [now right|]. auto.
      * intros ([<- | Hin] & Hp & Hcov); [congruence|]. auto.
Qed.

Lemma extraction_respects_filter_witness :
  In (mk_item "/d/f3.txt" "f3.txt" 1 false, [3])
     [(mk_item "/d/f1.txt" "f1.txt" 1 false, [1]);
      (mk_item "/d/f3.txt" "f3.txt" 1 false, [3])] <->
  In (mk_item "/d/f3.txt" "f3.txt" 1 false)
     [mk_item "/d/f1.txt" "f1.txt" 1 false;
      mk_item "/d/f3.txt" "f3.txt" 1 false] /\
  item_passes_filter (mk_item "/d/f3.txt" "f3.txt" 1 false)
    (arg_pattern first_policy_args) (arg_filter first_policy_args) = true /\
  exists covs,
    parse_coverage_list (multi_range first_policy_args)
      (range_regex first_policy_args) (mk_item "/d/f3.txt" "f3.txt" 1 false)
      (block_policy first_policy_args)
    = Ok covs /\ In [3] covs.
Proof.
  apply (extraction_respects_filter first_policy_args
           [mk_item "/d/f1.txt" "f1.txt" 1 false;
            mk_item "/d/f3.txt" "f3.txt" 1 false]
           [(mk_item "/d/f1.txt" "f1.txt" 1 false, [1]);
            (mk_item "/d/f3.txt" "f3.txt" 1 false, [3])]).
  vm_compute. reflexivity.
Defined.

(** ** The report on examples *)

Example report_examples :
  (bres <- gather first_policy_args 10 CheckFiles image_files [] ;;
   format_summary small_2f first_policy_args
     (mk_report "filename" "compact" "nospace" false false false) bres)
  = Ok "Grp #1: img_ (dir:/imgs) {
  img_003.png..img_004.png (2)
}" /\
  (bres <- gather first_policy_args 10 CheckFiles image_files [] ;;
   format_csv small_2f
     (mk_args None None None false First false Py.default_range_regex
              None None None 1 true)
     listing_report bres)
  = Ok "group_id,directory,artifact_type,missing_val,missing_label,reason
group_1,/imgs,files,3,img_003.png,internal
group_1,/imgs,files,4,img_004.png,internal
# STATS => groups:1, segments:1, found:3, missing:2, ~0.00MB missing" /\
  (bres <- gather first_policy_args 10 CheckFiles image_files [] ;;
   format_inline small_2f
     (mk_args None None None false First false Py.default_range_regex
              None None None 1 true)
     (mk_report "number" "all" "spacing" false false false) bres)
  = Ok "Grp #1: img_ (dir:/imgs)
  3 (internal)
  4 (internal)" /\
  csv_escape "a,b" = String PyText.quote ("a,b" ++ String PyText.quote "") /\
  PyText.split_semicolon "" "q; r6.txt" = ["q"; "r6.txt"] /\
  PyText.last3 "00123" = "123" /\ PyText.last3 "07" = "07".
Proof. vm_compute. repeat split. Qed.

(** ** The report: CSV fields *)

Lemma string_app_nil (s : string) : (s ++ "")%string = s.
Proof. induction s as [|c s IH]; cbn [String.append]; [reflexivity|now rewrite IH]. Qed.

Lemma string_app_assoc (s t u : string) :
  ((s ++ t) ++ u)%string = (s ++ t ++ u)%string.
Proof. induction s as [|c s IH]; cbn [String.append]; [reflexivity|now rewrite IH]. Qed.

Lemma csv_read_nonempty s : forall st, csv_read st s <> [].
Proof.
  assert (Hp : forall c l, prepend c l <> []) by (intros c [|g l]; discriminate).
  induction s as [|c s IH]; intros st; [discriminate|].
  cbn [csv_read].
  destruct st; repeat match goal with
                      | |- context [if ?b then _ else _] => destruct b
                      end; auto; discriminate.
Qed.

Lemma prepend_nil l : l <> [] -> prepend "" l = l.
Proof. destruct l; [congruence|reflexivity]. Qed.

Lemma prepend_cons c f l :
  prepend (String c "") (prepend f l) = prepend (String c f) l.
Proof. destruct l; reflexivity. Qed.

Lemma field_end_read t st :
  field_end t -> st <> InQuoted -> csv_read st t = csv_read FieldStart t.
Proof.
  intros [->|(r & ->)] Hst; [reflexivity|].
  destruct st; try reflexivity; congruence.
Qed.

Lemma csv_read_bare f : forall t,
  PyText.has_char "," f = false ->
  csv_read InBare (f ++ t) = prepend f (csv_read InBare t).
Proof.
  induction f as [|c f IH]; intros t H; cbn [String.append].
  - symmetry. apply prepend_nil, csv_read_nonempty.
  - cbn [PyText.has_char] in H. apply orb_false_iff in H as [Hc Hf].
    cbn [csv_read]. rewrite Ascii.eqb_sym, Hc, IH by exact Hf.
    apply prepend_cons.
Qed.

Lemma csv_read_start f t :
  PyText.has_char "," f = false -> PyText.has_char PyText.quote f = false ->
  field_end t ->
  csv_read FieldStart (f ++ t) = prepend f (csv_read FieldStart t).
Proof.
  intros Hc Hq Ht. destruct f as [|c f]; cbn [String.append].
  - symmetry. apply prepend_nil, csv_read_nonempty.
  - cbn [PyText.has_char] in Hc, Hq.
    apply orb_false_iff in Hc as [Hc Hfc]. apply orb_false_iff in Hq as [Hq _].
    cbn [csv_read]. rewrite (Ascii.eqb_sym c PyText.quote), Hq.
    rewrite (Ascii.eqb_sym c ","), Hc, csv_read_bare by exact Hfc.
    rewrite (field_end_read t InBare Ht) by discriminate.
    apply prepend_cons.
Qed.

Lemma csv_read_quoted f : forall t,
  csv_read InQuoted (PyText.double_quotes f ++ String PyText.quote t)
  = prepend f (csv_read AfterQuote t).
Proof.
  induction f as [|c f IH]; intros t; cbn [PyText.double_quotes String.append].
  - cbn [csv_read]. rewrite Ascii.eqb_refl.
    symmetry. apply prepend_nil, csv_read_nonempty.
  - destruct (Ascii.eqb c PyText.quote) eqn:E.
    + apply Ascii.eqb_eq in E. subst c. cbn [String.append csv_read].
      rewrite Ascii.eqb_refl, IH. apply prepend_cons.
    + cbn [String.append csv_read]. rewrite E, IH. apply prepend_cons.
Qed.

Lemma double_quotes_plain f :
  PyText.has_char PyText.quote (PyText.double_quotes f) = false ->
  PyText.double_quotes f = f.
Proof.
  induction f as [|c f IH]; cbn [PyText.double_quotes]; [reflexivity|].
  destruct (Ascii.eqb c PyText.quote) eqn:E; cbn [PyText.has_char].
  - rewrite Ascii.eqb_refl. discriminate.
  - intros H. apply orb_false_iff in H as [_ H]. now rewrite IH.
Qed.

Lemma csv_read_field f t :
  field_end t ->
  csv_read FieldStart (csv_escape f ++ t) = prepend f (csv_read FieldStart t).
Proof.
  intros Ht. unfold csv_escape.
  destruct (_ || _ || _ || _)%bool eqn:E.
  - cbn [String.append csv_read]. rewrite Ascii.eqb_refl.
    rewrite string_app_assoc. cbn [String.append].
    rewrite csv_read_quoted.
    rewrite (field_end_read t AfterQuote Ht) by discriminate. reflexivity.
  - apply orb_false_iff in E as [E _]. apply orb_false_iff in E as [E _].
    apply orb_false_iff in E as [Hc Hq].
    pose proof (double_quotes_plain f Hq) as Ef. rewrite Ef in Hc, Hq |- *.
    now apply csv_read_start.
Qed.

Lemma csv_read_row (row : list string) :
  row <> [] -> csv_read FieldStart (csv_row row) = row.
Proof.
  unfold csv_row. induction row as [|f row IH]; [congruence|]. intros _.
  cbn [map PyText.join]. destruct row as [|g row].
  - cbn [map]. rewrite <- (string_app_nil (csv_escape f)).
    rewrite csv_read_field by (left; reflexivity).
    cbn [csv_read prepend]. now rewrite string_app_nil.
  - cbn [map] in *. cbn [String.append].
    rewrite csv_read_field by (right; eexists; reflexivity).
    cbn [csv_read].
    change (Ascii.eqb "," PyText.quote) with false. cbn [Ascii.eqb Bool.eqb].
    rewrite IH by discriminate. cbn [prepend]. now rewrite string_app_nil.
Qed.

(** X16: a record written by [format_csv] reads back: the reader of
    quoted fields applied to a row of escaped fields returns the fields,
    whatever commas, quotes and line breaks they hold. *)
Theorem csv_row_reads_back (row : list string) :
  row <> [] -> csv_read FieldStart (csv_row row) = row.
Proof. exact (csv_read_row row). Qed.

Lemma csv_row_reads_back_witness :
  csv_read FieldStart
    (csv_row ["group_1"; "a,b"; String PyText.quote "x"; ""])
  = ["group_1"; "a,b"; String PyText.quote "x"; ""].
Proof.
  apply (csv_row_reads_back ["group_1"; "a,b"; String PyText.quote "x"; ""]).
  discriminate.
Defined.

(** ** The report: segments and lines *)

Lemma last_cons {A : Type} (x : A) (l : list A) :
  exists y, PyText.last (x :: l) = Ok y.
Proof.
  unfold PyText.last. destruct (rev (x :: l)) as [|y r] eqn:E; [|eauto].
  apply (f_equal (@List.length A)) in E. rewrite length_rev in E. discriminate.
Qed.

Lemma sound_count_items sg :
  sound_count sg -> exists mi rest, missing_items sg = mi :: rest.
Proof.
  intros [Hc Hp]. destruct (missing_items sg) as [|mi rest]; [|eauto].
  cbn [List.length] in Hc. lia.
Qed.

Lemma build_segment_text_ok sg show_mode range_md kind explain_on :
  sound_count sg ->
  exists t, build_segment_text sg show_mode range_md kind explain_on = Ok t.
Proof.
  intros Hs. destruct (sound_count_items sg Hs) as (mi & rest & E).
  unfold build_segment_text. rewrite E.
  destruct (count sg =? 0); [eauto|].
  destruct (String.eqb range_md "all"); [eauto|].
  destruct (count sg =? 1); cbn [Py.first bind]; [eauto|].
  destruct (last_cons mi rest) as (y & ->). cbn [bind]. eauto.
Qed.

Section ReportFacts.

Variable fmt_2f : Q -> string.
Variable a : args.
Variable o : report_args.

Lemma segment_lines_ok kind segs :
  Forall sound_count segs ->
  forall i lines, exists out, segment_lines a o kind i segs lines = Ok out.
Proof.
  induction 1 as [|sg segs Hs _ IH]; intros i lines; cbn [segment_lines];
    [eauto|].
  destruct (count sg =? 0); [apply IH|].
  destruct (build_segment_text_ok sg (show o) (range_mode o) kind (explain a) Hs)
    as (t & ->).
  cbn [bind]. apply IH.
Qed.

Lemma inline_loop_ok bres :
  sound_results bres ->
  forall lines g, exists out, inline_loop fmt_2f a o bres lines g = Ok out.
Proof.
  induction 1 as [|br bres Hs _ IH]; intros lines g; cbn [inline_loop];
    [eauto|].
  destruct (hidden o br); [apply IH|].
  destruct (segments br) as [|sg segs] eqn:E; [apply IH|].
  destruct (segment_lines_ok (artifact_type (group_info br)) (sg :: segs) Hs 0
              (lines ++ [group_line g (group_info br)])) as (out & ->).
  cbn [bind]. apply IH.
Qed.

Lemma summary_loop_ok bres :
  sound_results bres ->
  forall lines g, exists out, summary_loop fmt_2f a o bres lines g = Ok out.
Proof.
  induction 1 as [|br bres Hs _ IH]; intros lines g; cbn [summary_loop];
    [eauto|].
  destruct (hidden o br); [apply IH|].
  destruct (segments br) as [|sg segs] eqn:E; [apply IH|].
  destruct (segment_lines_ok (artifact_type (group_info br)) (sg :: segs) Hs 0
              (lines ++ [(group_line g (group_info br) ++ " {")%string]))
    as (out & ->).
  cbn [bind]. apply IH.
Qed.

Lemma segment_rows_cons sg segs :
  segment_rows o (sg :: segs)
  = ((if String.eqb (range_mode o) "all"
      then List.length (missing_items sg) else 1%nat)
     + segment_rows o segs)%nat.
Proof.
  unfold segment_rows. destruct (String.eqb (range_mode o) "all");
    cbn [flat_map List.length]; [now rewrite length_app|reflexivity].
Qed.

Lemma segment_rows_app l1 l2 :
  segment_rows o (l1 ++ l2) = (segment_rows o l1 + segment_rows o l2)%nat.
Proof.
  unfold segment_rows. destruct (String.eqb (range_mode o) "all").
  - now rewrite flat_map_app, length_app.
  - apply length_app.
Qed.

Lemma csv_segments_rows gid d atype segs :
  Forall sound_count segs ->
  forall lines, exists out,
    csv_segments a o gid d atype segs lines = Ok out /\
    List.length out = (List.length lines + segment_rows o segs)%nat.
Proof.
  induction 1 as [|sg segs Hs _ IH]; intros lines.
  - exists lines. split; [reflexivity|]. unfold segment_rows.
    destruct (String.eqb (range_mode o) "all"); cbn; lia.
  - cbn [csv_segments]. rewrite segment_rows_cons.
    destruct (sound_count_items sg Hs) as (mi & rest & E).
    destruct Hs as [Hc Hp].
    destruct (count sg =? 0) eqn:E0; [apply Z.eqb_eq in E0; lia|].
    destruct (String.eqb (range_mode o) "all").
    + match goal with
      | |- context [csv_segments a o gid d atype segs ?l] =>
          destruct (IH l) as (out & Eo & Hl)
      end.
      exists out. split; [exact Eo|].
      rewrite Hl, length_app, length_map. lia.
    + rewrite E. cbn [Py.first bind].
      destruct (count sg =? 1).
      * match goal with
        | |- context [csv_segments a o gid d atype segs ?l] =>
            destruct (IH l) as (out & Eo & Hl)
        end.
        exists out. split; [exact Eo|].
        rewrite Hl, length_app. cbn [List.length]. lia.
      * destruct (last_cons mi rest) as (y & ->). cbn [bind].
        match goal with
        | |- context [csv_segments a o gid d atype segs ?l] =>
            destruct (IH l) as (out & Eo & Hl)
        end.
        exists out. split; [exact Eo|].
        rewrite Hl, length_app. cbn [List.length]. lia.
Qed.

Lemma csv_loop_rows bres :
  sound_results bres ->
  forall lines g, exists out,
    csv_loop a o bres lines g = Ok out /\
    List.length out
    = (List.length lines + segment_rows o (all_segments bres))%nat.
Proof.
  induction 1 as [|br bres Hs _ IH]; intros lines g.
  - exists lines. split; [reflexivity|]. unfold all_segments, segment_rows.
    destruct (String.eqb (range_mode o) "all"); cbn; lia.
  - cbn [csv_loop]. unfold all_segments in *. cbn [flat_map].
    rewrite segment_rows_app.
    destruct (segments br) as [|sg segs] eqn:E.
    + assert (E0 : segment_rows o [] = 0%nat).
      { unfold segment_rows. now destruct (String.eqb (range_mode o) "all"). }
      rewrite E0.
      destruct (hidden o br); apply IH.
    + assert (Eh : hidden o br = false) by (unfold hidden; now rewrite E).
      rewrite Eh.
      destruct (csv_segments_rows ("group_" ++ Py.str g)
                  (PyText.str_opt (directory (group_info br)))
                  (artifact_name (artifact_type (group_info br)))
                  (sg :: segs) Hs lines) as (mid & -> & Hm).
      cbn [bind]. destruct (IH mid (g + 1)) as (out & Eo & Hl).
      exists out. split; [exact Eo|]. rewrite Hl, Hm. lia.
Qed.

End ReportFacts.

(** X17: on results whose segments count their missing items, as those of
    [detect_breaks_in_group] do, the three text reports are produced
    without an exception; the CSV report has its header line, one line
    for each missing item with [--range all] and one line for each
    segment otherwise, and one more line with [--stats]. *)
Theorem reports_of_sound_results (fmt_2f : Q -> string) (a : args)
  (o : report_args) (bres : list group_result) :
  sound_results bres ->
  (exists s, format_inline fmt_2f a o bres = Ok s) /\
  (exists s, format_summary fmt_2f a o bres = Ok s) /\
  (exists lines,
     csv_lines fmt_2f a o bres = Ok lines /\
     format_csv fmt_2f a o bres
     = Ok (PyText.join (String Py.newline "") lines) /\
     List.length lines
     = (1 + (if String.eqb (range_mode o) "all"
             then List.length (flat_map missing_items (all_segments bres))
             else List.length (all_segments bres))
        + (if show_stats o then 1 else 0))%nat).
Proof.
  intros Hs. split; [|split].
  - unfold format_inline, inline_lines.
    destruct (inline_loop_ok fmt_2f a o bres Hs [] 1) as (out & ->).
    cbn [bind]. eauto.
  - unfold format_summary, summary_lines.
    destruct (summary_loop_ok fmt_2f a o bres Hs [] 1) as (out & ->).
    cbn [bind]. eauto.
  - unfold format_csv, csv_lines.
    destruct (csv_loop_rows a o bres Hs [PyText.join "," csv_header] 1)
      as (out & -> & Hl).
    cbn [bind]. eexists. split; [reflexivity|]. split; [reflexivity|].
    unfold segment_rows in Hl. cbn [List.length] in Hl.
    destruct (show_stats o); [rewrite length_app; cbn [List.length]|]; lia.
Qed.

(** ** The report of a run *)

Lemma mapM_inv {A B : Type} (f : A -> res B) (P : B -> Prop) (l : list A) :
  (forall x r, f x = Ok r -> P r) ->
  forall rs, mapM f l = Ok rs -> Forall P rs.
Proof.
  intros Hf. induction l as [|x l IH]; intros rs H; cbn [mapM] in H.
  - injection H as <-. constructor.
  - apply bind_ok in H as (r & Er & H). apply bind_ok in H as (rs' & Ers & H).
    injection H as <-. constructor; eauto.
Qed.

Lemma missing_values_length r :
  List.length (missing_values r)
  = List.length (flat_map missing_items (segments r)).
Proof.
  unfold missing_values. induction (segments r) as [|sg segs IH];
    [reflexivity|].
  cbn [flat_map]. now rewrite !length_app, length_map, IH.
Qed.

Lemma detect_consistent_result s e m inc ex fuel g r :
  detect_breaks_in_group s e m inc ex fuel g = Ok r -> consistent_result r.
Proof.
  intros H. destruct (detect_consistent _ _ _ _ _ _ _ _ H)
    as (_ & Hs & Hm & Hf & _).
  unfold consistent_result. rewrite <- missing_values_length. auto.
Qed.

Lemma gather_consistent a fuel check cf cd bres :
  gather a fuel check cf cd = Ok bres -> Forall consistent_result bres.
Proof.
  assert (Hd : forall gs rs, detect_all a fuel gs = Ok rs ->
                             Forall consistent_result rs).
  { intros gs rs. apply mapM_inv. intros g r. apply detect_consistent_result. }
  unfold gather. intros H.
  apply bind_ok in H as (fg & Ef & H). apply bind_ok in H as (dg & Ed & H).
  injection H as <-. apply Forall_app. split.
  - destruct check; try (injection Ef as <-; constructor);
      apply bind_ok in Ef as (gf & _ & Ef); eauto.
  - destruct check; try (injection Ed as <-; constructor);
      apply bind_ok in Ed as (gd & _ & Ed); eauto.
Qed.

Lemma consistent_sound bres :
  Forall consistent_result bres -> sound_results bres.
Proof. apply Forall_impl. now intros r (_ & _ & H). Qed.

Lemma totals_loop_counts o bres :
  Forall consistent_result bres ->
  forall gc tm tr ts tb gc' tm' tr' ts' tb',
    totals_loop o bres (gc, tm, tr, ts, tb) = (gc', tm', tr', ts', tb') ->
    tm' = tm + Z.of_nat (List.length (flat_map missing_items (all_segments bres)))
    /\ ts' = ts + Z.of_nat (List.length (all_segments bres)).
Proof.
  induction 1 as [|br bres (Hs & Hm & _) _ IH];
    intros gc tm tr ts tb gc' tm' tr' ts' tb' H.
  - cbn [totals_loop] in H. injection H as <- <- <- <- <-. cbn. lia.
  - cbn [totals_loop] in H. unfold all_segments in *. cbn [flat_map].
    rewrite flat_map_app, !length_app, !Nat2Z.inj_add, <- Hs, <- Hm.
    destruct (hidden o br) eqn:Eh.
    + unfold hidden in Eh. destruct (segments br); [|discriminate].
      cbn [List.length flat_map] in Hs, Hm. rewrite Hs, Hm.
      apply IH in H. lia.
    + apply IH in H. lia.
Qed.

(** X18: for the results of a run, the statistics line agrees with the
    CSV report: with [--range all] the number of data lines is the
    total [missing:] of the statistics, otherwise it is the total
    [segments:]; the report is produced without an exception. *)
Theorem run_report_rows (fmt_2f : Q -> string) (a : args) (o : report_args)
  (fuel : nat) (check : check_mode) (cf cd : collection)
  (bres : list group_result) :
  gather a fuel check cf cd = Ok bres ->
  exists lines gc tm tr ts tb,
    csv_lines fmt_2f a o bres = Ok lines /\
    totals_loop o bres (0, 0, 0, 0, 0%Q) = (gc, tm, tr, ts, tb) /\
    Z.of_nat (List.length lines)
    = 1 + (if String.eqb (range_mode o) "all" then tm else ts)
      + (if show_stats o then 1 else 0).
Proof.
  intros H. apply gather_consistent in H.
  destruct (totals_loop o bres (0, 0, 0, 0, 0%Q)) as [[[[gc tm] tr] ts] tb] eqn:Et.
  destruct (totals_loop_counts o bres H _ _ _ _ _ _ _ _ _ _ Et) as [Hm Hs].
  unfold csv_lines.
  destruct (csv_loop_rows a o bres (consistent_sound bres H)
              [PyText.join "," csv_header] 1) as (out & -> & Hl).
  cbn [bind]. exists (if show_stats o
                      then out ++ [("# " ++ global_stats_summary fmt_2f o bres)%string]
                      else out), gc, tm, tr, ts, tb.
  split; [reflexivity|]. split; [reflexivity|].
  unfold segment_rows in Hl. cbn [List.length] in Hl.
  destruct (show_stats o); [rewrite length_app; cbn [List.length]|];
    destruct (String.eqb (range_mode o) "all"); lia.
Qed.

Lemma reports_of_sound_results_witness :
  (exists s, format_inline small_2f first_policy_args listing_report
               sample_results = Ok s) /\
  (exists s, format_summary small_2f first_policy_args listing_report
               sample_results = Ok s) /\
  (exists lines,
     csv_lines small_2f first_policy_args listing_report sample_results
     = Ok lines /\
     format_csv small_2f first_policy_args listing_report sample_results
     = Ok (PyText.join (String Py.newline "") lines) /\
     List.length lines
     = (1 + (if String.eqb (range_mode listing_report) "all"
             then List.length (flat_map missing_items
                                 (all_segments sample_results))
             else List.length (all_segments sample_results))
        + (if show_stats listing_report then 1 else 0))%nat).
Proof.
  apply (reports_of_sound_results small_2f first_policy_args listing_report
           sample_results).
  repeat constructor.
Defined.

Lemma run_report_rows_witness :
  exists bres,
    gather first_policy_args 10 CheckFiles image_files [] = Ok bres /\
    exists lines gc tm tr ts tb,
      csv_lines small_2f first_policy_args listing_report bres = Ok lines /\
      totals_loop listing_report bres (0, 0, 0, 0, 0%Q) = (gc, tm, tr, ts, tb) /\
      Z.of_nat (List.length lines)
      = 1 + (if String.eqb (range_mode listing_report) "all" then tm else ts)
        + (if show_stats listing_report then 1 else 0).
Proof.
  eexists. split; [vm_compute; reflexivity|].
  apply (run_report_rows small_2f first_policy_args listing_report 10
           CheckFiles image_files []).
  vm_compute. reflexivity.
Defined.

(** ** The report: groups without a segment *)

Section HiddenFacts.

Variable fmt_2f : Q -> string.
Variable a : args.
Variable o : report_args.
Hypothesis no_empty : show_empty o = false.

Lemma hidden_filter br : hidden o br = negb (has_segments br).
Proof.
  unfold hidden, has_segments. rewrite no_empty. now destruct (segments br).
Qed.

Lemma totals_loop_filter bres : forall st,
  totals_loop o (filter has_segments bres) st = totals_loop o bres st.
Proof.
  induction bres as [|br bres IH]; intros st; [reflexivity|].
  cbn [filter totals_loop]. rewrite hidden_filter.
  destruct (has_segments br) eqn:E; cbn [negb]; [|apply IH].
  cbn [totals_loop]. rewrite hidden_filter, E. cbn [negb].
  destruct st as [[[[gc tm] tr] ts] tb]. apply IH.
Qed.

Lemma inline_loop_filter bres : forall lines g,
  inline_loop fmt_2f a o (filter has_segments bres) lines g
  = inline_loop fmt_2f a o bres lines g.
Proof.
  induction bres as [|br bres IH]; intros lines g; [reflexivity|].
  cbn [filter inline_loop]. rewrite hidden_filter.
  destruct (has_segments br) eqn:E; cbn [negb]; [|apply IH].
  cbn [inline_loop]. rewrite hidden_filter, E. cbn [negb].
  destruct (segments br); [apply IH|].
  destruct (segment_lines _ _ _ _ _ _); cbn [bind]; [apply IH|reflexivity].
Qed.

Lemma summary_loop_filter bres : forall lines g,
  summary_loop fmt_2f a o (filter has_segments bres) lines g
  = summary_loop fmt_2f a o bres lines g.
Proof.
  induction bres as [|br bres IH]; intros lines g; [reflexivity|].
  cbn [filter summary_loop]. rewrite hidden_filter.
  destruct (has_segments br) eqn:E; cbn [negb]; [|apply IH].
  cbn [summary_loop]. rewrite hidden_filter, E. cbn [negb].
  destruct (segments br); [apply IH|].
  destruct (segment_lines _ _ _ _ _ _); cbn [bind]; [apply IH|reflexivity].
Qed.

Lemma csv_loop_filter bres : forall lines g,
  csv_loop a o (filter has_segments bres) lines g
  = csv_loop a o bres lines g.
Proof.
  induction bres as [|br bres IH]; intros lines g; [reflexivity|].
  cbn [filter csv_loop]. rewrite hidden_filter.
  destruct (has_segments br) eqn:E; cbn [negb]; [|apply IH].
  cbn [csv_loop]. rewrite hidden_filter, E. cbn [negb].
  destruct (segments br); [apply IH|].
  destruct (csv_segments _ _ _ _ _ _ _); cbn [bind]; [apply IH|reflexivity].
Qed.

End HiddenFacts.

(** X19: without [--show-empty], the groups that have no segment leave no
    trace in the report: the inline, summary and CSV texts, the group
    numbers in them and the statistics line are those of the report of
    the other groups alone. *)
Theorem hidden_groups_leave_no_trace (fmt_2f : Q -> string) (a : args)
  (o : report_args) (bres : list group_result) :
  show_empty o = false ->
  format_inline fmt_2f a o (filter has_segments bres)
  = format_inline fmt_2f a o bres /\
  format_summary fmt_2f a o (filter has_segments bres)
  = format_summary fmt_2f a o bres /\
  format_csv fmt_2f a o (filter has_segments bres)
  = format_csv fmt_2f a o bres /\
  global_stats_summary fmt_2f o (filter has_segments bres)
  = global_stats_summary fmt_2f o bres.
Proof.
  intros He.
  assert (Hg : global_stats_summary fmt_2f o (filter has_segments bres)
               = global_stats_summary fmt_2f o bres).
  { unfold global_stats_summary. now rewrite totals_loop_filter. }
  repeat split; [| | |exact Hg].
  - unfold format_inline, inline_lines, stats_lines.
    now rewrite inline_loop_filter, Hg.
  - unfold format_summary, summary_lines, stats_lines.
    now rewrite summary_loop_filter, Hg.
  - unfold format_csv, csv_lines. now rewrite csv_loop_filter, Hg.
Qed.

Lemma hidden_groups_leave_no_trace_witness :
  format_inline small_2f first_policy_args listing_report
    (filter has_segments sample_results)
  = format_inline small_2f first_policy_args listing_report sample_results /\
  format_summary small_2f first_policy_args listing_report
    (filter has_segments sample_results)
  = format_summary small_2f first_policy_args listing_report sample_results /\
  format_csv small_2f first_policy_args listing_report
    (filter has_segments sample_results)
  = format_csv small_2f first_policy_args listing_report sample_results /\
  global_stats_summary small_2f listing_report
    (filter has_segments sample_results)
  = global_stats_summary small_2f listing_report sample_results.
Proof.
  apply (hidden_groups_leave_no_trace small_2f first_policy_args
           listing_report sample_results).
  reflexivity.
Defined.

(** X20: [build_segment_text] raises only [IndexError], and exactly
    when the count of the segment is not 0, the form is not that of
    [--range all] and the segment has no item; it relies on the count
    that [build_missing_segment] stored, not on the items. *)
Theorem segment_text_raises_iff (sg : segment) (show_mode range_md : string)
  (kind : artifact) (explain_on : bool) :
  (forall e, build_segment_text sg show_mode range_md kind explain_on = Err e ->
             e = IndexError) /\
  (build_segment_text sg show_mode range_md kind explain_on = Err IndexError
   <-> count sg <> 0 /\ String.eqb range_md "all" = false /\
       missing_items sg = []).
Proof.
  unfold build_segment_text.
  destruct (count sg =? 0) eqn:E0.
  { apply Z.eqb_eq in E0. split; [discriminate|].
    split; [discriminate|]. intros (H & _). contradiction. }
  apply Z.eqb_neq in E0.
  destruct (String.eqb range_md "all").
  { split; [discriminate|]. split; [discriminate|]. intros (_ & H & _).
    discriminate. }
  destruct (missing_items sg) as [|mi rest].
  { cbn [Py.first bind].
    destruct (count sg =? 1);
      (split; [intros e H; now injection H as <-|]); now split. }
  cbn [Py.first bind]. destruct (last_cons mi rest) as (y & ->). cbn [bind].
  destruct (count sg =? 1);
    (split; [discriminate|]; split; [discriminate|]; intros (_ & _ & H);
     discriminate).
Qed.

(** X21: in the forms [number] and [padded] of [--show], the label of a
    missing item determines its value: two missing items of a group with
    the same label have the same value. *)
Theorem labels_determine_values :
  forall g s e m inc ex V,
    1 <= inc -> covered (picks g) -> observed (picks g) V ->
    exists r,
      (forall fuel, (Z.to_nat (num_missing (result_stats r)) <= fuel)%nat ->
         detect_breaks_in_group s e m inc ex fuel g = Ok r) /\
      forall sg1 sg2 mi1 mi2 show_mode,
        In sg1 (segments r) -> In mi1 (missing_items sg1) ->
        In sg2 (segments r) -> In mi2 (missing_items sg2) ->
        show_mode = "number" \/ show_mode = "padded" ->
        reconstruct mi1 show_mode = reconstruct mi2 show_mode ->
        val mi1 = val mi2.
Proof.
  intros g s e m inc ex V Hinc Hc Ho.
  destruct (detect_total s e m inc ex g V Hinc Hc Ho) as (r & Hr & _ & Hs & _).
  exists r. split; [exact Hr|].
  assert (Hint : forall sg mi, In sg (segments r) -> In mi (missing_items sg) ->
                   Py.int (padded mi) = Ok (val mi)).
  { intros sg mi Hsg Hmi. rewrite Hs in Hsg.
    assert (Hne : real_cov_of_picks (picks g) <> []).
    { apply real_cov_nonempty; [exact Hc|]. intros Hnil.
      rewrite Hnil in Ho. destruct Ho as [_ Hin].
      destruct V as [|x V].
      - unfold group_segments in Hsg. destruct Hsg.
      - destruct (proj1 (Hin x) (or_introl eq_refl)) as (p & [] & _). }
    destruct (missing_item_shape s e m inc ex V _ sg mi Hinc Hne Hsg Hmi)
      as (Hpad & _ & _).
    rewrite Hpad. apply int_zfill_str. }
  intros sg1 sg2 mi1 mi2 show_mode Hsg1 Hmi1 Hsg2 Hmi2 [-> | ->] E;
    cbn in E.
  - now apply str_inj.
  - pose proof (Hint _ _ Hsg1 Hmi1) as H1. pose proof (Hint _ _ Hsg2 Hmi2) as H2.
    rewrite E in H1. congruence.
Qed.

Lemma labels_determine_values_witness :
  exists r,
    (forall fuel, (Z.to_nat (num_missing (result_stats r)) <= fuel)%nat ->
       detect_breaks_in_group (Some (-3)) None None 1 false fuel boundary_group
       = Ok r) /\
    forall sg1 sg2 mi1 mi2 show_mode,
      In sg1 (segments r) -> In mi1 (missing_items sg1) ->
      In sg2 (segments r) -> In mi2 (missing_items sg2) ->
      show_mode = "number" \/ show_mode = "padded" ->
      reconstruct mi1 show_mode = reconstruct mi2 show_mode ->
      val mi1 = val mi2.
Proof.
  apply (labels_determine_values boundary_group (Some (-3)) None None 1 false
           [105; 110]).
  - lia.
  - repeat constructor; discriminate.
  - exact (observed_computed (picks boundary_group)).
Defined.

(** ** The report: the fields of the CSV lines *)

Lemma csv_row_six f1 f2 f3 f4 f5 f6 :
  six_fields (csv_row [f1; f2; f3; f4; f5; f6]).
Proof. unfold six_fields. now rewrite csv_read_row. Qed.

Section CsvFacts.

Variable a : args.
Variable o : report_args.

Lemma csv_segments_fields gid d atype segs :
  forall lines out,
    csv_segments a o gid d atype segs lines = Ok out ->
    Forall six_fields lines -> Forall six_fields out.
Proof.
  induction segs as [|sg segs IH]; intros lines out H Hl; cbn [csv_segments] in H.
  - now injection H as <-.
  - destruct (count sg =? 0); [eauto|].
    destruct (String.eqb (range_mode o) "all").
    + eapply IH; [exact H|]. apply Forall_app. split; [exact Hl|].
      rewrite Forall_map. apply Forall_forall. intros mi _. apply csv_row_six.
    + destruct (count sg =? 1).
      * apply bind_ok in H as (mi & _ & H). eapply IH; [exact H|].
        apply Forall_app. split; [exact Hl|].
        constructor; [apply csv_row_six|constructor].
      * apply bind_ok in H as (fmi & _ & H). apply bind_ok in H as (lmi & _ & H).
        eapply IH; [exact H|].
        apply Forall_app. split; [exact Hl|].
        constructor; [apply csv_row_six|constructor].
Qed.

Lemma csv_loop_fields bres :
  forall lines g out,
    csv_loop a o bres lines g = Ok out ->
    Forall six_fields lines -> Forall six_fields out.
Proof.
  induction bres as [|br bres IH]; intros lines g out H Hl; cbn [csv_loop] in H.
  - now injection H as <-.
  - destruct (hidden o br); [eauto|].
    destruct (segments br) as [|sg segs]; [eauto|].
    apply bind_ok in H as (mid & Em & H).
    eapply IH; [exact H|]. eapply csv_segments_fields; eauto.
Qed.

End CsvFacts.

(** X22: every line of the CSV report, the statistics line apart, is a
    record of six fields for the reader of quoted fields, the header
    line included, whatever characters the directories, the labels and
    the reasons hold. *)
Theorem csv_lines_have_six_fields (fmt_2f : Q -> string) (a : args)
  (o : report_args) (bres : list group_result) (lines : list string) :
  csv_lines fmt_2f a o bres = Ok lines ->
  exists data,
    lines = data ++ (if show_stats o
                     then [("# " ++ global_stats_summary fmt_2f o bres)%string]
                     else []) /\
    Forall six_fields data /\
    hd_error data = Some (PyText.join "," csv_header).
Proof.
  unfold csv_lines. intros H. apply bind_ok in H as (data & El & H).
  injection H as <-. exists data. split; [|split].
  - destruct (show_stats o); [reflexivity|now rewrite app_nil_r].
  - eapply csv_loop_fields; [exact El|].
    constructor; [vm_compute; reflexivity|constructor].
  - clear -El.
    assert (Hh : forall rs lines g out x,
              csv_loop a o rs lines g = Ok out ->
              hd_error lines = Some x -> hd_error out = Some x).
    { assert (Happ : forall (l l' : list string) x,
                hd_error l = Some x -> hd_error (l ++ l') = Some x)
        by (intros [|y l] l' x; [discriminate|auto]).
      assert (Hs : forall gid d atype segs lines out x,
                csv_segments a o gid d atype segs lines = Ok out ->
                hd_error lines = Some x -> hd_error out = Some x).
      { induction segs as [|sg segs IH]; intros lines out x H Hx;
          cbn [csv_segments] in H; [now injection H as <-|].
        destruct (count sg =? 0); [eauto|].
        destruct (String.eqb (range_mode o) "all"); [eauto|].
        destruct (count sg =? 1).
        - apply bind_ok in H as (mi & _ & H). eauto.
        - apply bind_ok in H as (fmi & _ & H).
          apply bind_ok in H as (lmi & _ & H). eauto. }
      induction rs as [|br rs IH]; intros lines g out x H Hx;
        cbn [csv_loop] in H; [now injection H as <-|].
      destruct (hidden o br); [eauto|].
      destruct (segments br) as [|sg segs]; [eauto|].
      apply bind_ok in H as (mid & Em & H). eauto. }
    eapply Hh; [exact El|reflexivity].
Qed.

Lemma csv_lines_have_six_fields_witness :
  exists lines,
    csv_lines small_2f first_policy_args listing_report sample_results
    = Ok lines /\
    exists data,
      lines = data ++ (if show_stats listing_report
                       then [("# " ++ global_stats_summary small_2f
                                        listing_report sample_results)%string]
                       else []) /\
      Forall six_fields data /\
      hd_error data = Some (PyText.join "," csv_header).
Proof.
  eexists. split; [vm_compute; reflexivity|].
  apply (csv_lines_have_six_fields small_2f first_policy_args listing_report
           sample_results).
  vm_compute. reflexivity.
Defined.

(** ** The turns of the loops *)

Lemma closest_loop_turns_eq v rcs : forall best n,
  closest_loop_turns v rcs best n
  = (closest_loop v rcs best, (n + List.length rcs)%nat).
Proof.
  induction rcs as [|rc rcs IH]; intros best n;
    cbn [closest_loop_turns closest_loop List.length].
  - now rewrite Nat.add_0_r.
  - destruct best as [[b bd]|]; [destruct (_ <? _)|]; rewrite IH; f_equal; lia.
Qed.

Lemma find_closest_turns_eq v rcs n :
  find_closest_prefix_suffix_turns v rcs n
  = (find_closest_prefix_suffix v rcs, (n + List.length rcs)%nat).
Proof.
  unfold find_closest_prefix_suffix_turns, find_closest_prefix_suffix.
  rewrite closest_loop_turns_eq. now destruct (closest_loop v rcs None) as [[b d]|].
Qed.

Lemma fill_items_turns_eq rcs mis : forall n,
  fill_items_turns rcs mis n
  = (map (fill_prefix rcs) mis,
     (n + List.length mis * S (List.length rcs))%nat).
Proof.
  induction mis as [|mi mis IH]; intros n;
    cbn [fill_items_turns map List.length].
  - f_equal. lia.
  - rewrite find_closest_turns_eq, IH. unfold fill_prefix at 2. f_equal. lia.
Qed.

Lemma items_of_cons sg segs :
  items_of (sg :: segs) = (List.length (missing_items sg) + items_of segs)%nat.
Proof. unfold items_of. cbn [flat_map]. apply length_app. Qed.

Lemma items_of_snoc segs sg :
  items_of (segs ++ [sg]) = (items_of segs + List.length (missing_items sg))%nat.
Proof.
  unfold items_of. rewrite flat_map_app, length_app. cbn [flat_map].
  now rewrite app_nil_r.
Qed.

Lemma fill_segments_turns_eq rcs segs : forall n,
  fill_segments_turns rcs segs n
  = (map (fill_segment rcs) segs,
     (n + List.length segs + items_of segs * S (List.length rcs))%nat).
Proof.
  induction segs as [|sg segs IH]; intros n;
    cbn [fill_segments_turns map List.length].
  - unfold items_of. cbn. f_equal. lia.
  - rewrite fill_items_turns_eq, IH, items_of_cons. unfold fill_segment at 2.
    f_equal. lia.
Qed.

Lemma items_of_fill rcs segs :
  items_of (map (fill_segment rcs) segs) = items_of segs.
Proof.
  induction segs as [|sg segs IH]; [reflexivity|].
  cbn [map]. rewrite !items_of_cons, IH.
  cbn [fill_segment missing_items]. now rewrite length_map.
Qed.

Lemma scan_picks_turns_eq kind ps : forall ints rcs ts rc n,
  scan_picks_turns kind ps ints rcs ts rc n
  = match scan_picks kind ps ints rcs ts rc with
    | Ok st =>
        Ok (st, (n + List.length ps + List.length (coverage_values ps))%nat)
    | Err e => Err e
    end.
Proof.
  induction ps as [|p ps IH]; intros ints rcs ts rc n;
    cbn [scan_picks_turns scan_picks].
  - unfold coverage_values. cbn. do 2 f_equal. lia.
  - destruct (Py.first (coverage p)) as [mv|e]; cbn [bind]; [|reflexivity].
    rewrite IH. destruct (scan_picks _ _ _ _ _ _); [|reflexivity].
    unfold coverage_values. cbn [map List.concat List.length].
    rewrite length_app. do 2 f_equal. lia.
Qed.

Lemma real_cov_length ps :
  List.length (real_cov_of_picks ps) = List.length (coverage_values ps).
Proof.
  unfold real_cov_of_picks, coverage_values.
  induction ps as [|p ps IH]; [reflexivity|].
  cbn [flat_map map List.concat]. rewrite !length_app, IH. f_equal.
  unfold real_cov_of_pick. destruct (coverage p) eqn:E; [reflexivity|].
  now rewrite length_map.
Qed.

Section TurnsFacts.

Variable start_opt end_opt modulus : option Z.
Variable inc : Z.
Variable ex : bool.
Variable fuel : nat.

Lemma missing_loop_turns_eq b pad ed : forall k v items n,
  missing_loop_turns b ex modulus inc k pad v ed items n
  = match missing_loop b ex modulus inc k pad v ed items with
    | Ok its => Ok (its, (n + List.length its - List.length items)%nat)
    | Err e => Err e
    end.
Proof.
  induction k as [|k IH]; intros v items n;
    cbn [missing_loop_turns missing_loop]; destruct (v <=? ed); try reflexivity.
  - do 2 f_equal. lia.
  - rewrite IH. destruct (missing_loop _ _ _ _ _ _ _ _ _) as [its|]; [|reflexivity].
    rewrite length_app. cbn [List.length]. do 2 f_equal. lia.
  - do 2 f_equal. lia.
Qed.

Lemma build_missing_segment_turns_eq b st ed n :
  build_missing_segment_turns b ex modulus inc fuel st ed n
  = match build_missing_segment b ex modulus inc fuel st ed with
    | Ok sg => Ok (sg, (n + List.length (missing_items sg))%nat)
    | Err e => Err e
    end.
Proof.
  unfold build_missing_segment_turns, build_missing_segment.
  destruct (ed <? st). { cbn. do 2 f_equal. lia. }
  rewrite missing_loop_turns_eq.
  destruct (missing_loop _ _ _ _ _ _ _ _ _) as [its|]; cbn [bind]; [|reflexivity].
  cbn [missing_items List.length]. do 2 f_equal. lia.
Qed.

(** A segment that is not appended has no item. *)
Lemma items_of_append segs b st ed sg :
  build_missing_segment b ex modulus inc fuel st ed = Ok sg ->
  items_of (append_if_counted segs sg)
  = (items_of segs + List.length (missing_items sg))%nat.
Proof.
  intros H. apply build_missing_segment_inv in H.
  unfold append_if_counted. destruct (count sg >? 0) eqn:E.
  - apply items_of_snoc.
  - assert (count sg <= 0) by (destruct (Z.gtb_spec (count sg) 0); [discriminate|lia]).
    destruct (missing_items sg); [lia|]. cbn [List.length] in H. lia.
Qed.

Lemma leading_part_turns_eq seq_start mn segs n :
  leading_part_turns modulus inc ex fuel seq_start mn segs n
  = match leading_part modulus inc ex fuel seq_start mn segs with
    | Ok segs' => Ok (segs', (n + (items_of segs' - items_of segs))%nat)
    | Err e => Err e
    end.
Proof.
  unfold leading_part_turns, leading_part. destruct (_ <? _).
  - rewrite build_missing_segment_turns_eq.
    destruct (build_missing_segment _ _ _ _ _ _ _) as [sg|] eqn:E; cbn [bind];
      [|reflexivity].
    rewrite (items_of_append segs _ _ _ _ E). do 2 f_equal. lia.
  - do 2 f_equal. lia.
Qed.

Lemma trailing_part_turns_eq seq_end mx segs n :
  trailing_part_turns modulus inc ex fuel seq_end mx segs n
  = match trailing_part modulus inc ex fuel seq_end mx segs with
    | Ok segs' => Ok (segs', (n + (items_of segs' - items_of segs))%nat)
    | Err e => Err e
    end.
Proof.
  unfold trailing_part_turns, trailing_part. destruct (_ >? _).
  - rewrite build_missing_segment_turns_eq.
    destruct (build_missing_segment _ _ _ _ _ _ _) as [sg|] eqn:E; cbn [bind];
      [|reflexivity].
    rewrite (items_of_append segs _ _ _ _ E). do 2 f_equal. lia.
  - do 2 f_equal. lia.
Qed.

Lemma leading_part_grows seq_start mn segs segs' :
  leading_part modulus inc ex fuel seq_start mn segs = Ok segs' ->
  (items_of segs <= items_of segs')%nat.
Proof.
  unfold leading_part. destruct (_ <? _).
  - intros H. apply bind_ok in H as (sg & E & H). injection H as <-.
    rewrite (items_of_append segs _ _ _ _ E). lia.
  - intros H. injection H as <-. lia.
Qed.

Lemma trailing_part_grows seq_end mx segs segs' :
  trailing_part modulus inc ex fuel seq_end mx segs = Ok segs' ->
  (items_of segs <= items_of segs')%nat.
Proof.
  unfold trailing_part. destruct (_ >? _).
  - intros H. apply bind_ok in H as (sg & E & H). injection H as <-.
    rewrite (items_of_append segs _ _ _ _ E). lia.
  - intros H. injection H as <-. lia.
Qed.

Lemma internal_loop_grows V : forall indices segs segs',
  internal_loop modulus inc ex fuel V indices segs = Ok segs' ->
  (items_of segs <= items_of segs')%nat.
Proof.
  induction indices as [|i indices IH]; intros segs segs' H;
    cbn [internal_loop] in H.
  - injection H as <-. lia.
  - destruct (_ >? _); [|eauto].
    apply bind_ok in H as (sg & E & H). apply IH in H.
    rewrite (items_of_append segs _ _ _ _ E) in H. lia.
Qed.

Lemma internal_loop_turns_eq V : forall indices segs n,
  internal_loop_turns modulus inc ex fuel V indices segs n
  = match internal_loop modulus inc ex fuel V indices segs with
    | Ok segs' =>
        Ok (segs', (n + List.length indices
                    + (items_of segs' - items_of segs))%nat)
    | Err e => Err e
    end.
Proof.
  induction indices as [|i indices IH]; intros segs n;
    cbn [internal_loop_turns internal_loop List.length].
  - do 2 f_equal. lia.
  - destruct (_ >? _).
    + rewrite build_missing_segment_turns_eq.
      destruct (build_missing_segment _ _ _ _ _ _ _) as [sg|] eqn:E; cbn [bind];
        [|reflexivity].
      rewrite IH.
      destruct (internal_loop _ _ _ _ _ _ _) as [segs'|] eqn:El; [|reflexivity].
      apply internal_loop_grows in El.
      rewrite (items_of_append segs _ _ _ _ E) in *. do 2 f_equal. lia.
    + rewrite IH. destruct (internal_loop _ _ _ _ _ _ _); [|reflexivity].
      do 2 f_equal. lia.
Qed.

(** The counter of the instrumented function is [detect_turns], and its
    result is the result of [detect_breaks_in_group]. *)
Lemma detect_turns_eq g :
  detect_breaks_in_group_turns start_opt end_opt modulus inc ex fuel g
  = with_turns g (detect_breaks_in_group start_opt end_opt modulus inc ex fuel g).
Proof.
  unfold detect_breaks_in_group_turns, detect_breaks_in_group, with_turns,
    detect_turns.
  destruct (picks g) as [|p ps] eqn:Ep; [reflexivity|].
  rewrite scan_picks_turns_eq.
  destruct (scan_picks _ _ _ _ _ _) as [[[[all_ints rcs] ts] rc]|] eqn:Es;
    cbn [bind]; [|reflexivity].
  pose proof Es as Es'. apply scan_picks_inv in Es' as (Hc & Hi & _).
  assert (Hr : List.length rcs = List.length (coverage_values (p :: ps))).
  { destruct (scan_picks_run (artifact_type g) (p :: ps) IntSet.empty [] 0 0 Hc)
      as (ts' & rc' & Es'').
    rewrite Es in Es''. injection Es'' as _ -> _ _.
    cbn [app]. apply (real_cov_length (p :: ps)). }
  change (fold_left _ _ IntSet.empty) with (distinct_values (p :: ps)) in Hi.
  unfold IntSet.sorted. rewrite <- Hi.
  destruct all_ints as [|mn V] eqn:Ea.
  { cbn [empty_result segments List.length]. unfold items_of. cbn.
    do 2 f_equal. lia. }
  rewrite <- Ea.
  rewrite leading_part_turns_eq.
  destruct (leading_part _ _ _ _ _ _ _) as [s1|] eqn:E1; cbn [bind];
    [|reflexivity].
  rewrite internal_loop_turns_eq.
  destruct (internal_loop _ _ _ _ _ _ _) as [s2|] eqn:E2; cbn [bind];
    [|reflexivity].
  rewrite trailing_part_turns_eq.
  destruct (trailing_part _ _ _ _ _ _ _) as [s3|] eqn:E3; cbn [bind];
    [|reflexivity].
  rewrite fill_segments_turns_eq. cbn [segments].
  rewrite items_of_fill, length_map, length_seq.
  apply leading_part_grows in E1. apply internal_loop_grows in E2.
  apply trailing_part_grows in E3.
  change (items_of []) with 0%nat in *.
  do 2 f_equal. rewrite Hr, Nat.mul_succ_r. lia.
Qed.

End TurnsFacts.

Lemma zero_picks_values n :
  List.length (coverage_values (map zero_pick (seq 0 n))) = n.
Proof.
  unfold coverage_values. generalize 0%nat.
  induction n as [|n IH]; intros k; [reflexivity|].
  cbn [seq map List.concat zero_pick coverage app List.length]. now rewrite IH.
Qed.

(** The group of [n] names of the value 0, with the explicit end [n]:
    [n] missing values, and more than [n * n] turns. *)
Lemma zero_group_turns n :
  (1 <= n)%nat ->
  exists r,
    detect_breaks_in_group_turns None (Some (Z.of_nat n)) None 1 false n
      (zero_group n)
    = Ok (r, detect_turns (zero_group n) r) /\
    num_missing (result_stats r) = Z.of_nat n /\
    (n * n <= detect_turns (zero_group n) r)%nat.
Proof.
  intros Hn.
  destruct (detect_total None (Some (Z.of_nat n)) None 1 false (zero_group n) [0])
    as (r & Hr & Hg & Hs & Hm & _);
    [lia|apply zero_group_covered|now apply zero_group_observed|].
  assert (Hsegs : group_segments None (Some (Z.of_nat n)) None 1 false [0]
                  = [pure_segment Trailing false None 1 1 (Z.of_nat n)]).
  { unfold group_segments, candidate_segments.
    cbn [sequence_start sequence_end last adjacent_pairs flat_map app].
    rewrite Z.ltb_irrefl.
    replace (Z.of_nat n >? 0) with true by (symmetry; apply Z.gtb_lt; lia).
    cbn [app filter]. rewrite counted_pure_segment by lia.
    replace (0 + 1 <=? Z.of_nat n) with true by (symmetry; apply Z.leb_le; lia).
    reflexivity. }
  assert (Hlen : run_length 1 1 (Z.of_nat n) = n).
  { unfold run_length. rewrite Z.div_1_r. lia. }
  assert (Hcount : num_missing (result_stats r) = Z.of_nat n).
  { rewrite Hm, Hsegs. cbn [map fold_left pure_segment count]. rewrite Hlen. lia. }
  assert (Hitems : items_of (segments r) = n).
  { rewrite Hs, Hsegs. unfold items_of.
    cbn [map flat_map fill_segment pure_segment missing_items].
    rewrite app_nil_r. unfold run_values.
    now rewrite !length_map, length_seq. }
  exists r. split; [|split; [exact Hcount|]].
  - rewrite detect_turns_eq, Hr by lia. reflexivity.
  - unfold detect_turns. cbn [picks zero_group].
    destruct (map zero_pick (seq 0 n)) eqn:E.
    { apply (f_equal (@List.length pick)) in E.
      rewrite length_map, length_seq in E. cbn in E. lia. }
    rewrite <- E, Hitems, zero_picks_values. lia.
Qed.

(** C10, as stated: the steps are not linear in the number of items plus
    the number of missing values. No constant [c] bounds the turns of
    the loops of gap detection by [c] times that sum: the [n] files "0",
    "00", ... with the explicit end [n] have [n] missing values and
    take more than [n * n] turns. *)
Lemma reconstruction_not_linear :
  ~ exists c : nat,
      forall g e fuel r turns,
        covered (picks g) ->
        detect_breaks_in_group_turns None e None 1 false fuel g = Ok (r, turns) ->
        (turns
         <= c * (List.length (picks g) + Z.to_nat (num_missing (result_stats r))))%nat.
Proof.
  intros [c H].
  destruct (zero_group_turns (2 * c + 1)) as (r & Er & Hm & Ht); [lia|].
  specialize (H _ _ _ _ _ (zero_group_covered (2 * c + 1)) Er).
  rewrite Hm in H. cbn [picks zero_group] in H.
  rewrite length_map, length_seq in H. nia.
Qed.

(** C10, amended: with an increment of at least 1, patterns that are
    regular expressions and a range pattern that captures integers (or
    no multi-range expansion), for arbitrary item names, extraction,
    grouping and gap detection terminate and
    never raise: the run returns its results as soon as the fuel of the
    generation loop covers the missing values reported. The function of
    gap detection with a counter of the turns of its loops returns the
    result of [detect_breaks_in_group] and the count [detect_turns]:
    P + R + (V - 1) + S + 2 M + M R turns for P picks, R coverage values,
    V of them distinct, S segments and M missing values; S + M + M R of
    them are the turns of the loops that reconstruct the prefixes and
    suffixes, over the segments, their items and, for each item, all
    the real coverage values. *)
Theorem core_is_total :
  (forall a check cf cd,
     1 <= increment a -> extraction_safe a ->
     exists rs,
       forall fuel, (Z.to_nat (missing_total rs) <= fuel)%nat ->
         gather a fuel check cf cd = Ok rs) /\
  (forall s e m inc ex fuel g,
     detect_breaks_in_group_turns s e m inc ex fuel g
     = with_turns g (detect_breaks_in_group s e m inc ex fuel g)) /\
  (forall s e m inc ex g V,
     1 <= inc -> covered (picks g) -> observed (picks g) V ->
     exists r,
       forall fuel, (Z.to_nat (num_missing (result_stats r)) <= fuel)%nat ->
         detect_breaks_in_group_turns s e m inc ex fuel g
         = Ok (r, detect_turns g r)) /\
  (forall rcs segs turns,
     fill_segments_turns rcs segs turns
     = (map (fill_segment rcs) segs,
        (turns + List.length segs + items_of segs
         + items_of segs * List.length rcs)%nat)).
Proof.
  split; [|split; [|split]].
  - intros a check cf cd Hinc Hsafe. now apply gather_total.
  - intros. apply detect_turns_eq.
  - intros s e m inc ex g V Hinc Hc Ho.
    destruct (detect_total s e m inc ex g V Hinc Hc Ho) as (r & Hr & _).
    exists r. intros fuel Hf. now rewrite detect_turns_eq, Hr.
  - intros rcs segs turns. rewrite fill_segments_turns_eq. f_equal. lia.
Qed.

Lemma core_is_total_witness :
  exists rs,
    forall fuel, (Z.to_nat (missing_total rs) <= fuel)%nat ->
      gather first_policy_args fuel CheckBoth image_files scan_files = Ok rs.
Proof.
  apply (proj1 core_is_total first_policy_args CheckBoth image_files scan_files).
  - simpl. lia.
  - left. reflexivity.
Defined.
